(** * polish: scene synthesis ([create_dataset/scene.go]) and the ReLU layer
      ([polish/nn/simple_ops.go])

    A shallow embedding of the Go sources and the properties of their
    specification.

    The Go code computes on [float64].  Every definition below is written
    once, over an interface [Float64] of the operations the code uses, and
    is run at two instances:

    - [binary64]: Rocq's primitive IEEE-754 binary64 numbers, the numbers
      the Go program computes with (round to nearest even, infinities,
      NaN);
    - [exact]: the rationals [Qc], float64 without rounding, infinities or
      NaN, on which the properties quantified over all inputs are proved.
*)

From Stdlib Require Import ZArith QArith Qcanon Qround Qabs Lqa Lia List Bool String.
From Stdlib Require Import Permutation Sorted.
From Stdlib Require Import PrimFloat Uint63 SpecFloat FloatOps.
From Stdlib Require FloatAxioms.
Import ListNotations.

Set Implicit Arguments.

(* ================================================================== *)
(** * The float64 interface *)
(* ================================================================== *)

(** The operations of Go's [float64] (and of package [math]) that the two
    source files use. *)
Class Float64 (F : Type) : Type := {
  fadd : F -> F -> F;          (* x + y *)
  fsub : F -> F -> F;          (* x - y *)
  fmul : F -> F -> F;          (* x * y *)
  fdiv : F -> F -> F;          (* x / y: never traps *)
  fneg : F -> F;               (* -x *)
  flt : F -> F -> bool;        (* x < y *)
  feq : F -> F -> bool;        (* x == y *)
  flit : Z -> positive -> F;   (* the decimal constant n/d as a float64 *)
  of_int : Z -> F;             (* float64(n) *)
  to_int : F -> Z;             (* int(x): truncation towards zero *)
  math_Min : F -> F -> F;      (* math.Min *)
  math_Max : F -> F -> F       (* math.Max *)
}.

(** [math.Sqrt] and [math.Pi], kept apart: only vector norms and the field
    of view use them. *)
Class GoMath (F : Type) : Type := {
  math_Sqrt : F -> F;
  math_Pi : F
}.

Declare Scope f64_scope.
Delimit Scope f64_scope with f64.
Infix "+" := fadd : f64_scope.
Infix "-" := fsub : f64_scope.
Infix "*" := fmul : f64_scope.
Infix "/" := fdiv : f64_scope.
Notation "- x" := (fneg x) : f64_scope.
Infix "<?" := flt : f64_scope.
Infix "==?" := feq (at level 70, no associativity) : f64_scope.

Section Comparisons.
Context {F : Type} `{Float64 F}.

(** [x > y] *)
Definition fgt (x y : F) : bool := flt y x.
(** [x <= y] *)
Definition fle (x y : F) : bool := flt x y || feq x y.
(** [math.IsNaN]: [f != f]. *)
Definition IsNaN (x : F) : bool := negb (feq x x).
(** The constant [0]: the zero value of a float64 field. *)
Definition fzero : F := of_int 0.
End Comparisons.

(** ** Instance 1: IEEE-754 binary64 *)

Module binary64.

(** [float64(n)] for an [int] of at most 63 bits of magnitude. *)
Definition of_Z (n : Z) : float :=
    match n with
    | Z0 => PrimFloat.zero
    | Zpos _ => PrimFloat.of_uint63 (Uint63.of_Z n)
    | Zneg p => PrimFloat.opp (PrimFloat.of_uint63 (Uint63.of_Z (Zpos p)))
    end.

(** [int(x)]: the integer part; 0 stands for the implementation-specific
    value Go gives to NaN and the infinities. *)
Definition to_Z (x : float) : Z :=
    match Prim2SF x with
    | S754_finite s m e =>
        let a := match e with
                 | Zneg k => Z.shiftr (Zpos m) (Zpos k)
                 | _ => Z.shiftl (Zpos m) e
                 end in
        if s then Z.opp a else a
    | _ => 0%Z
    end.

Definition is_pos_inf (x : float) : bool :=
    PrimFloat.eqb x PrimFloat.infinity.
Definition is_neg_inf (x : float) : bool :=
    PrimFloat.eqb x PrimFloat.neg_infinity.

(** [math.Min]: -Inf wins, then NaN, then the sign of zero. *)
Definition Min (x y : float) : float :=
    if is_neg_inf x || is_neg_inf y then PrimFloat.neg_infinity
    else if PrimFloat.is_nan x || PrimFloat.is_nan y then PrimFloat.nan
    else if PrimFloat.is_zero x && PrimFloat.eqb x y then
      (if PrimFloat.get_sign x then x else y)
    else if PrimFloat.ltb x y then x else y.

(** [math.Max]: +Inf wins, then NaN, then the sign of zero. *)
Definition Max (x y : float) : float :=
    if is_pos_inf x || is_pos_inf y then PrimFloat.infinity
    else if PrimFloat.is_nan x || PrimFloat.is_nan y then PrimFloat.nan
    else if PrimFloat.is_zero x && PrimFloat.eqb x y then
      (if PrimFloat.get_sign x then y else x)
    else if PrimFloat.ltb y x then x else y.

(** The rational a finite float64 stands for; 0 for infinities and
    NaN. *)
Definition to_Q (x : float) : Q :=
  match Prim2SF x with
  | S754_finite s m e =>
      let a := (inject_Z (Zpos m) * Qpower 2 e)%Q in
      if s then Qopp a else a
  | _ => 0%Q
  end.

#[global] Instance ops : Float64 float := {|
    fadd := PrimFloat.add;
    fsub := PrimFloat.sub;
    fmul := PrimFloat.mul;
    fdiv := PrimFloat.div;
    fneg := PrimFloat.opp;
    flt := PrimFloat.ltb;
    feq := PrimFloat.eqb;
    flit := fun n d => PrimFloat.div (of_Z n) (of_Z (Zpos d));
    of_int := of_Z;
    to_int := to_Z;
    math_Min := Min;
    math_Max := Max
  |}.

#[global] Instance math : GoMath float := {|
    math_Sqrt := PrimFloat.sqrt;
    math_Pi := 0x1.921fb54442d18p+1%float
  |}.

End binary64.

(** ** Instance 2: exact rational arithmetic *)

Module exact.

Definition lit (n : Z) (d : positive) : Qc := Q2Qc (n # d).

Definition ltb (x y : Qc) : bool :=
    match (x ?= y)%Qc with Lt => true | _ => false end.

Definition Min (x y : Qc) : Qc := if ltb x y then x else y.
Definition Max (x y : Qc) : Qc := if ltb y x then x else y.

(** Division is total as in the code: where float64 gives an infinity or
    NaN for a zero divisor, [Qcdiv] gives 0. *)
#[global] Instance ops : Float64 Qc := {|
    fadd := Qcplus;
    fsub := Qcminus;
    fmul := Qcmult;
    fdiv := Qcdiv;
    fneg := Qcopp;
    flt := ltb;
    feq := Qc_eq_bool;
    flit := lit;
    of_int := fun n => Q2Qc (inject_Z n);
    to_int := fun x => Z.quot (Qnum x) (Zpos (Qden x));
    math_Min := Min;
    math_Max := Max
  |}.

(** The square root where it is rational: on the square of a rational it
    is exact; elsewhere it is rounded down in numerator and denominator.
    The normals of an axis-aligned box need no more. *)
Definition Sqrt (x : Qc) : Qc :=
  Q2Qc (Z.sqrt (Qnum x) # Pos.sqrt (Qden x)).

(** [math.Pi] as the code uses it: the rational that the float64 nearest
    to pi stands for. *)
Definition Pi : Qc := Q2Qc (884279719003555 # 281474976710656).

#[global] Instance math : GoMath Qc := {|
  math_Sqrt := Sqrt;
  math_Pi := Pi
|}.

(** [math.MaxFloat64], the largest finite float64: 2^1024 - 2^971.  A
    number is a finite float64 only if it is between [-MaxFloat64] and
    [MaxFloat64]; the infinities and NaN are not. *)
Definition MaxFloat64 : Qc := Q2Qc (inject_Z (2 ^ 1024 - 2 ^ 971)).

End exact.

(* ================================================================== *)
(** * Outcomes and the random source *)
(* ================================================================== *)

(** A Go call either returns or panics. *)
Inductive Result (A : Type) : Type :=
| Ok (a : A)
| Panic (msg : string).
Arguments Ok {A} a.
Arguments Panic {A} msg.

(** Go's [int], 64 bits wide: a result outside [-2^63, 2^63) wraps
    around. *)
Definition int_wrap (z : Z) : Z :=
  ((z + 2 ^ 63) mod 2 ^ 64 - 2 ^ 63)%Z.
(** [a * b] on [int]. *)
Definition int_mul (a b : Z) : Z := int_wrap (a * b).

(** Package [math/rand]'s process-wide source: the values its next calls
    will return, and how many were taken.  [Float64] answers lie in
    [[0,1)]; [Intn n] reduces its draw modulo [n]. *)
Record Source (F : Type) : Type := {
  float_draws : nat -> F;
  int_draws : nat -> Z;
  norm_draws : nat -> F;
  cursor : nat
}.

(** Code that draws random numbers and may panic. *)
Definition M (F A : Type) : Type := Source F -> Result (A * Source F).

Section Monad.
Context {F : Type}.

Definition ret {A} (a : A) : M F A := fun s => Ok (a, s).

Definition bind {A B} (m : M F A) (k : A -> M F B) : M F B :=
  fun s => match m s with
           | Ok (a, s') => k a s'
           | Panic msg => Panic msg
           end.

Definition panic {A} (msg : string) : M F A := fun _ => Panic msg.

Definition advance (s : Source F) : Source F :=
  {| float_draws := float_draws s; int_draws := int_draws s;
     norm_draws := norm_draws s; cursor := S (cursor s) |}.

(** [rand.Float64()] *)
Definition rand_Float64 : M F F :=
  fun s => Ok (float_draws s (cursor s), advance s).

(** [rand.NormFloat64()] *)
Definition rand_NormFloat64 : M F F :=
  fun s => Ok (norm_draws s (cursor s), advance s).

(** [rand.Intn(n)]: panics unless [n > 0]. *)
Definition rand_Intn (n : Z) : M F Z :=
  fun s => if (0 <? n)%Z
           then Ok ((int_draws s (cursor s) mod n)%Z, advance s)
           else Panic "invalid argument to Intn".

End Monad.

Notation "x <- m ;; k" := (bind m (fun x => k))
  (at level 61, m at next level, right associativity).

(* ================================================================== *)
(** * Package model3d: coordinates, triangles, meshes *)
(* ================================================================== *)

Module Coord3D.

(** [model3d.Coord3D]; [render3d.Color] is the same type. *)
Record t (F : Type) : Type := mk { X : F; Y : F; Z : F }.
Arguments mk {F} X Y Z.

Section Ops.
Context {F : Type} `{Float64 F}.
Local Open Scope f64_scope.

(** The zero value [Coord3D{}]. *)
Definition zero : t F := mk fzero fzero fzero.

(** Modelled from the spec: [Coord3D.Add], [Sub], [Mul], [Scale], [Dot],
    [Min], [Max], [Mid], [Sum] of the external package model3d
    (Coordinate: "supports add, subtract, scale, dot product, midpoint,
    distance"), component by component. *)
Definition Add (c c1 : t F) : t F :=
  mk (X c + X c1) (Y c + Y c1) (Z c + Z c1).
Definition Sub (c c1 : t F) : t F :=
  mk (X c - X c1) (Y c - Y c1) (Z c - Z c1).
Definition Mul (c c1 : t F) : t F :=
  mk (X c * X c1) (Y c * Y c1) (Z c * Z c1).
Definition Scale (c : t F) (s : F) : t F :=
  mk (X c * s) (Y c * s) (Z c * s).
Definition Dot (c c1 : t F) : F :=
  X c * X c1 + Y c * Y c1 + Z c * Z c1.
Definition Min (c c1 : t F) : t F :=
  mk (math_Min (X c) (X c1)) (math_Min (Y c) (Y c1)) (math_Min (Z c) (Z c1)).
Definition Max (c c1 : t F) : t F :=
  mk (math_Max (X c) (X c1)) (math_Max (Y c) (Y c1)) (math_Max (Z c) (Z c1)).
Definition Mid (c c1 : t F) : t F := Scale (Add c c1) (flit 1 2).
Definition Sum (c : t F) : F := X c + Y c + Z c.

(** Go's [==] on coordinates. *)
Definition eqb (c c1 : t F) : bool :=
  feq (X c) (X c1) && feq (Y c) (Y c1) && feq (Z c) (Z c1).

(** Modelled from the spec: [Coord3D.Norm] and [Coord3D.Dist] of the
    external package model3d (Coordinate: "distance"). *)
Definition Norm `{GoMath F} (c : t F) : F := math_Sqrt (Dot c c).
Definition Dist `{GoMath F} (c c1 : t F) : F := Norm (Sub c c1).

End Ops.
End Coord3D.

Module Triangle.

(** [model3d.Triangle]: three corners. *)
Definition t (F : Type) : Type :=
  (Coord3D.t F * Coord3D.t F * Coord3D.t F)%type.

Section Ops.
Context {F : Type} `{Float64 F}.
Local Open Scope f64_scope.

Definition corners (tr : t F) : list (Coord3D.t F) :=
  let '(a, b, c) := tr in [a; b; c].

Definition map (f : Coord3D.t F -> Coord3D.t F) (tr : t F) : t F :=
  let '(a, b, c) := tr in (f a, f b, f c).

Definition eqb (t1 t2 : t F) : bool :=
  let '(a, b, c) := t1 in
  let '(a', b', c') := t2 in
  Coord3D.eqb a a' && Coord3D.eqb b b' && Coord3D.eqb c c'.

(** Modelled from the spec: [Triangle.Normal] of the external package
    model3d (GeometryOps: "normal queries"; Mesh: "derivable outward
    normal"): the cross product of the two edges at the first corner,
    scaled to unit length. *)
Definition Normal `{GoMath F} (tr : t F) : Coord3D.t F :=
  let '(p0, p1, p2) := tr in
  let a := Coord3D.Sub p1 p0 in
  let b := Coord3D.Sub p2 p0 in
  let x := Coord3D.Y a * Coord3D.Z b - Coord3D.Z a * Coord3D.Y b in
  let y := Coord3D.Z a * Coord3D.X b - Coord3D.X a * Coord3D.Z b in
  let z := Coord3D.X a * Coord3D.Y b - Coord3D.Y a * Coord3D.X b in
  let scale := of_int 1 / math_Sqrt (x * x + y * y + z * z) in
  Coord3D.mk (x * scale) (y * scale) (z * scale).

End Ops.
End Triangle.

Module Mesh.

(** [model3d.Mesh]: a collection of triangles.  The list order stands for
    the order in which the Go map happens to enumerate them. *)
Definition t (F : Type) : Type := list (Triangle.t F).

Section Ops.
Context {F : Type} `{Float64 F}.

(** [model3d.NewMeshTriangles] *)
Definition NewMeshTriangles (ts : list (Triangle.t F)) : t F := ts.

Definition vertices (m : t F) : list (Coord3D.t F) :=
  flat_map Triangle.corners m.

(** Modelled from the spec: [Mesh.Min] and [Mesh.Max] of the external
    package model3d (GeometryOps: "mesh bounding box"): the component-wise
    minimum and maximum over all corners, the zero coordinate for a mesh
    without triangles. *)
Definition Min (m : t F) : Coord3D.t F :=
  match vertices m with
  | [] => Coord3D.zero
  | c :: cs => fold_left (fun r c1 => Coord3D.Min c1 r) cs c
  end.
Definition Max (m : t F) : Coord3D.t F :=
  match vertices m with
  | [] => Coord3D.zero
  | c :: cs => fold_left (fun r c1 => Coord3D.Max c1 r) cs c
  end.

(** Modelled from the spec: [Mesh.MapCoords] and [Mesh.Scale] of the
    external package model3d (GeometryOps: "scale, translate"): a new mesh
    with the function applied to every corner. *)
Definition MapCoords (f : Coord3D.t F -> Coord3D.t F) (m : t F) : t F :=
  List.map (Triangle.map f) m.
Definition Scale (m : t F) (s : F) : t F :=
  MapCoords (fun c => Coord3D.Scale c s) m.

(** Membership and [Mesh.Remove].  Go identifies a triangle of a mesh by
    its pointer; the model identifies it by its three corners, which is the
    same as long as no two triangles of the mesh have equal corners. *)
Definition Contains (m : t F) (tr : Triangle.t F) : bool :=
  existsb (Triangle.eqb tr) m.
Definition Remove (tr : Triangle.t F) (m : t F) : t F :=
  filter (fun t1 => negb (Triangle.eqb tr t1)) m.

(** How many corners of [tr] are corners of [t1]. *)
Definition shared_corners (tr t1 : Triangle.t F) : nat :=
  List.length
    (filter (fun p => existsb (Coord3D.eqb p) (Triangle.corners t1))
            (Triangle.corners tr)).

(** Modelled from the spec: [Mesh.Neighbors] of the external package
    model3d (GeometryOps: "triangle adjacency"; "an adjacent triangle
    sharing an edge"): the triangles of the mesh other than [tr] that have
    two corners of [tr], in the order of the mesh. *)
Definition adjacent (tr t1 : Triangle.t F) : bool :=
  negb (Triangle.eqb t1 tr) && (2 <=? shared_corners tr t1)%nat.
Definition Neighbors (m : t F) (tr : Triangle.t F) : list (Triangle.t F) :=
  filter (adjacent tr) m.

(** Modelled from the spec: [Mesh.Iterate] of the external package model3d
    ("For each unvisited triangle T ... Remove both T and N from the
    working mesh ... and continue"): [f] is called on the triangles of a
    snapshot [order] of the mesh, in that order, skipping those that [f]
    has removed in the meantime.  The state [A] is what the closure [f]
    updates besides the mesh. *)
Fixpoint Iterate {A : Type} (order : list (Triangle.t F))
    (f : Triangle.t F -> t F * A -> Result (t F * A)) (st : t F * A)
    : Result (t F * A) :=
  match order with
  | [] => Ok st
  | tr :: rest =>
      if Contains (fst st) tr
      then match f tr st with
           | Ok st' => Iterate rest f st'
           | Panic msg => Panic msg
           end
      else Iterate rest f st
  end.

(** Modelled from the spec: [model3d.NewMeshRect] of the external package
    model3d ("the six-face box mesh spanning [min] to [max]", "6 faces x 2
    triangles = 12 triangles"): each face of the box is cut along one
    diagonal. *)
Definition NewMeshRect (min max : Coord3D.t F) : t F :=
  let p := fun (i j k : bool) =>
    Coord3D.mk (Coord3D.X (if i then max else min))
               (Coord3D.Y (if j then max else min))
               (Coord3D.Z (if k then max else min)) in
  let face := fun p1 p2 p3 p4 : Coord3D.t F =>
    [(p1, p2, p3); (p1, p3, p4)] in
  face (p false false false) (p false false true)
       (p false true true) (p false true false)
  ++ face (p true false false) (p true true false)
          (p true true true) (p true false true)
  ++ face (p false false false) (p true false false)
          (p true false true) (p false false true)
  ++ face (p false true false) (p false true true)
          (p true true true) (p true true false)
  ++ face (p false false false) (p false true false)
          (p true true false) (p true false false)
  ++ face (p false false true) (p true false true)
          (p true true true) (p false true true).

End Ops.
End Mesh.

(* ================================================================== *)
(** * Package sort and package render3d *)
(* ================================================================== *)

Section Sort.
Context {F : Type} `{Float64 F}.

(** The order [sort.Float64s] sorts by: [x < y], NaN before everything. *)
Definition Float64_less (x y : F) : bool :=
  flt x y || (IsNaN x && negb (IsNaN y)).

Fixpoint insert_sorted (x : F) (l : list F) : list F :=
  match l with
  | [] => [x]
  | y :: l' => if Float64_less y x then y :: insert_sorted x l' else x :: l
  end.

(** Modelled from the spec: [sort.Float64s] of Go's package sort ("sort all
    scalars ascending"), as an insertion sort. *)
Definition sort_Float64s (l : list F) : list F :=
  fold_right insert_sorted [] l.

(** [bs[i]]: indexing a slice panics outside [0 <= i < len(bs)]. *)
Definition slice_index (bs : list F) (i : Z) : Result F :=
  if (i <? 0)%Z then Panic "index out of range"
  else match nth_error bs (Z.to_nat i) with
       | Some x => Ok x
       | None => Panic "index out of range"
       end.

End Sort.

Module Image.
(** [render3d.Image]: one color per pixel. *)
Record t (F : Type) : Type := mk { Data : list (Coord3D.t F) }.
Arguments mk {F} Data.
End Image.

(** The colliders [CreateLight] builds: [model3d.Sphere] and
    [model3d.Rect]. *)
Inductive Collider (F : Type) : Type :=
| Sphere (Center : Coord3D.t F) (Radius : F)
| Rect (MinVal MaxVal : Coord3D.t F).

(** A [render3d.Object] of a scene: a [render3d.ColliderObject] with a
    [LambertMaterial] of the given emission color, or an object [Ext] made
    elsewhere. *)
Inductive Object (F Ext : Type) : Type :=
| ColliderObject (shape : Collider F) (EmissionColor : Coord3D.t F)
| External (o : Ext).
Arguments ColliderObject {F Ext} shape EmissionColor.
Arguments External {F Ext} o.

(** [render3d.SphereFocusPoint] *)
Record SphereFocusPoint (F : Type) : Type := {
  Center : Coord3D.t F;
  Radius : F
}.

(** [render3d.Camera], as [render3d.NewCameraAt] is called. *)
Record Camera (F : Type) : Type := NewCameraAt {
  Origin : Coord3D.t F;
  Target : Coord3D.t F;
  FieldOfView : F
}.

(** The fields of [render3d.RecursiveRayTracer] that [RandomScene] sets. *)
Record RecursiveRayTracer (F : Type) : Type := {
  TracerCamera : Camera F;
  FocusPoints : list (SphereFocusPoint F);
  FocusPointProbs : list F
}.

Section Objects.
Context {F : Type} `{Float64 F}.
Local Open Scope f64_scope.

(** [render3d.NewColor] *)
Definition NewColor (b : F) : Coord3D.t F := Coord3D.mk b b b.

(** Modelled from the spec: the bounds [Min()] and [Max()] of a collider
    of the external package model3d (LightSpec: "a geometric primitive
    (sphere or box)"; AxisAlignedBox: "a light's bounding volume"). *)
Definition Collider_Min (c : Collider F) : Coord3D.t F :=
  match c with
  | Sphere center radius =>
      Coord3D.Sub center (Coord3D.mk radius radius radius)
  | Rect MinVal _ => MinVal
  end.
Definition Collider_Max (c : Collider F) : Coord3D.t F :=
  match c with
  | Sphere center radius =>
      Coord3D.Add center (Coord3D.mk radius radius radius)
  | Rect _ MaxVal => MaxVal
  end.

End Objects.

(* ================================================================== *)
(** * create_dataset/scene.go *)
(* ================================================================== *)

Section Placement.
Context {F : Type} `{Float64 F}.
Local Open Scope f64_scope.

(** [uniformRandom] *)
Definition uniformRandom : M F (Coord3D.t F) :=
  x <- rand_Float64 ;;
  y <- rand_Float64 ;;
  z <- rand_Float64 ;;
  ret (Coord3D.mk x y z).

(** The local [maxScale] of [placeInBounds]. *)
Definition maxScale (placeMin placeMax : Coord3D.t F) (m : Mesh.t F) : F :=
  let min := Mesh.Min m in
  let max := Mesh.Max m in
  let diff := Coord3D.Sub max min in
  let pDiff := Coord3D.Sub placeMax placeMin in
  math_Min (Coord3D.X pDiff / Coord3D.X diff)
           (math_Min (Coord3D.Y pDiff / Coord3D.Y diff)
                     (Coord3D.Z pDiff / Coord3D.Z diff)).

(** The local [scale] of [placeInBounds], for the answer [u] of
    [rand.Float64()]. *)
Definition scale_of (u : F) (maxScale : F) : F :=
  (u * flit 9 10 + flit 1 10) * maxScale.

(** The local [translate] of [placeInBounds], for the scaled mesh [m] and
    the answer [r] of [uniformRandom()]. *)
Definition translate_of (placeMin placeMax : Coord3D.t F) (m : Mesh.t F)
    (r : Coord3D.t F) : Coord3D.t F :=
  let min := Mesh.Min m in
  let max := Mesh.Max m in
  let translateMin := Coord3D.Sub placeMin min in
  let translateMax := Coord3D.Sub placeMax max in
  Coord3D.Mul r (Coord3D.Sub translateMax translateMin).

(** [placeInBounds] *)
Definition placeInBounds (placeMin placeMax : Coord3D.t F) (m : Mesh.t F)
    : M F (Mesh.t F) :=
  u <- rand_Float64 ;;
  let scale := scale_of u (maxScale placeMin placeMax m) in
  let m := Mesh.Scale m scale in
  r <- uniformRandom ;;
  let translate := translate_of placeMin placeMax m r in
  ret (Mesh.MapCoords (Coord3D.Add translate) m).

End Placement.

Module RoomLayout.

(** [type RoomLayout struct { Width, Depth float64 }] *)
Record t (F : Type) : Type := mk { Width : F; Depth : F }.
Arguments mk {F} Width Depth.

Section Methods.
Context {F : Type} `{Float64 F}.
Local Open Scope f64_scope.

(** [RoomLayout.CameraInfo]; a field a Go literal leaves out is zero. *)
Definition CameraInfo (r : t F) : Coord3D.t F * Coord3D.t F :=
  (Coord3D.mk fzero ((- Depth r) / flit 2 1 + flit 1 100000) (flit 5 10),
   Coord3D.mk fzero (Depth r / flit 2 1) (flit 5 10)).

(** [RoomLayout.CreateLight] *)
Definition CreateLight {Ext : Type} (r : t F) : M F (Object F Ext) :=
  side <- rand_Intn 2 ;;
  center <-
    (if (side =? 0)%Z then
       (* Place light on ceiling. *)
       x <- rand_Float64 ;;
       y <- rand_Float64 ;;
       ret (Coord3D.mk ((x - flit 5 10) * Width r)
                       ((y - flit 5 10) * Depth r)
                       (flit 1 1))
     else
       (* Place light on side wall. *)
       let x := Width r / flit 2 1 in
       flip <- rand_Intn 2 ;;
       let x := if (flip =? 0)%Z then - x else x in
       y <- rand_Float64 ;;
       z <- rand_Float64 ;;
       ret (Coord3D.mk x ((y - flit 5 10) * Depth r) (z * flit 9 10))) ;;
  kind <- rand_Intn 2 ;;
  shape <-
    (if (kind =? 0)%Z then
       rad <- rand_Float64 ;;
       ret (Sphere center (rad * flit 2 10 + flit 5 100))
     else
       u <- uniformRandom ;;
       let size := Coord3D.Add (Coord3D.Scale u (flit 1 10))
                               (Coord3D.mk (flit 5 100) (flit 5 100)
                                           (flit 5 100)) in
       ret (Rect (Coord3D.Sub center size) (Coord3D.Add center size))) ;;
  e <- rand_Float64 ;;
  ret (ColliderObject shape (NewColor ((e + flit 1 10) * flit 10 1))).

(** The test of the inner loop of [CreateBackdrop]:
    [n.Normal().Dot(t.Normal()) > 0.99]. *)
Definition coplanar `{GoMath F} (tr n : Triangle.t F) : bool :=
  fgt (Coord3D.Dot (Triangle.Normal n) (Triangle.Normal tr)) (flit 99 100).

(** The closure [CreateBackdrop] hands to [mesh.Iterate]; its state is the
    mesh and the walls collected so far.  The closure does not test
    whether it has found a neighbor.  When none passes the test,
    [neighbor] is still nil: [mesh.Remove(nil)] removes nothing, and the
    wall is made of [t] and a nil pointer, which holds no triangle; the
    wall then has the one triangle [t]. *)
Definition backdrop_step `{GoMath F} (tr : Triangle.t F)
    (st : Mesh.t F * list (Mesh.t F)) : Result (Mesh.t F * list (Mesh.t F)) :=
  let '(mesh, walls) := st in
  match find (coplanar tr) (Mesh.Neighbors mesh tr) with
  | None =>
      let mesh := Mesh.Remove tr mesh in
      Ok (mesh, walls ++ [Mesh.NewMeshTriangles [tr]])
  | Some neighbor =>
      let mesh := Mesh.Remove neighbor mesh in
      let mesh := Mesh.Remove tr mesh in
      Ok (mesh, walls ++ [Mesh.NewMeshTriangles [tr; neighbor]])
  end.

(** The box mesh [CreateBackdrop] starts from. *)
Definition backdrop_box (r : t F) : Mesh.t F :=
  let min := Coord3D.mk ((- Width r) / flit 2 1) ((- Depth r) / flit 2 1)
                        fzero in
  let max := Coord3D.mk (Width r / flit 2 1) (Depth r / flit 2 1)
                        (flit 1 1) in
  Mesh.NewMeshRect min max.

(** [RoomLayout.CreateBackdrop]; [order] is the order in which
    [mesh.Iterate] enumerates the triangles of the box. *)
Definition CreateBackdrop `{GoMath F} (r : t F) (order : list (Triangle.t F))
    : Result (list (Mesh.t F)) :=
  let mesh := backdrop_box r in
  match Mesh.Iterate order backdrop_step (mesh, []) with
  | Ok (_, walls) => Ok walls
  | Panic msg => Panic msg
  end.

(** The locals [placeMin] and [placeMax] of [RoomLayout.PlaceMesh]. *)
Definition placeMin (r : t F) : Coord3D.t F :=
  Coord3D.mk ((- Width r) / flit 2 1) fzero fzero.
Definition placeMax (r : t F) : Coord3D.t F :=
  Coord3D.mk (Width r / flit 2 1) (Depth r / flit 2 1) (flit 1 1).

(** [RoomLayout.PlaceMesh] *)
Definition PlaceMesh (r : t F) (m : Mesh.t F) : M F (Mesh.t F) :=
  placeInBounds (placeMin r) (placeMax r) m.

End Methods.
End RoomLayout.

(** [type SceneLayout interface] *)
Class SceneLayout (F L : Type) : Type := {
  CameraInfo : L -> Coord3D.t F * Coord3D.t F;
  CreateLight : forall {Ext : Type}, L -> M F (Object F Ext);
  CreateBackdrop : L -> list (Triangle.t F) -> Result (list (Mesh.t F));
  PlaceMesh : L -> Mesh.t F -> M F (Mesh.t F)
}.

#[global] Instance RoomLayout_SceneLayout {F : Type} `{Float64 F}
  `{GoMath F} : SceneLayout F (RoomLayout.t F) := {|
  CameraInfo := RoomLayout.CameraInfo;
  CreateLight := @RoomLayout.CreateLight F _;
  CreateBackdrop := RoomLayout.CreateBackdrop;
  PlaceMesh := RoomLayout.PlaceMesh
|}.

Section Scene.
Context {F : Type} `{Float64 F} `{GoMath F}.
Local Open Scope f64_scope.

(** What [RandomScene] calls and [scene.go] does not define. *)
(** [RandomizeMaterial], defined in another file of the package. *)
Variable Ext : Type.
Variable RandomizeMaterial : Mesh.t F -> list string -> M F Ext.
(** [os.Open] followed by [model3d.ReadOFF]: the triangles stored under a
    path, if the file is there and well-formed. *)
Variable ReadOFF : string -> option (list (Triangle.t F)).
(** [model3d.NewCoord3DRandUnit] and the [MulColumn] of
    [model3d.NewMatrix3Rotation]. *)
Variable NewCoord3DRandUnit : M F (Coord3D.t F).
Variable NewMatrix3Rotation : Coord3D.t F -> F -> Coord3D.t F -> Coord3D.t F.
(** The order in which [mesh.Iterate] enumerates the backdrop box. *)
Variable backdrop_order : RoomLayout.t F -> list (Triangle.t F).

(** [RandomSceneLayout] *)
Definition RandomSceneLayout : M F (RoomLayout.t F) :=
  w <- rand_Float64 ;;
  d <- rand_Float64 ;;
  ret (RoomLayout.mk (w * flit 2 1 + flit 5 10) (d * flit 20 1 + flit 5 1)).

(** [essentials.Must] on the result of a call. *)
Definition Must {A : Type} (r : option A) : M F A :=
  match r with
  | Some a => ret a
  | None => panic "essentials.Must"
  end.

(** A Go [for] loop with [n] rounds over the state [S]. *)
Fixpoint repeatM {S : Type} (n : nat) (body : S -> M F S) (s : S) : M F S :=
  match n with
  | O => ret s
  | Datatypes.S n' => s' <- body s ;; repeatM n' body s'
  end.

(** A Go [for ... range] loop over a slice. *)
Fixpoint rangeM {A S : Type} (l : list A) (body : S -> A -> M F S) (s : S)
    : M F S :=
  match l with
  | [] => ret s
  | a :: l' => s' <- body s a ;; rangeM l' body s'
  end.

(** The body of the first loop of [RandomScene]: one wall. *)
Definition add_wall (images : list string) (objects : list (Object F Ext))
    (wall : Mesh.t F) : M F (list (Object F Ext)) :=
  o <- RandomizeMaterial wall images ;;
  ret (objects ++ [External o]).

(** The body of the second loop of [RandomScene]: one model. *)
Definition add_object (layout : RoomLayout.t F) (models images : list string)
    (objects : list (Object F Ext)) : M F (list (Object F Ext)) :=
  i <- rand_Intn (Z.of_nat (List.length models)) ;;
  path <- Must (nth_error models (Z.to_nat i)) ;;
  tris <- Must (ReadOFF path) ;;
  let mesh := Mesh.NewMeshTriangles tris in
  axis <- NewCoord3DRandUnit ;;
  a <- rand_Float64 ;;
  let rotation := NewMatrix3Rotation axis (a * math_Pi * flit 2 1) in
  let mesh := Mesh.MapCoords rotation mesh in
  mesh <- PlaceMesh layout mesh ;;
  o <- RandomizeMaterial mesh images ;;
  ret (objects ++ [External o]).

(** What the third loop of [RandomScene] updates. *)
Record lights_state : Type := {
  objects : list (Object F Ext);
  focusPoints : list (SphereFocusPoint F);
  focusProbs : list F
}.

(** The body of the third loop of [RandomScene]: one light. *)
Definition add_light (layout : RoomLayout.t F) (numLights : Z)
    (st : lights_state) : M F lights_state :=
  light <- CreateLight layout ;;
  match light with
  | ColliderObject shape _ =>
      let min := Collider_Min shape in
      let max := Collider_Max shape in
      ret {| objects := objects st ++ [light];
             focusPoints := focusPoints st ++
               [{| Center := Coord3D.Mid min max;
                   Radius := Coord3D.Dist min max / flit 2 1 |}];
             focusProbs := focusProbs st ++
               [flit 3 10 / of_int numLights] |}
  | External _ => panic "light without bounds"
  end.

(** [RandomScene] *)
Definition RandomScene (models images : list string)
    : M F (list (Object F Ext) * RecursiveRayTracer F) :=
  layout <- RandomSceneLayout ;;
  n <- rand_Intn 10 ;;
  let numObjects := (n + 1)%Z in
  n <- rand_Intn 5 ;;
  let numLights := (n + 1)%Z in
  walls <- (fun s => match CreateBackdrop layout (backdrop_order layout) with
                     | Ok ws => Ok (ws, s)
                     | Panic msg => Panic msg
                     end) ;;
  objs <- rangeM walls (add_wall images) [] ;;
  objs <- repeatM (Z.to_nat numObjects) (add_object layout models images)
                  objs ;;
  st <- repeatM (Z.to_nat numLights) (add_light layout numLights)
                {| objects := objs; focusPoints := []; focusProbs := [] |} ;;
  let '(origin, target) := CameraInfo layout in
  f <- rand_Float64 ;;
  let fov := (f * flit 5 10 + flit 5 10) * math_Pi / flit 3 1 in
  ret (objects st,
       {| TracerCamera := NewCameraAt origin target fov;
          FocusPoints := focusPoints st;
          FocusPointProbs := focusProbs st |}).

End Scene.

Section Exposure.
Context {F : Type} `{Float64 F}.
Local Open Scope f64_scope.

(** [quantileBrightness] *)
Definition quantileBrightness (img : Image.t F) : Result F :=
  let bs := List.map (fun c => Coord3D.Sum c / flit 3 1) (Image.Data img) in
  let bs := sort_Float64s bs in
  slice_index bs (to_int (of_int (Z.of_nat (List.length bs)) * flit 8 10)).

(** The local [target] of [BrightnessScale], for the answer [n] of
    [rand.NormFloat64()]. *)
Definition target_of (n : F) : F :=
  math_Min (flit 9 10) (math_Max (flit 1 10) (n * flit 1 10 + flit 3 10)).

(** [BrightnessScale] *)
Definition BrightnessScale (img : Image.t F) : M F F :=
  n <- rand_NormFloat64 ;;
  let target := target_of n in
  fun s =>
    match quantileBrightness img with
    | Panic msg => Panic msg
    | Ok q =>
        let median := math_Max (flit 1 100000) q in
        Ok (math_Max (flit 1 1) (target / median), s)
    end.

End Exposure.

(* ================================================================== *)
(** * polish/nn/simple_ops.go *)
(* ================================================================== *)

Module nn.

(** Modelled from the spec: [type Tensor] and [NewTensor], defined in
    another file of package nn ("the tiny fixed-function tensor layers"):
    the three dimensions and the elements, [NewTensor] making a slice of
    [height*width*depth] zeros, the product taken on [int]. *)
Record Tensor (F : Type) : Type := mkTensor {
  Height : Z;
  Width : Z;
  Depth : Z;
  Data : list F
}.
Arguments mkTensor {F} Height Width Depth Data.

Section Ops.
Context {F : Type} `{Float64 F}.

(** [NewTensor]: [make([]float64, height*width*depth)] panics on a
    negative length; for every other length the model has the memory. *)
Definition NewTensor (height width depth : Z) : Result (Tensor F) :=
  let n := int_mul (int_mul height width) depth in
  if (n <? 0)%Z then Panic "makeslice: len out of range"
  else Ok (mkTensor height width depth (repeat fzero (Z.to_nat n))).

(** [res[i] = x]: an assignment to a slice element panics outside the
    slice. *)
Fixpoint set_index (res : list F) (i : nat) (x : F) : Result (list F) :=
  match res, i with
  | [], _ => Panic "index out of range"
  | _ :: res', O => Ok (x :: res')
  | y :: res', S i' =>
      match set_index res' i' x with
      | Ok r => Ok (y :: r)
      | Panic msg => Panic msg
      end
  end.

(** The loop of [ReLU.Apply], from index [i] on, over the rest [data] of
    [t.Data]. *)
Fixpoint relu_loop (i : nat) (data : list F) (res : list F)
    : Result (list F) :=
  match data with
  | [] => Ok res
  | x :: rest =>
      if fgt x fzero
      then match set_index res i x with
           | Ok res' => relu_loop (S i) rest res'
           | Panic msg => Panic msg
           end
      else relu_loop (S i) rest res
  end.

(** [ReLU.Apply], from the contents of [t] to the contents of the
    result. *)
Definition ReLU_Apply (t : Tensor F) : Result (Tensor F) :=
  match NewTensor (Height t) (Width t) (Depth t) with
  | Panic msg => Panic msg
  | Ok res =>
      match relu_loop 0 (Data t) (Data res) with
      | Panic msg => Panic msg
      | Ok d => Ok (mkTensor (Height res) (Width res) (Depth res) d)
      end
  end.

(** [ReLU.Apply] takes and returns pointers, and [Data] is a slice: what
    is assigned to an element of the slice of a tensor is seen by
    everyone who holds that tensor.  A memory holds the tensors that
    exist, each at its address, which is its index in the list. *)
Definition Memory : Type := list (Tensor F).

(** [*p]: a pointer to no tensor panics. *)
Definition load (m : Memory) (p : nat) : Result (Tensor F) :=
  match nth_error m p with
  | Some t => Ok t
  | None => Panic "invalid memory address or nil pointer dereference"
  end.

(** [NewTensor] in memory: the new tensor gets an address that is not in
    use. *)
Definition NewTensor_at (height width depth : Z) (m : Memory)
    : Result (nat * Memory) :=
  match NewTensor height width depth with
  | Ok res => Ok (List.length m, m ++ [res])
  | Panic msg => Panic msg
  end.

(** [q.Data[i] = x] *)
Definition store_Data (m : Memory) (q i : nat) (x : F) : Result Memory :=
  match nth_error m q with
  | None => Panic "invalid memory address or nil pointer dereference"
  | Some res =>
      match set_index (Data res) i x with
      | Ok d =>
          Ok (firstn q m
              ++ mkTensor (Height res) (Width res) (Depth res) d
                 :: skipn (S q) m)
      | Panic msg => Panic msg
      end
  end.

(** The loop of [ReLU.Apply] in memory, with [n] rounds to go from index
    [i] on: [range] has fixed the length of [t.Data] before the first
    round, and each round reads its element from memory. *)
Fixpoint relu_loop_at (n i p q : nat) (m : Memory) : Result Memory :=
  match n with
  | O => Ok m
  | S n' =>
      match load m p with
      | Panic msg => Panic msg
      | Ok t =>
          match nth_error (Data t) i with
          | None => Panic "index out of range"
          | Some x =>
              if fgt x fzero
              then match store_Data m q i x with
                   | Ok m' => relu_loop_at n' (S i) p q m'
                   | Panic msg => Panic msg
                   end
              else relu_loop_at n' (S i) p q m
          end
      end
  end.

(** [ReLU.Apply] in memory, from the address of [t] to the address of the
    result. *)
Definition ReLU_Apply_at (p : nat) (m : Memory) : Result (nat * Memory) :=
  match load m p with
  | Panic msg => Panic msg
  | Ok t =>
      match NewTensor_at (Height t) (Width t) (Depth t) m with
      | Panic msg => Panic msg
      | Ok (q, m1) =>
          match relu_loop_at (List.length (Data t)) 0 p q m1 with
          | Panic msg => Panic msg
          | Ok m2 => Ok (q, m2)
          end
      end
  end.

End Ops.
End nn.

(* ================================================================== *)
(** * Sample inputs *)
(* ================================================================== *)

(** The float64 constants of the binary64 instance. *)
Definition f64 (n : Z) (d : positive) : float := flit n d.

(** A source that answers every [Float64] with [u]. *)
Definition constant_source {F : Type} `{Float64 F} (u : F) : Source F :=
  {| float_draws := fun _ => u; int_draws := fun _ => 0%Z;
     norm_draws := fun _ => fzero; cursor := 0 |}.

(** A triangle whose bounding box is the cube from (a,a,a) to (b,b,b). *)
Definition corner_triangle {F : Type} (a b : F) : Triangle.t F :=
  (Coord3D.mk a a a, Coord3D.mk b a a, Coord3D.mk a b b).

(** A flat triangle: no extent on the Z axis. *)
Definition flat_triangle {F : Type} `{Float64 F} : Triangle.t F :=
  (Coord3D.mk fzero fzero fzero,
   Coord3D.mk (flit 2 1) fzero fzero,
   Coord3D.mk fzero (flit 2 1) fzero).

(** The room of width 1 and depth 10. *)
Definition room_1_10 : RoomLayout.t Qc :=
  RoomLayout.mk (exact.lit 1 1) (exact.lit 10 1).

(** A mesh of positive extent on every axis, with bounding box
    (100,100,100)-(102,102,102), in exact arithmetic and in binary64. *)
Definition far_mesh : Mesh.t Qc :=
  [corner_triangle (exact.lit 100 1) (exact.lit 102 1)].
Definition far_mesh_binary64 : Mesh.t float :=
  [corner_triangle (f64 100 1) (f64 102 1)].

(** A mesh with bounding box (0,0,0)-(2,2,2) and the corner (1,4,1). *)
Definition mesh_0_2 : Mesh.t Qc :=
  [corner_triangle (Q2Qc 0) (exact.lit 2 1)].
Definition box_1_4_1 : Coord3D.t Qc :=
  Coord3D.mk (Q2Qc 1) (exact.lit 4 1) (Q2Qc 1).

(** The image of [n] pixels, all of the gray value [v]. *)
Definition gray_image {F : Type} (v : F) (n : nat) : Image.t F :=
  Image.mk (repeat (Coord3D.mk v v v) n).

(** The brightness of a pixel, as [quantileBrightness] computes it. *)
Definition brightness {F : Type} `{Float64 F} (c : Coord3D.t F) : F :=
  fdiv (Coord3D.Sum c) (flit 3 1).

(** The rectified linear unit on one element, as the loop of
    [ReLU.Apply] computes it: [x] if [x > 0], else the zero [NewTensor]
    put there. *)
Definition relu {F : Type} `{Float64 F} (x : F) : F :=
  if fgt x fzero then x else fzero.

(** The invariant of a tensor: [Data] holds [Height*Width*Depth]
    elements, the product taken on [int], as [NewTensor] sets it up. *)
Definition well_formed {F : Type} (t : nn.Tensor F) : Prop :=
  (0 <= int_mul (int_mul (nn.Height t) (nn.Width t)) (nn.Depth t))%Z /\
  List.length (nn.Data t)
    = Z.to_nat (int_mul (int_mul (nn.Height t) (nn.Width t)) (nn.Depth t)).

(** The sum of a list of exact numbers, and the exact sum of the
    rationals that a list of float64 stand for. *)
Definition Qc_sum (l : list Qc) : Qc := fold_right Qcplus (Q2Qc 0) l.
Definition binary64_sum (l : list float) : Q :=
  fold_right (fun x acc => Qplus (binary64.to_Q x) acc) 0%Q l.

(** The focus probabilities [RandomScene] emits for [numLights] lights. *)
Definition focus_probs {F : Type} `{Float64 F} (numLights : Z) : list F :=
  repeat (fdiv (flit 3 10) (of_int numLights)) (Z.to_nat numLights).

(** A source for a run of [RandomScene] in binary64: every [Float64]
    answer is 0.5, the [i]-th draw of [Intn] is [i]. *)
Definition counting_source : Source float :=
  {| float_draws := fun _ => f64 1 2; int_draws := fun i => Z.of_nat i;
     norm_draws := fun _ => f64 0 1; cursor := 0 |}.

(* ================================================================== *)
(** * The corners of a box, by index *)
(* ================================================================== *)

(** The triangles of a box do not depend on its size: a corner is named
    by three bits, [false] for the side of [min] and [true] for the side
    of [max].  The properties of [CreateBackdrop] are computed on these
    names and carried over to the coordinates. *)

(** The box of indices: the corner (i,j,k) is at (i,j,k). *)
Definition cube : Mesh.t bool :=
  Mesh.NewMeshRect (Coord3D.mk false false false) (Coord3D.mk true true true).

(** The corner of the box from [min] to [max] that an index names. *)
Definition place {F : Type} (min max : Coord3D.t F) (c : Coord3D.t bool)
    : Coord3D.t F :=
  Coord3D.mk (Coord3D.X (if Coord3D.X c then max else min))
             (Coord3D.Y (if Coord3D.Y c then max else min))
             (Coord3D.Z (if Coord3D.Z c then max else min)).

Definition place_triangle {F : Type} (min max : Coord3D.t F)
    (s : Triangle.t bool) : Triangle.t F :=
  let '(a, b, c) := s in (place min max a, place min max b, place min max c).

(** [==] on indices, and the adjacency test of [Mesh.Neighbors] on
    triangles of indices. *)
Definition index_eqb (c c' : Coord3D.t bool) : bool :=
  Bool.eqb (Coord3D.X c) (Coord3D.X c')
  && Bool.eqb (Coord3D.Y c) (Coord3D.Y c')
  && Bool.eqb (Coord3D.Z c) (Coord3D.Z c').

Definition index_triangle_eqb (s s' : Triangle.t bool) : bool :=
  let '(a, b, c) := s in
  let '(a', b', c') := s' in
  index_eqb a a' && index_eqb b b' && index_eqb c c'.

Definition index_shared (s s' : Triangle.t bool) : nat :=
  List.length
    (filter (fun p => existsb (index_eqb p) (Triangle.corners s'))
            (Triangle.corners s)).

Definition index_adjacent (s s' : Triangle.t bool) : bool :=
  negb (index_triangle_eqb s' s) && (2 <=? index_shared s s')%nat.

(** The normal of a triangle of the box, whatever the size of the box:
    the cross product of its edges in the box from (0,0,0) to (1,1,1),
    where the edges have length 1. *)
Definition index_normal (s : Triangle.t bool) : Coord3D.t Qc :=
  let '(p0, p1, p2) :=
    place_triangle (Coord3D.mk (Q2Qc 0) (Q2Qc 0) (Q2Qc 0))
                   (Coord3D.mk (Q2Qc 1) (Q2Qc 1) (Q2Qc 1)) s in
  let a := Coord3D.Sub p1 p0 in
  let b := Coord3D.Sub p2 p0 in
  Coord3D.mk
    (Coord3D.Y a * Coord3D.Z b - Coord3D.Z a * Coord3D.Y b)%Qc
    (Coord3D.Z a * Coord3D.X b - Coord3D.X a * Coord3D.Z b)%Qc
    (Coord3D.X a * Coord3D.Y b - Coord3D.Y a * Coord3D.X b)%Qc.

Definition index_coplanar (s s' : Triangle.t bool) : bool :=
  fgt (Coord3D.Dot (index_normal s') (index_normal s)) (flit 99 100).

(** The other triangle of the face: [NewMeshRect] lists the two triangles
    of a face one after the other. *)
Fixpoint pair_partner {F : Type} `{Float64 F} (l : Mesh.t F)
    (t : Triangle.t F) : Triangle.t F :=
  match l with
  | a :: b :: rest =>
      if Triangle.eqb t a then b
      else if Triangle.eqb t b then a
      else pair_partner rest t
  | _ => t
  end.

Fixpoint index_pair_partner (l : Mesh.t bool) (s : Triangle.t bool)
    : Triangle.t bool :=
  match l with
  | a :: b :: rest =>
      if index_triangle_eqb s a then b
      else if index_triangle_eqb s b then a
      else index_pair_partner rest s
  | _ => s
  end.

(** A part [m] of the mesh [B] that holds, with each of its triangles,
    the partner of that triangle: what the mesh of [CreateBackdrop] is
    between two rounds of its loop. *)
Definition closed_part {F : Type} (B : Mesh.t F)
    (partner : Triangle.t F -> Triangle.t F) (m : Mesh.t F) : Prop :=
  NoDup m /\ incl m B /\ forall t, In t m -> In (partner t) m.

(* ================================================================== *)
(** * Predicates of the further properties *)
(* ================================================================== *)

(** A call that takes its random numbers from the process-wide source
    leaves the answers of the source as they are; it only moves the
    cursor. *)
Definition keeps_draws {F A : Type} (m : M F A) : Prop :=
  forall s a s', m s = Ok (a, s') -> float_draws s' = float_draws s.

(* ================================================================== *)
(** * Properties *)
(* ================================================================== *)

(** ** Exact arithmetic: reading the interface at [Qc] *)

Local Open Scope Qc_scope.

(** Unfolds the interface at the exact instance. *)
Ltac exact_ops :=
  cbv [fadd fsub fmul fdiv fneg flt feq flit of_int to_int math_Min math_Max
       exact.ops fzero fgt fle] in *.

(** Turns a statement on [Qc] into one on [Q], where [lra] and [field]
    work. *)
Ltac to_Q :=
  unfold exact.lit, Qcdiv, Qcminus, Qcinv, Qcopp, Qcmult, Qcplus, Qcle, Qclt
    in *;
  cbn [this Q2Qc] in *;
  rewrite ?Qred_correct in *;
  repeat match goal with
         | |- context [Qinv (Qmake ?n ?d)] =>
             let v := eval vm_compute in (Qinv (Qmake n d)) in
             change (Qinv (Qmake n d)) with v
         | H : context [Qinv (Qmake ?n ?d)] |- _ =>
             let v := eval vm_compute in (Qinv (Qmake n d)) in
             change (Qinv (Qmake n d)) with v in H
         end.

Lemma exact_ltb_lt (x y : Qc) : exact.ltb x y = true <-> x < y.
Proof.
  unfold exact.ltb, Qclt, Qccompare. rewrite Qlt_alt.
  destruct (x ?= y)%Q; split; congruence.
Qed.

Lemma exact_ltb_ge (x y : Qc) : exact.ltb x y = false <-> y <= x.
Proof.
  unfold exact.ltb, Qcle, Qccompare. rewrite Qle_alt.
  rewrite <- (Qcompare_antisym x y).
  destruct (x ?= y)%Q; cbn; split; congruence.
Qed.

Lemma Qc_eq_bool_true (x y : Qc) : Qc_eq_bool x y = true <-> x = y.
Proof.
  split; [apply Qc_eq_bool_correct | intros ->].
  unfold Qc_eq_bool. destruct (Qc_eq_dec y y); congruence.
Qed.

Lemma Qc_eq_bool_false (x y : Qc) : Qc_eq_bool x y = false <-> x <> y.
Proof.
  unfold Qc_eq_bool. destruct (Qc_eq_dec x y); split; congruence.
Qed.

Lemma exact_Min_le_l (x y : Qc) : exact.Min x y <= x.
Proof.
  unfold exact.Min. destruct (exact.ltb x y) eqn:E.
  - apply Qcle_refl.
  - now apply exact_ltb_ge.
Qed.

Lemma exact_Min_le_r (x y : Qc) : exact.Min x y <= y.
Proof.
  unfold exact.Min. destruct (exact.ltb x y) eqn:E.
  - apply Qclt_le_weak. now apply exact_ltb_lt.
  - apply Qcle_refl.
Qed.

Lemma exact_Min_cases (x y : Qc) : exact.Min x y = x \/ exact.Min x y = y.
Proof. unfold exact.Min. destruct (exact.ltb x y); auto. Qed.

Lemma exact_Max_ge_l (x y : Qc) : x <= exact.Max x y.
Proof.
  unfold exact.Max. destruct (exact.ltb y x) eqn:E.
  - apply Qcle_refl.
  - now apply exact_ltb_ge.
Qed.

Lemma exact_Max_ge_r (x y : Qc) : y <= exact.Max x y.
Proof.
  unfold exact.Max. destruct (exact.ltb y x) eqn:E.
  - apply Qclt_le_weak. now apply exact_ltb_lt.
  - apply Qcle_refl.
Qed.

Lemma exact_Max_cases (x y : Qc) : exact.Max x y = x \/ exact.Max x y = y.
Proof. unfold exact.Max. destruct (exact.ltb y x); auto. Qed.

(** Equality of two closed rationals, and of two rational expressions. *)
Ltac qc_compute := apply Qc_is_canon; vm_compute; reflexivity.
Ltac qc_field := apply Qc_is_canon; to_Q; field.

Lemma Qc_eq_Qeq (x y : Qc) : x = y -> (x == y)%Q.
Proof. intros ->. reflexivity. Qed.

Lemma Coord3D_eq {F : Type} (x y z x' y' z' : F) :
  x = x' -> y = y' -> z = z' -> Coord3D.mk x y z = Coord3D.mk x' y' z'.
Proof. congruence. Qed.

(** ** CameraInfo *)

(** C7, as stated, fails: a room of depth 1e-5 has Width > 0 and
    Depth > 0, and its camera position and target coincide, in exact
    arithmetic and in binary64 alike (-Depth/2 + 1e-5 = Depth/2). *)
Lemma CameraInfo_coincide_at_depth_epsilon :
  (let r := RoomLayout.mk (exact.lit 1 1) (exact.lit 1 100000) in
   0 < RoomLayout.Width r /\ 0 < RoomLayout.Depth r /\
   fst (RoomLayout.CameraInfo r) = snd (RoomLayout.CameraInfo r))
  /\
  (let r := RoomLayout.mk (f64 1 1) (f64 1 100000) in
   flt fzero (RoomLayout.Width r) = true /\
   flt fzero (RoomLayout.Depth r) = true /\
   fst (RoomLayout.CameraInfo r) = snd (RoomLayout.CameraInfo r)).
Proof.
  split; cbv zeta.
  - split; [reflexivity | split; [reflexivity |]].
    unfold RoomLayout.CameraInfo; cbn [fst snd RoomLayout.Depth].
    apply Coord3D_eq; try reflexivity. qc_compute.
  - split; [reflexivity | split; [reflexivity |]].
    vm_compute. reflexivity.
Qed.

(** C7, amended: CameraInfo returns position (0, -Depth/2 + 1e-5, 0.5) and
    target (0, Depth/2, 0.5); for Width = 1 and Depth = 10 these are
    (0, -5 + 1e-5, 0.5) and (0, 5, 0.5); position and target differ
    whenever Depth is not 1e-5. *)
Theorem CameraInfo_position_target (r : RoomLayout.t Qc) :
  RoomLayout.Depth r <> exact.lit 1 100000 ->
  RoomLayout.CameraInfo r =
    (Coord3D.mk 0 (- RoomLayout.Depth r / exact.lit 2 1 + exact.lit 1 100000)
                (exact.lit 1 2),
     Coord3D.mk 0 (RoomLayout.Depth r / exact.lit 2 1) (exact.lit 1 2))
  /\ RoomLayout.CameraInfo (RoomLayout.mk (exact.lit 1 1) (exact.lit 10 1)) =
    (Coord3D.mk 0 (- exact.lit 5 1 + exact.lit 1 100000) (exact.lit 1 2),
     Coord3D.mk 0 (exact.lit 5 1) (exact.lit 1 2))
  /\ fst (RoomLayout.CameraInfo r) <> snd (RoomLayout.CameraInfo r).
Proof.
  intros Hd. unfold RoomLayout.CameraInfo. cbn [RoomLayout.Depth fst snd].
  exact_ops. repeat split.
  - f_equal; apply Coord3D_eq; try reflexivity; qc_compute.
  - f_equal; apply Coord3D_eq; try reflexivity; qc_compute.
  - intros E. apply Hd. apply (f_equal (@Coord3D.Y Qc)) in E.
    cbn [Coord3D.Y] in E. apply Qc_is_canon. apply Qc_eq_Qeq in E.
    to_Q. lra.
Qed.

Lemma CameraInfo_position_target_witness :
  fst (RoomLayout.CameraInfo (RoomLayout.mk (exact.lit 1 1) (exact.lit 10 1)))
  <> snd (RoomLayout.CameraInfo
            (RoomLayout.mk (exact.lit 1 1) (exact.lit 10 1))).
Proof.
  apply (CameraInfo_position_target
           (RoomLayout.mk (exact.lit 1 1) (exact.lit 10 1))).
  cbn [RoomLayout.Depth]. intros E. discriminate (f_equal this E).
Defined.

(** In binary64 the camera of the room of width 1 and depth 10 is at
    (0, -5 + 1e-5, 0.5) and looks at (0, 5, 0.5). *)
Lemma CameraInfo_binary64_1_10 :
  RoomLayout.CameraInfo (RoomLayout.mk (f64 1 1) (f64 10 1)) =
    (Coord3D.mk (f64 0 1) (PrimFloat.add (f64 (-5) 1) (f64 1 100000))
                (f64 1 2),
     Coord3D.mk (f64 0 1) (f64 5 1) (f64 1 2)).
Proof. vm_compute. reflexivity. Qed.

(** ** PlaceMesh: the placement box *)

(** C2, as stated, fails: for the room of width 1 and depth 10 the
    [placeMin] that PlaceMesh passes on is (-0.5, 0, 0), not
    (-0.5, -5, 0), in exact arithmetic and in binary64 alike. *)
Lemma placeMin_is_not_backdrop_min :
  (let r := RoomLayout.mk (exact.lit 1 1) (exact.lit 10 1) in
   0 < RoomLayout.Width r /\ 0 < RoomLayout.Depth r /\
   RoomLayout.placeMin r = Coord3D.mk (exact.lit (-1) 2) 0 0 /\
   RoomLayout.placeMin r <>
     Coord3D.mk (- RoomLayout.Width r / exact.lit 2 1)
                (- RoomLayout.Depth r / exact.lit 2 1) 0)
  /\
  (let r := RoomLayout.mk (f64 1 1) (f64 10 1) in
   RoomLayout.placeMin r = Coord3D.mk (f64 (-1) 2) (f64 0 1) (f64 0 1) /\
   Coord3D.eqb (RoomLayout.placeMin r)
     (Coord3D.mk (f64 (-1) 2) (f64 (-5) 1) (f64 0 1)) = false).
Proof.
  split; cbv zeta.
  - split; [reflexivity | split; [reflexivity | split]].
    + unfold RoomLayout.placeMin. cbn [RoomLayout.Width].
      apply Coord3D_eq; (reflexivity || qc_compute).
    + intros E. apply (f_equal (@Coord3D.Y Qc)) in E.
      discriminate (f_equal this E).
  - split; vm_compute; reflexivity.
Qed.

(** C2, amended: PlaceMesh fits the mesh into the box from
    (-Width/2, 0, 0) to (Width/2, Depth/2, 1): the placeMin argument
    passed to the placement step is (-Width/2, 0, 0), so the box is the
    half of the floor footprint with Y >= 0, at full height. *)
Theorem PlaceMesh_placement_box {F : Type} `{Float64 F}
    (r : RoomLayout.t F) (m : Mesh.t F) :
  RoomLayout.placeMin r =
    Coord3D.mk (fdiv (fneg (RoomLayout.Width r)) (flit 2 1)) fzero fzero
  /\ RoomLayout.placeMax r =
    Coord3D.mk (fdiv (RoomLayout.Width r) (flit 2 1))
               (fdiv (RoomLayout.Depth r) (flit 2 1)) (flit 1 1)
  /\ RoomLayout.PlaceMesh r m =
    placeInBounds
      (Coord3D.mk (fdiv (fneg (RoomLayout.Width r)) (flit 2 1)) fzero fzero)
      (Coord3D.mk (fdiv (RoomLayout.Width r) (flit 2 1))
                  (fdiv (RoomLayout.Depth r) (flit 2 1)) (flit 1 1))
      m.
Proof. repeat split. Qed.

(** ** placeInBounds: the scale *)

(** How [placeInBounds] unfolds on a source: four draws, the first for the
    scale, the next three for the translation. *)
Lemma placeInBounds_unfold {F : Type} `{Float64 F}
    (placeMin placeMax : Coord3D.t F) (m : Mesh.t F) (s : Source F) :
  let u := float_draws s (cursor s) in
  let r := Coord3D.mk (float_draws s (S (cursor s)))
                      (float_draws s (S (S (cursor s))))
                      (float_draws s (S (S (S (cursor s))))) in
  let m' := Mesh.Scale m (scale_of u (maxScale placeMin placeMax m)) in
  placeInBounds placeMin placeMax m s =
    Ok (Mesh.MapCoords (Coord3D.Add (translate_of placeMin placeMax m' r)) m',
        advance (advance (advance (advance s)))).
Proof. reflexivity. Qed.

Lemma Qc_div_pos (a b : Qc) : 0 < a -> 0 < b -> 0 < a / b.
Proof.
  intros Ha Hb. to_Q. apply Qlt_shift_div_l; [assumption | lra].
Qed.

Lemma scale_of_bounds (u ms : Qc) :
  0 <= u -> u < 1 -> 0 <= ms ->
  exact.lit 1 10 * ms <= scale_of u ms /\ scale_of u ms <= 1 * ms.
Proof.
  intros Hu0 Hu1 Hms. unfold scale_of. exact_ops. to_Q. split; nra.
Qed.

(** C6, as stated, fails: positive extents are not enough.  In binary64
    the mesh and the box from -2^1023 to 2^1023 on every axis have the
    extent +Inf, which is positive, on every axis; the three ratios are
    Inf/Inf = NaN, and maxScale and the scale are NaN, not the least of
    three numbers and not in any range. *)
Lemma placeInBounds_scale_infinite_extent :
  let big := 0x1p1023%float in
  let m : Mesh.t float := [corner_triangle (PrimFloat.opp big) big] in
  let box_min :=
    Coord3D.mk (PrimFloat.opp big) (PrimFloat.opp big) (PrimFloat.opp big) in
  let box_max := Coord3D.mk big big big in
  let diff := Coord3D.Sub (Mesh.Max m) (Mesh.Min m) in
  let pDiff := Coord3D.Sub box_max box_min in
  let ms := maxScale box_min box_max m in
  (flt fzero (Coord3D.X diff) = true /\ flt fzero (Coord3D.Y diff) = true
   /\ flt fzero (Coord3D.Z diff) = true)
  /\ (flt fzero (Coord3D.X pDiff) = true /\ flt fzero (Coord3D.Y pDiff) = true
      /\ flt fzero (Coord3D.Z pDiff) = true)
  /\ IsNaN ms = true
  /\ IsNaN (scale_of (f64 1 2) ms) = true
  /\ fle ms (fdiv (Coord3D.X pDiff) (Coord3D.X diff)) = false
  /\ fle (fmul (f64 1 10) ms) (scale_of (f64 1 2) ms) = false.
Proof. cbv zeta. repeat split; vm_compute; reflexivity. Qed.

(** C6, amended: for a mesh of positive and finite extent on every axis
    (at most MaxFloat64) and a target box of positive extent on every
    axis, maxScale is the least of the three ratios targetDiff/meshDiff,
    and the scale placeInBounds uses, for an answer u in [0,1) of the
    random source, lies between 0.1 * maxScale and 1.0 * maxScale; a
    mesh with bounding box [0,0,0]-[2,2,2] placed into [0,0,0]-[1,4,1]
    has maxScale 0.5 and a scale between 0.05 and 0.5.  The bound on the
    extent of the mesh plays no part in exact arithmetic; it is what the
    statement needs to hold of float64 as well. *)
Theorem placeInBounds_scale (placeMin placeMax : Coord3D.t Qc)
    (m : Mesh.t Qc) (s : Source Qc) :
  let diff := Coord3D.Sub (Mesh.Max m) (Mesh.Min m) in
  let pDiff := Coord3D.Sub placeMax placeMin in
  let u := float_draws s (cursor s) in
  let ms := maxScale placeMin placeMax m in
  0 < Coord3D.X diff -> 0 < Coord3D.Y diff -> 0 < Coord3D.Z diff ->
  Coord3D.X diff <= exact.MaxFloat64 ->
  Coord3D.Y diff <= exact.MaxFloat64 ->
  Coord3D.Z diff <= exact.MaxFloat64 ->
  0 < Coord3D.X pDiff -> 0 < Coord3D.Y pDiff -> 0 < Coord3D.Z pDiff ->
  0 <= u -> u < 1 ->
  (ms <= Coord3D.X pDiff / Coord3D.X diff /\
   ms <= Coord3D.Y pDiff / Coord3D.Y diff /\
   ms <= Coord3D.Z pDiff / Coord3D.Z diff /\
   (ms = Coord3D.X pDiff / Coord3D.X diff \/
    ms = Coord3D.Y pDiff / Coord3D.Y diff \/
    ms = Coord3D.Z pDiff / Coord3D.Z diff))
  /\ (exact.lit 1 10 * ms <= scale_of u ms /\ scale_of u ms <= 1 * ms)
  /\ (exists r s',
        placeInBounds placeMin placeMax m s =
          Ok (Mesh.MapCoords
                (Coord3D.Add
                   (translate_of placeMin placeMax
                      (Mesh.Scale m (scale_of u ms)) r))
                (Mesh.Scale m (scale_of u ms)), s'))
  /\ (forall m' : Mesh.t Qc,
        Mesh.Min m' = Coord3D.mk 0 0 0 ->
        Mesh.Max m' =
          Coord3D.mk (exact.lit 2 1) (exact.lit 2 1) (exact.lit 2 1) ->
        let box_min := Coord3D.mk 0 0 0 in
        let box_max := Coord3D.mk 1 (exact.lit 4 1) 1 in
        maxScale box_min box_max m' = exact.lit 1 2 /\
        exact.lit 1 20 <= scale_of u (maxScale box_min box_max m') /\
        scale_of u (maxScale box_min box_max m') <= exact.lit 1 2).
Proof.
  intros diff pDiff u ms Hx Hy Hz _ _ _ Hpx Hpy Hpz Hu0 Hu1.
  assert (Hms : ms = exact.Min (Coord3D.X pDiff / Coord3D.X diff)
                  (exact.Min (Coord3D.Y pDiff / Coord3D.Y diff)
                             (Coord3D.Z pDiff / Coord3D.Z diff)))
    by reflexivity.
  pose proof (Qc_div_pos Hpx Hx) as Hax.
  pose proof (Qc_div_pos Hpy Hy) as Hay.
  pose proof (Qc_div_pos Hpz Hz) as Haz.
  set (a := Coord3D.X pDiff / Coord3D.X diff) in *.
  set (b := Coord3D.Y pDiff / Coord3D.Y diff) in *.
  set (c := Coord3D.Z pDiff / Coord3D.Z diff) in *.
  assert (H0 : 0 <= ms).
  { rewrite Hms. apply Qclt_le_weak.
    destruct (exact_Min_cases a (exact.Min b c)) as [-> | ->]; auto.
    destruct (exact_Min_cases b c) as [-> | ->]; auto. }
  split; [| split; [| split]].
  - rewrite Hms. repeat split.
    + apply exact_Min_le_l.
    + eapply Qcle_trans; [apply exact_Min_le_r | apply exact_Min_le_l].
    + eapply Qcle_trans; [apply exact_Min_le_r | apply exact_Min_le_r].
    + destruct (exact_Min_cases a (exact.Min b c)) as [-> | ->]; auto.
      destruct (exact_Min_cases b c) as [-> | ->]; auto.
  - now apply scale_of_bounds.
  - eexists. eexists. apply placeInBounds_unfold.
  - intros m' Hmin Hmax box_min box_max.
    assert (E : maxScale box_min box_max m' = exact.lit 1 2).
    { unfold maxScale. rewrite Hmin, Hmax. qc_compute. }
    rewrite E. split; [reflexivity |].
    destruct (@scale_of_bounds u (exact.lit 1 2)) as [L U];
      [assumption | assumption | discriminate |].
    split.
    + replace (exact.lit 1 20) with (exact.lit 1 10 * exact.lit 1 2)
        by qc_compute. exact L.
    + replace (exact.lit 1 2) with (1 * exact.lit 1 2) at 2 by qc_compute.
      exact U.
Qed.

Lemma placeInBounds_scale_witness :
  maxScale Coord3D.zero box_1_4_1 mesh_0_2 = exact.lit 1 2 /\
  exact.lit 1 20
    <= scale_of (exact.lit 1 2) (maxScale Coord3D.zero box_1_4_1 mesh_0_2)
  /\ scale_of (exact.lit 1 2) (maxScale Coord3D.zero box_1_4_1 mesh_0_2)
    <= exact.lit 1 2.
Proof.
  destruct (@placeInBounds_scale Coord3D.zero box_1_4_1 mesh_0_2
              (constant_source (exact.lit 1 2)))
    as [_ [_ [_ Hex]]];
    try reflexivity; try (vm_compute; discriminate).
  apply (Hex mesh_0_2); reflexivity.
Defined.

(** The example of C6 in binary64: maxScale is 0.5; at the least answer 0
    of [rand.Float64()] the scale is 0.05, at the largest, 1 - 2^-53, it
    is between 0.05 and 0.5. *)
Lemma placeInBounds_scale_binary64 :
  let m : Mesh.t float := [corner_triangle (f64 0 1) (f64 2 1)] in
  let box_min := Coord3D.mk (f64 0 1) (f64 0 1) (f64 0 1) in
  let box_max := Coord3D.mk (f64 1 1) (f64 4 1) (f64 1 1) in
  let largest := PrimFloat.next_down (f64 1 1) in
  maxScale box_min box_max m = f64 1 2 /\
  scale_of (f64 0 1) (maxScale box_min box_max m) = f64 1 20 /\
  fle (f64 1 20) (scale_of largest (maxScale box_min box_max m)) = true /\
  fle (scale_of largest (maxScale box_min box_max m)) (f64 1 2) = true.
Proof. cbv zeta. repeat split; vm_compute; reflexivity. Qed.

(** ** Bounding boxes under scaling and translation *)

Lemma vertices_MapCoords {F : Type}
    (f : Coord3D.t F -> Coord3D.t F) (m : Mesh.t F) :
  Mesh.vertices (Mesh.MapCoords f m) = List.map f (Mesh.vertices m).
Proof.
  unfold Mesh.vertices, Mesh.MapCoords.
  induction m as [| [[a b] c] m IH]; cbn; [reflexivity |].
  now rewrite IH.
Qed.

Section BoundsUnderMaps.
Context {F : Type} `{Float64 F}.
Variable f : Coord3D.t F -> Coord3D.t F.

Lemma fold_left_hom (op : Coord3D.t F -> Coord3D.t F -> Coord3D.t F) :
  (forall a b, f (op a b) = op (f a) (f b)) ->
  forall cs c,
    fold_left (fun r c1 => op c1 r) (List.map f cs) (f c) =
    f (fold_left (fun r c1 => op c1 r) cs c).
Proof.
  intros Hf cs. induction cs as [| c1 cs IH]; intros c; cbn;
    [reflexivity |].
  rewrite <- Hf. apply IH.
Qed.

Lemma Mesh_Min_MapCoords (m : Mesh.t F) :
  (forall a b, f (Coord3D.Min a b) = Coord3D.Min (f a) (f b)) ->
  m <> [] ->
  Mesh.Min (Mesh.MapCoords f m) = f (Mesh.Min m).
Proof.
  intros Hf Hm. unfold Mesh.Min. rewrite vertices_MapCoords.
  destruct m as [| [[a b] c] m]; [congruence |]. cbn [Mesh.vertices flat_map
    Triangle.corners app List.map].
  exact (fold_left_hom Coord3D.Min Hf
           (b :: c :: flat_map Triangle.corners m) a).
Qed.

Lemma Mesh_Max_MapCoords (m : Mesh.t F) :
  (forall a b, f (Coord3D.Max a b) = Coord3D.Max (f a) (f b)) ->
  m <> [] ->
  Mesh.Max (Mesh.MapCoords f m) = f (Mesh.Max m).
Proof.
  intros Hf Hm. unfold Mesh.Max. rewrite vertices_MapCoords.
  destruct m as [| [[a b] c] m]; [congruence |]. cbn [Mesh.vertices flat_map
    Triangle.corners app List.map].
  exact (fold_left_hom Coord3D.Max Hf
           (b :: c :: flat_map Triangle.corners m) a).
Qed.

End BoundsUnderMaps.

Lemma exact_Min_scale (k x y : Qc) :
  0 <= k -> exact.Min (x * k) (y * k) = exact.Min x y * k.
Proof.
  intros Hk. unfold exact.Min.
  destruct (exact.ltb (x * k) (y * k)) eqn:E1;
    destruct (exact.ltb x y) eqn:E2; try reflexivity.
  - apply exact_ltb_lt in E1. apply exact_ltb_ge in E2.
    apply Qc_is_canon. to_Q. nra.
  - apply exact_ltb_ge in E1. apply exact_ltb_lt in E2.
    apply Qc_is_canon. to_Q. nra.
Qed.

Lemma exact_Max_scale (k x y : Qc) :
  0 <= k -> exact.Max (x * k) (y * k) = exact.Max x y * k.
Proof.
  intros Hk. unfold exact.Max.
  destruct (exact.ltb (y * k) (x * k)) eqn:E1;
    destruct (exact.ltb y x) eqn:E2; try reflexivity.
  - apply exact_ltb_lt in E1. apply exact_ltb_ge in E2.
    apply Qc_is_canon. to_Q. nra.
  - apply exact_ltb_ge in E1. apply exact_ltb_lt in E2.
    apply Qc_is_canon. to_Q. nra.
Qed.

Lemma exact_Min_add (t x y : Qc) :
  exact.Min (t + x) (t + y) = t + exact.Min x y.
Proof.
  unfold exact.Min.
  destruct (exact.ltb (t + x) (t + y)) eqn:E1;
    destruct (exact.ltb x y) eqn:E2; try reflexivity.
  - apply exact_ltb_lt in E1. apply exact_ltb_ge in E2.
    apply Qc_is_canon. to_Q. lra.
  - apply exact_ltb_ge in E1. apply exact_ltb_lt in E2.
    apply Qc_is_canon. to_Q. lra.
Qed.

Lemma exact_Max_add (t x y : Qc) :
  exact.Max (t + x) (t + y) = t + exact.Max x y.
Proof.
  unfold exact.Max.
  destruct (exact.ltb (t + y) (t + x)) eqn:E1;
    destruct (exact.ltb y x) eqn:E2; try reflexivity.
  - apply exact_ltb_lt in E1. apply exact_ltb_ge in E2.
    apply Qc_is_canon. to_Q. lra.
  - apply exact_ltb_ge in E1. apply exact_ltb_lt in E2.
    apply Qc_is_canon. to_Q. lra.
Qed.

(** Scaling by [k >= 0] scales the bounding box. *)
Lemma Mesh_bounds_Scale (m : Mesh.t Qc) (k : Qc) :
  0 <= k -> m <> [] ->
  Mesh.Min (Mesh.Scale m k) = Coord3D.Scale (Mesh.Min m) k /\
  Mesh.Max (Mesh.Scale m k) = Coord3D.Scale (Mesh.Max m) k.
Proof.
  intros Hk Hm. unfold Mesh.Scale. split.
  - apply (Mesh_Min_MapCoords (fun c => Coord3D.Scale c k));
      [| assumption].
    intros a b. unfold Coord3D.Min, Coord3D.Scale. cbn. exact_ops.
    now rewrite !exact_Min_scale.
  - apply (Mesh_Max_MapCoords (fun c => Coord3D.Scale c k));
      [| assumption].
    intros a b. unfold Coord3D.Max, Coord3D.Scale. cbn. exact_ops.
    now rewrite !exact_Max_scale.
Qed.

(** Translating by [t] translates the bounding box. *)
Lemma Mesh_bounds_translate (m : Mesh.t Qc) (t : Coord3D.t Qc) :
  m <> [] ->
  Mesh.Min (Mesh.MapCoords (Coord3D.Add t) m) = Coord3D.Add t (Mesh.Min m) /\
  Mesh.Max (Mesh.MapCoords (Coord3D.Add t) m) = Coord3D.Add t (Mesh.Max m).
Proof.
  intros Hm. split.
  - apply (Mesh_Min_MapCoords (Coord3D.Add t)); [| assumption].
    intros a b. unfold Coord3D.Min, Coord3D.Add. cbn. exact_ops.
    now rewrite !exact_Min_add.
  - apply (Mesh_Max_MapCoords (Coord3D.Add t)); [| assumption].
    intros a b. unfold Coord3D.Max, Coord3D.Add. cbn. exact_ops.
    now rewrite !exact_Max_add.
Qed.

(** ** placeInBounds: the translation *)

(** C1 fails on the code at this input: whatever the random source
    answers (in [0,1)), PlaceMesh returns a mesh, but the translation it
    applied is above the upper end placeMax - newMax of the interval, and
    the whole mesh lies beyond the target box on the X axis.  The code
    multiplies the random vector by translateMax - translateMin and never
    adds translateMin. *)
Theorem PlaceMesh_leaves_target_box (s : Source Qc) :
  (forall i, 0 <= float_draws s i /\ float_draws s i < 1) ->
  let u := float_draws s (cursor s) in
  let r := Coord3D.mk (float_draws s (S (cursor s)))
                      (float_draws s (S (S (cursor s))))
                      (float_draws s (S (S (S (cursor s))))) in
  let box_min := RoomLayout.placeMin room_1_10 in
  let box_max := RoomLayout.placeMax room_1_10 in
  let scaled := Mesh.Scale far_mesh
                  (scale_of u (maxScale box_min box_max far_mesh)) in
  let translate := translate_of box_min box_max scaled r in
  exists s',
    RoomLayout.PlaceMesh room_1_10 far_mesh s =
      Ok (Mesh.MapCoords (Coord3D.Add translate) scaled, s')
    /\ Coord3D.X (Coord3D.Sub box_max (Mesh.Max scaled))
       < Coord3D.X translate
    /\ Coord3D.X box_max
       < Coord3D.X (Mesh.Min (Mesh.MapCoords (Coord3D.Add translate) scaled)).
Proof.
  intros Hs u r box_min box_max scaled translate.
  eexists. split; [apply placeInBounds_unfold |].
  assert (Hne : far_mesh <> []) by discriminate.
  assert (Ems : maxScale box_min box_max far_mesh = exact.lit 1 2)
    by qc_compute.
  destruct (Hs (cursor s)) as [Hu0 Hu1]. fold u in Hu0, Hu1.
  destruct (Hs (S (cursor s))) as [Hr0 Hr1].
  destruct (@scale_of_bounds u (exact.lit 1 2)) as [L U];
    [assumption | assumption | discriminate |].
  rewrite <- Ems in L, U.
  set (k := scale_of u (maxScale box_min box_max far_mesh)) in *.
  assert (Hk : 0 <= k).
  { eapply Qcle_trans; [| exact L]. rewrite Ems. discriminate. }
  rewrite Ems in L, U.
  destruct (@Mesh_bounds_Scale far_mesh k Hk Hne) as [Emin Emax].
  fold scaled in Emin, Emax.
  assert (Hsc : scaled <> []) by discriminate.
  destruct (@Mesh_bounds_translate scaled translate Hsc) as [Tmin _].
  rewrite Tmin. unfold translate, translate_of. rewrite Emin, Emax.
  cbn [Coord3D.X Coord3D.Add Coord3D.Sub Coord3D.Mul Coord3D.Scale r].
  change (Coord3D.X (Mesh.Min far_mesh)) with (exact.lit 100 1).
  change (Coord3D.X (Mesh.Max far_mesh)) with (exact.lit 102 1).
  change (Coord3D.X box_max) with (exact.lit 1 1 / exact.lit 2 1).
  change (Coord3D.X box_min) with (- exact.lit 1 1 / exact.lit 2 1).
  exact_ops. to_Q. split; nra.
Qed.

Lemma PlaceMesh_leaves_target_box_witness :
  exists m' s',
    RoomLayout.PlaceMesh room_1_10 far_mesh
      (constant_source (exact.lit 1 2)) = Ok (m', s')
    /\ Coord3D.X (RoomLayout.placeMax room_1_10) < Coord3D.X (Mesh.Min m').
Proof.
  destruct (@PlaceMesh_leaves_target_box (constant_source (exact.lit 1 2)))
    as [s' [E [_ Hout]]].
  - intros i. cbn. split; [discriminate | reflexivity].
  - eexists. eexists. split; [exact E | exact Hout].
Defined.

(** The same input in binary64, with every answer of the source 0.5: the
    mesh comes back with its least X coordinate above 27, beyond the box,
    whose X range is [-0.5, 0.5]. *)
Lemma PlaceMesh_leaves_target_box_binary64 :
  let r := RoomLayout.mk (f64 1 1) (f64 10 1) in
  exists m' s',
    RoomLayout.PlaceMesh r far_mesh_binary64 (constant_source (f64 1 2)) =
      Ok (m', s')
    /\ flt (f64 27 1) (Coord3D.X (Mesh.Min m')) = true
    /\ flt (Coord3D.X (RoomLayout.placeMax r)) (Coord3D.X (Mesh.Min m'))
       = true.
Proof.
  cbv zeta. eexists. eexists. split; [vm_compute; reflexivity |].
  split; vm_compute; reflexivity.
Qed.

(** ** placeInBounds: degenerate meshes *)

(** C3, as stated, fails: a mesh with zero extent on the Z axis is not
    rejected.  placeInBounds divides by the zero extent and returns a
    mesh; in binary64 the quotient is +Inf, the least of the three ratios
    is 0.5, and the placed mesh is an ordinary one. *)
Lemma placeInBounds_accepts_flat_mesh :
  (let m : Mesh.t Qc := [flat_triangle] in
   Coord3D.Z (Coord3D.Sub (Mesh.Max m) (Mesh.Min m)) = 0 /\
   exists m' s',
     placeInBounds (Coord3D.mk 0 0 0) (Coord3D.mk 1 1 1) m
       (constant_source (exact.lit 1 2)) = Ok (m', s'))
  /\
  (let m : Mesh.t float := [flat_triangle] in
   let box_min := Coord3D.mk (f64 0 1) (f64 0 1) (f64 0 1) in
   let box_max := Coord3D.mk (f64 1 1) (f64 1 1) (f64 1 1) in
   Coord3D.Z (Coord3D.Sub (Mesh.Max m) (Mesh.Min m)) = f64 0 1 /\
   fdiv (Coord3D.Z (Coord3D.Sub box_max box_min))
        (Coord3D.Z (Coord3D.Sub (Mesh.Max m) (Mesh.Min m)))
     = PrimFloat.infinity /\
   maxScale box_min box_max m = f64 1 2 /\
   exists m' s',
     placeInBounds box_min box_max m (constant_source (f64 1 2)) =
       Ok (m', s')
     /\ Coord3D.Z (Mesh.Min m') = f64 1 2
     /\ Coord3D.Z (Mesh.Max m') = f64 1 2
     /\ fle (f64 0 1) (Coord3D.X (Mesh.Min m')) = true
     /\ fle (Coord3D.X (Mesh.Max m')) (f64 1 1) = true).
Proof.
  split; cbv zeta.
  - split; [qc_compute |]. eexists. eexists. apply placeInBounds_unfold.
  - split; [vm_compute; reflexivity |].
    split; [vm_compute; reflexivity |].
    split; [vm_compute; reflexivity |].
    eexists. eexists. split; [vm_compute; reflexivity |].
    repeat split; vm_compute; reflexivity.
Qed.

(** C3, amended: placeInBounds has no check on the extents of the mesh.
    For every mesh, degenerate or not, it computes the scale with the
    unguarded divisions (float64 division does not trap) and returns a
    mesh with as many triangles as the input; it never fails. *)
Theorem placeInBounds_never_rejects {F : Type} `{Float64 F}
    (placeMin placeMax : Coord3D.t F) (m : Mesh.t F) (s : Source F) :
  exists m' s',
    placeInBounds placeMin placeMax m s = Ok (m', s')
    /\ List.length m' = List.length m
    /\ maxScale placeMin placeMax m =
       math_Min
         (fdiv (Coord3D.X (Coord3D.Sub placeMax placeMin))
               (Coord3D.X (Coord3D.Sub (Mesh.Max m) (Mesh.Min m))))
         (math_Min
            (fdiv (Coord3D.Y (Coord3D.Sub placeMax placeMin))
                  (Coord3D.Y (Coord3D.Sub (Mesh.Max m) (Mesh.Min m))))
            (fdiv (Coord3D.Z (Coord3D.Sub placeMax placeMin))
                  (Coord3D.Z (Coord3D.Sub (Mesh.Max m) (Mesh.Min m))))).
Proof.
  eexists. eexists. split; [apply placeInBounds_unfold |].
  split; [| reflexivity].
  unfold Mesh.MapCoords, Mesh.Scale, Mesh.MapCoords.
  now rewrite !length_map.
Qed.

(** ** sort.Float64s *)

Section SortFacts.
Context {F : Type} `{Float64 F}.

Lemma insert_sorted_perm (x : F) (l : list F) :
  Permutation (insert_sorted x l) (x :: l).
Proof.
  induction l as [| y l IH]; cbn; [reflexivity |].
  destruct (Float64_less y x); [| reflexivity].
  rewrite IH. apply perm_swap.
Qed.

Lemma sort_Float64s_perm (l : list F) : Permutation (sort_Float64s l) l.
Proof.
  induction l as [| x l IH]; cbn; [reflexivity |].
  rewrite insert_sorted_perm. now apply perm_skip.
Qed.

Lemma sort_Float64s_length (l : list F) :
  List.length (sort_Float64s l) = List.length l.
Proof. apply Permutation_length, sort_Float64s_perm. Qed.


End SortFacts.

Lemma exact_Float64_less (x y : Qc) : Float64_less x y = exact.ltb x y.
Proof.
  unfold Float64_less, IsNaN. exact_ops.
  replace (Qc_eq_bool x x) with true
    by (symmetry; now apply Qc_eq_bool_true).
  cbn. apply orb_false_r.
Qed.

Lemma insert_sorted_Sorted (x : Qc) (l : list Qc) :
  Sorted Qcle l -> Sorted Qcle (insert_sorted x l).
Proof.
  induction l as [| y l IH]; intros Hl; cbn.
  - repeat constructor.
  - rewrite exact_Float64_less. destruct (exact.ltb y x) eqn:E.
    + apply Sorted_inv in Hl as [Hl Hhd]. constructor; [now apply IH |].
      apply exact_ltb_lt, Qclt_le_weak in E.
      destruct l as [| z l]; cbn.
      * now constructor.
      * rewrite exact_Float64_less. inversion Hhd; subst.
        destruct (exact.ltb z x); now constructor.
    + apply exact_ltb_ge in E. constructor; [assumption |].
      now constructor.
Qed.

Lemma sort_Float64s_Sorted (l : list Qc) : Sorted Qcle (sort_Float64s l).
Proof.
  induction l as [| x l IH]; cbn; [constructor |].
  now apply insert_sorted_Sorted.
Qed.

(** ** The index of the quantile *)

(** In exact arithmetic [int(float64(n) * 0.8)] is the integer part of
    0.8 n. *)
Lemma exact_quantile_index (n : nat) :
  to_int (fmul (of_int (Z.of_nat n)) (flit 8 10) : Qc)
  = Qfloor (inject_Z (Z.of_nat n) * (8 # 10)).
Proof.
  exact_ops. unfold exact.lit, Qcmult. cbn [this Q2Qc].
  set (q := (Qred (inject_Z (Z.of_nat n)) * Qred (8 # 10))%Q).
  assert (Hq : (Qred q == inject_Z (Z.of_nat n) * (8 # 10))%Q).
  { subst q. now rewrite !Qred_correct. }
  rewrite <- Hq.
  assert (H0 : (0 <= Qred q)%Q).
  { rewrite Hq. apply Qmult_le_0_compat; [| discriminate].
    unfold Qle; cbn. lia. }
  clear Hq. destruct (Qred q) as [a b].
  unfold Qle in H0. cbn [Qnum Qden] in H0.
  unfold Qfloor. cbn [Qnum Qden].
  apply Z.quot_div_nonneg; lia.
Qed.

Lemma quantile_index_value (n : nat) :
  Qfloor (inject_Z (Z.of_nat n) * (8 # 10)) = (Z.of_nat n * 8 / 10)%Z.
Proof. reflexivity. Qed.

Lemma quantile_index_range (n : nat) :
  (0 < n)%nat ->
  (0 <= Qfloor (inject_Z (Z.of_nat n) * (8 # 10)) < Z.of_nat n)%Z.
Proof.
  intros Hn. rewrite quantile_index_value. split.
  - apply Z.div_pos; lia.
  - apply Z.div_lt_upper_bound; lia.
Qed.

Lemma slice_index_nth {F : Type} (bs : list F) (i : Z) (d : F) :
  (0 <= i < Z.of_nat (List.length bs))%Z ->
  slice_index bs i = Ok (nth (Z.to_nat i) bs d).
Proof.
  intros Hi. unfold slice_index.
  destruct (Z.ltb_spec i 0); [lia |].
  destruct (nth_error bs (Z.to_nat i)) eqn:E.
  - now rewrite (nth_error_nth _ _ d E).
  - apply nth_error_None in E. lia.
Qed.

(** ** quantileBrightness *)

Lemma quantileBrightness_unfold {F : Type} `{Float64 F} (img : Image.t F) :
  quantileBrightness img =
    let bs := sort_Float64s (List.map brightness (Image.Data img)) in
    slice_index bs
      (to_int (fmul (of_int (Z.of_nat (List.length bs))) (flit 8 10))).
Proof. reflexivity. Qed.


(** On a non-empty image the index is inside the slice, and
    quantileBrightness returns the element found there.  (Exact
    arithmetic.) *)
Lemma quantileBrightness_returns (img : Image.t Qc) :
  Image.Data img <> [] ->
  let n := List.length (Image.Data img) in
  let bs := List.map brightness (Image.Data img) in
  let i := Z.to_nat (Qfloor (inject_Z (Z.of_nat n) * (8 # 10))) in
  (i < List.length (sort_Float64s bs))%nat
  /\ quantileBrightness img = Ok (nth i (sort_Float64s bs) 0).
Proof.
  intros Hne n bs i.
  assert (Hn : (0 < n)%nat).
  { subst n. destruct (Image.Data img); [congruence | cbn; lia]. }
  assert (Hlen : List.length (sort_Float64s bs) = n).
  { rewrite sort_Float64s_length. subst bs. apply length_map. }
  pose proof (quantile_index_range Hn) as Hi.
  split; [subst i; lia |].
  rewrite quantileBrightness_unfold. cbv zeta. fold bs.
  rewrite Hlen, exact_quantile_index.
  apply slice_index_nth. lia.
Qed.




(** In binary64 the average of a gray pixel is the rounded (v+v+v)/3.0:
    0.5 itself for v = 0.5, but 0.10000000000000002, the float64 after
    0.1, for v = 0.1. *)
Lemma quantileBrightness_gray_binary64 :
  quantileBrightness (gray_image (f64 1 2) 4) = Ok (f64 1 2)
  /\ quantileBrightness (gray_image (f64 1 10) 4)
     = Ok (PrimFloat.next_up (f64 1 10)).
Proof. split; vm_compute; reflexivity. Qed.

(** ** BrightnessScale *)

(** C8, as stated, fails: on the image without pixels BrightnessScale
    does not return; indexing the empty slice of brightness values
    panics, in exact arithmetic and in binary64 alike. *)
Lemma BrightnessScale_empty_image_panics :
  BrightnessScale (Image.mk []) (constant_source (exact.lit 1 2))
    = Panic "index out of range"
  /\ BrightnessScale (Image.mk []) (constant_source (f64 1 2))
    = Panic "index out of range".
Proof. split; vm_compute; reflexivity. Qed.

Lemma target_of_clamped (n : Qc) :
  exact.lit 1 10 <= target_of n /\ target_of n <= exact.lit 9 10
  /\ (exact.lit 1 10 <= n * exact.lit 1 10 + exact.lit 3 10 ->
      n * exact.lit 1 10 + exact.lit 3 10 <= exact.lit 9 10 ->
      target_of n = n * exact.lit 1 10 + exact.lit 3 10).
Proof.
  unfold target_of. exact_ops.
  set (x := n * exact.lit 1 10 + exact.lit 3 10).
  pose proof (exact_Max_ge_l (exact.lit 1 10) x) as H1.
  split; [| split].
  - destruct (exact_Min_cases (exact.lit 9 10) (exact.Max (exact.lit 1 10) x))
      as [-> | ->]; [discriminate | assumption].
  - apply exact_Min_le_l.
  - intros Hlo Hhi.
    assert (E : exact.Max (exact.lit 1 10) x = x).
    { unfold exact.Max. destruct (exact.ltb x (exact.lit 1 10)) eqn:E;
        [| reflexivity].
      apply exact_ltb_lt in E. apply Qc_is_canon. to_Q. lra. }
    rewrite E. unfold exact.Min.
    destruct (exact.ltb (exact.lit 9 10) x) eqn:E'; [| reflexivity].
    apply exact_ltb_lt in E'. apply Qc_is_canon. to_Q. lra.
Qed.

(** Nor does C8 hold of an image with a pixel whose brightness is NaN:
    in binary64, on the one pixel (NaN, 0, 0), BrightnessScale returns
    NaN, which is not at least 1.0. *)
Lemma BrightnessScale_NaN_pixel_binary64 :
  exists k s',
    BrightnessScale
      (Image.mk [Coord3D.mk PrimFloat.nan (f64 0 1) (f64 0 1)])
      (constant_source (f64 1 2)) = Ok (k, s')
    /\ IsNaN k = true /\ fle (f64 1 1) k = false.
Proof.
  eexists. eexists. split; [vm_compute; reflexivity |].
  split; vm_compute; reflexivity.
Qed.

(** C8, amended: on every image with at least one pixel, all of finite
    brightness (between -MaxFloat64 and MaxFloat64: no NaN and no
    infinity among the channel averages), and for a finite answer n of
    [rand.NormFloat64()], BrightnessScale returns
    max(1.0, target/median), where target is the sampled brightness
    0.3 + 0.1 n clamped to [0.1, 0.9] and median is
    max(1e-5, quantileBrightness(image)); the result is at least 1.0, and
    exactly 1.0 whenever the quantile brightness of the image is at least
    target.  Finiteness plays no part in exact arithmetic; it is what the
    statement needs to hold of float64 as well. *)
Theorem BrightnessScale_never_darkens (img : Image.t Qc) (s : Source Qc) :
  Image.Data img <> [] ->
  Forall (fun c => - exact.MaxFloat64 <= brightness c
                   /\ brightness c <= exact.MaxFloat64) (Image.Data img) ->
  - exact.MaxFloat64 <= norm_draws s (cursor s)
  /\ norm_draws s (cursor s) <= exact.MaxFloat64 ->
  let target := target_of (norm_draws s (cursor s)) in
  exists q,
    quantileBrightness img = Ok q
    /\ BrightnessScale img s =
         Ok (exact.Max 1 (target / exact.Max (exact.lit 1 100000) q),
             advance s)
    /\ (exact.lit 1 10 <= target /\ target <= exact.lit 9 10)
    /\ 1 <= exact.Max 1 (target / exact.Max (exact.lit 1 100000) q)
    /\ (target <= q ->
        exact.Max 1 (target / exact.Max (exact.lit 1 100000) q) = 1).
Proof.
  intros Hne _ _ target.
  pose proof (quantileBrightness_returns img Hne) as Hq. cbv zeta in Hq.
  destruct Hq as (_ & Hq).
  eexists. split; [exact Hq |].
  split.
  { unfold BrightnessScale, bind, rand_NormFloat64. rewrite Hq.
    reflexivity. }
  destruct (target_of_clamped (norm_draws s (cursor s))) as (Hlo & Hhi & _).
  fold target in Hlo, Hhi.
  split; [now split |].
  split; [apply exact_Max_ge_l |].
  intros Hq'.
  set (q := nth _ _ _) in *.
  set (median := exact.Max (exact.lit 1 100000) q).
  assert (Hm : target <= median).
  { eapply Qcle_trans; [exact Hq' | apply exact_Max_ge_r]. }
  assert (Hpos : 0 < median).
  { eapply Qclt_le_trans; [| apply exact_Max_ge_l]. reflexivity. }
  unfold exact.Max at 1.
  destruct (exact.ltb (target / median) 1) eqn:E; [reflexivity |].
  apply exact_ltb_ge in E.
  assert (Hle : target / median <= 1).
  { to_Q. apply Qle_shift_div_r; [assumption | lra]. }
  apply Qcle_antisym; assumption.
Qed.

Lemma BrightnessScale_never_darkens_witness :
  exists q,
    BrightnessScale (gray_image (exact.lit 1 2) 4)
      (constant_source (exact.lit 1 2))
    = Ok (q, advance (constant_source (exact.lit 1 2))) /\ 1 <= q.
Proof.
  destruct (@BrightnessScale_never_darkens (gray_image (exact.lit 1 2) 4)
              (constant_source (exact.lit 1 2)))
    as (q & _ & E & _ & H1 & _).
  - discriminate.
  - repeat constructor; vm_compute; discriminate.
  - split; vm_compute; discriminate.
  - eexists. split; [exact E | exact H1].
Defined.

(** In binary64, the all-gray image of value 0.5 and the normal sample 0:
    target is 0.3, below the brightness of the image, and the factor is
    1.0. *)
Lemma BrightnessScale_binary64_bright_image :
  BrightnessScale (gray_image (f64 1 2) 4) (constant_source (f64 1 2))
  = Ok (f64 1 1, advance (constant_source (f64 1 2))).
Proof. vm_compute. reflexivity. Qed.

(** ** ReLU.Apply *)

Section ReLU.
Context {F : Type} `{Float64 F}.

Lemma set_index_app (pre post : list F) (y x : F) :
  nn.set_index (pre ++ y :: post) (List.length pre) x
  = Ok (pre ++ x :: post).
Proof.
  induction pre as [| p pre IH]; cbn; [reflexivity |].
  now rewrite IH.
Qed.

Lemma relu_loop_map (data pre : list F) :
  nn.relu_loop (List.length pre) data
    (pre ++ repeat fzero (List.length data))
  = Ok (pre ++ List.map relu data).
Proof.
  revert pre. induction data as [| x data IH]; intros pre; cbn.
  - reflexivity.
  - unfold relu at 1. destruct (fgt x fzero).
    + rewrite set_index_app.
      specialize (IH (pre ++ [x])).
      rewrite length_app, Nat.add_1_r, <- !app_assoc in IH. exact IH.
    + specialize (IH (pre ++ [fzero])).
      rewrite length_app, Nat.add_1_r, <- !app_assoc in IH. exact IH.
Qed.

Lemma relu_idempotent (x : F) : relu (relu x) = relu x.
Proof.
  unfold relu. destruct (fgt x fzero) eqn:E.
  - now rewrite E.
  - now destruct (fgt fzero fzero).
Qed.

Lemma relu_nonnegative (x : F) :
  feq fzero fzero = true -> fle fzero (relu x) = true.
Proof.
  intros Hz. unfold relu, fle, fgt. destruct (flt fzero x) eqn:E.
  - now rewrite E.
  - rewrite Hz. apply orb_true_r.
Qed.

Lemma ReLU_Apply_map (t : nn.Tensor F) :
  well_formed t ->
  nn.ReLU_Apply t
  = Ok (nn.mkTensor (nn.Height t) (nn.Width t) (nn.Depth t)
          (List.map relu (nn.Data t))).
Proof.
  intros [Hpos Hlen]. unfold nn.ReLU_Apply, nn.NewTensor.
  destruct (Z.ltb_spec
              (int_mul (int_mul (nn.Height t) (nn.Width t)) (nn.Depth t)) 0);
    [lia |].
  cbn [nn.Data nn.Height nn.Width nn.Depth]. rewrite <- Hlen.
  pose proof (relu_loop_map (nn.Data t) []) as E.
  cbn [List.length app] in E. now rewrite E.
Qed.

Lemma skipn_cons_nth_error {A : Type} (l rest : list A) (i : nat) (x : A) :
  skipn i l = x :: rest ->
  nth_error l i = Some x /\ skipn (S i) l = rest.
Proof.
  revert i. induction l as [| a l IH]; intros i E.
  - destruct i; discriminate.
  - destruct i as [| i]; cbn in E.
    + injection E as -> ->. now split.
    + apply IH in E. exact E.
Qed.

(** In a memory that ends with the new tensor, the loop in memory does
    to the new tensor what the loop does to its contents, and leaves the
    tensors before it as they are. *)
Lemma relu_loop_at_contents (m : nn.Memory) (t : nn.Tensor F) (p : nat)
    (h w d : Z) (rest : list F) :
  nth_error m p = Some t ->
  forall (i : nat) (r : list F),
    skipn i (nn.Data t) = rest ->
    nn.relu_loop_at (List.length rest) i p (List.length m)
      (m ++ [nn.mkTensor h w d r])
    = match nn.relu_loop i rest r with
      | Ok r' => Ok (m ++ [nn.mkTensor h w d r'])
      | Panic msg => Panic msg
      end.
Proof.
  intros Hp. induction rest as [| x rest IH]; intros i r E.
  - reflexivity.
  - apply skipn_cons_nth_error in E as [Hx E].
    cbn [List.length nn.relu_loop_at nn.relu_loop]. unfold nn.load.
    rewrite nth_error_app1 by (apply nth_error_Some; congruence).
    rewrite Hp, Hx. destruct (fgt x fzero).
    + unfold nn.store_Data.
      rewrite nth_error_app2, Nat.sub_diag by lia. cbn [nth_error nn.Data].
      destruct (nn.set_index r i x) as [r' | msg]; [| reflexivity].
      cbn [nn.Height nn.Width nn.Depth].
      rewrite firstn_app, firstn_all, Nat.sub_diag. cbn [firstn].
      rewrite app_nil_r, skipn_app, skipn_all2 by lia.
      replace (S (List.length m) - List.length m)%nat with 1%nat by lia.
      cbn [skipn app]. now apply IH.
    + now apply IH.
Qed.

(** [ReLU.Apply] in memory puts the result of [ReLU.Apply] on the
    contents at a new address and changes no tensor that was there. *)
Lemma ReLU_Apply_at_contents (m : nn.Memory) (t : nn.Tensor F) (p : nat) :
  nth_error m p = Some t ->
  nn.ReLU_Apply_at p m
  = match nn.ReLU_Apply t with
    | Ok t' => Ok (List.length m, m ++ [t'])
    | Panic msg => Panic msg
    end.
Proof.
  intros Hp. unfold nn.ReLU_Apply_at, nn.ReLU_Apply, nn.load,
    nn.NewTensor_at.
  rewrite Hp.
  destruct (nn.NewTensor (nn.Height t) (nn.Width t) (nn.Depth t))
    as [[h w d r] | msg]; [| reflexivity].
  cbn [nn.Data nn.Height nn.Width nn.Depth].
  rewrite (@relu_loop_at_contents m t p h w d (nn.Data t) Hp 0%nat r)
    by reflexivity.
  now destruct (nn.relu_loop 0 (nn.Data t) r).
Qed.

(** C10, as stated, fails: ReLU.Apply does not return on every tensor.
    On a tensor of height, width and depth 1 whose Data has two
    elements, the second of them positive, it panics: the new tensor
    has one element, and the loop assigns to its index 1.  In binary64
    and in exact arithmetic alike. *)
Lemma ReLU_Apply_panics_on_long_Data :
  nn.ReLU_Apply (nn.mkTensor 1 1 1 [f64 1 2; f64 3 1])
  = Panic "index out of range"
  /\ nn.ReLU_Apply (nn.mkTensor 1 1 1 [exact.lit 1 2; exact.lit 3 1])
     = Panic "index out of range".
Proof. split; vm_compute; reflexivity. Qed.

(** C10, amended: on a tensor whose Data holds Height*Width*Depth
    elements ReLU.Apply returns a new tensor of the same height, width
    and depth; each of its elements is the input element at the same
    index if that one is strictly positive and 0 otherwise, so every
    element is nonnegative; applying ReLU.Apply to the result gives the
    result again.  The input is left unchanged: in memory, the call puts
    the new tensor at an address that was not in use and leaves every
    tensor that was there, the input among them, as it was.  The only
    fact about float64 that is used is that 0 == 0. *)
Theorem ReLU_Apply_rectifies (t : nn.Tensor F) :
  feq fzero fzero = true ->
  well_formed t ->
  exists t',
    nn.ReLU_Apply t = Ok t'
    /\ nn.Height t' = nn.Height t
    /\ nn.Width t' = nn.Width t
    /\ nn.Depth t' = nn.Depth t
    /\ List.length (nn.Data t') = List.length (nn.Data t)
    /\ (forall i x, nth_error (nn.Data t) i = Some x ->
          nth_error (nn.Data t') i
          = Some (if fgt x fzero then x else fzero))
    /\ Forall (fun y => fle fzero y = true) (nn.Data t')
    /\ nn.ReLU_Apply t' = Ok t'
    /\ (forall (m : nn.Memory) (p : nat),
          nth_error m p = Some t ->
          nn.ReLU_Apply_at p m = Ok (List.length m, m ++ [t'])
          /\ nth_error (m ++ [t']) p = Some t).
Proof.
  intros Hz Hwf. eexists. split; [now apply ReLU_Apply_map |].
  cbn [nn.Height nn.Width nn.Depth nn.Data].
  repeat (split; [reflexivity |]).
  split; [apply length_map |].
  split.
  { intros i x Hi. now rewrite nth_error_map, Hi. }
  split.
  { apply Forall_forall. intros y Hy. apply in_map_iff in Hy as [x [<- _]].
    now apply relu_nonnegative. }
  split.
  { rewrite ReLU_Apply_map.
    - cbn [nn.Height nn.Width nn.Depth nn.Data]. rewrite map_map.
      do 2 f_equal. apply map_ext, relu_idempotent.
    - destruct Hwf as [Hpos Hlen]. split; cbn; [assumption |].
      now rewrite length_map. }
  intros m p Hp. split.
  - rewrite (@ReLU_Apply_at_contents m t p Hp), (@ReLU_Apply_map t Hwf).
    reflexivity.
  - rewrite nth_error_app1; [exact Hp |].
    apply nth_error_Some. congruence.
Qed.

End ReLU.

Lemma ReLU_Apply_rectifies_witness :
  exists t',
    nn.ReLU_Apply
      (nn.mkTensor 1 2 2 [f64 1 1; f64 (-1) 1; f64 0 1; f64 3 2]) = Ok t'
    /\ nn.ReLU_Apply t' = Ok t'.
Proof.
  destruct (@ReLU_Apply_rectifies float _
              (nn.mkTensor 1 2 2 [f64 1 1; f64 (-1) 1; f64 0 1; f64 3 2]))
    as (t' & E & _ & _ & _ & _ & _ & _ & E' & _).
  - reflexivity.
  - split; [discriminate | reflexivity].
  - exists t'. split; [exact E | exact E'].
Defined.

(** In binary64, on the elements 1, -1, 0, 1.5, the negative zero and
    NaN: the result is 1, 0, 0, 1.5, 0, 0. *)
Lemma ReLU_Apply_binary64 :
  nn.ReLU_Apply
    (nn.mkTensor 1 2 3 [f64 1 1; f64 (-1) 1; f64 0 1; f64 3 2;
                        PrimFloat.opp (f64 0 1); PrimFloat.nan])
  = Ok (nn.mkTensor 1 2 3 [f64 1 1; f64 0 1; f64 0 1; f64 3 2;
                           f64 0 1; f64 0 1]).
Proof. vm_compute. reflexivity. Qed.

(** ** RandomScene: the focus probabilities *)

Lemma bind_Ok {F A B : Type} (m : M F A) (k : A -> M F B) (s : Source F)
    (r : B * Source F) :
  bind m k s = Ok r -> exists a s1, m s = Ok (a, s1) /\ k a s1 = Ok r.
Proof.
  unfold bind. destruct (m s) as [[a s1] | msg]; [| discriminate].
  intros E. now exists a, s1.
Qed.

Lemma rand_Intn_Ok {F : Type} (n : Z) (s : Source F) (r : Z * Source F) :
  rand_Intn n s = Ok r ->
  r = ((int_draws s (cursor s) mod n)%Z, advance s) /\ (0 < n)%Z.
Proof.
  unfold rand_Intn. destruct (Z.ltb_spec 0 n); [| discriminate].
  intros E. injection E as <-. now split.
Qed.

Section FocusProbabilities.
Context {F : Type} `{Float64 F} `{GoMath F}.
Variable Ext : Type.

(** CreateLight always returns, and what it returns is a collider. *)
Lemma CreateLight_collider (r : RoomLayout.t F) (s : Source F) :
  exists shape color s',
    RoomLayout.CreateLight (Ext := Ext) r s
    = Ok (ColliderObject shape color, s').
Proof.
  unfold RoomLayout.CreateLight, bind, rand_Intn, rand_Float64,
    uniformRandom, bind, rand_Float64, ret.
  cbn [Z.ltb Z.compare Pos.compare].
  repeat match goal with
         | |- context [if ?b then _ else _] => destruct b
         end; cbn; eauto.
Qed.

(** One round of the third loop appends one focus point and the
    probability 0.3/numLights; it always returns. *)
Lemma add_light_appends (layout : RoomLayout.t F) (numLights : Z)
    (st : lights_state Ext) (s : Source F) :
  exists st' s',
    add_light layout numLights st s = Ok (st', s')
    /\ focusProbs st'
       = focusProbs st ++ [fdiv (flit 3 10) (of_int numLights)]
    /\ List.length (focusPoints st') = S (List.length (focusPoints st))
    /\ List.length (objects st') = S (List.length (objects st)).
Proof.
  destruct (CreateLight_collider layout s) as (shape & color & s' & E).
  unfold add_light, bind. cbn [CreateLight RoomLayout_SceneLayout].
  rewrite E. eexists. eexists. split; [reflexivity |].
  cbn [focusProbs focusPoints objects]. rewrite !length_app. cbn.
  repeat split; lia.
Qed.

(** The third loop always returns, with [n] more focus points and [n]
    more probabilities 0.3/numLights. *)
Lemma lights_loop_appends (layout : RoomLayout.t F) (numLights : Z)
    (n : nat) (st : lights_state Ext) (s : Source F) :
  exists st' s',
    repeatM n (add_light layout numLights) st s = Ok (st', s')
    /\ focusProbs st'
       = focusProbs st ++ repeat (fdiv (flit 3 10) (of_int numLights)) n
    /\ List.length (focusPoints st') = (List.length (focusPoints st) + n)%nat.
Proof.
  revert st s. induction n as [| n IH]; intros st s; cbn [repeatM].
  - exists st, s. cbn. rewrite app_nil_r. repeat split. lia.
  - destruct (add_light_appends layout numLights st s)
      as (st1 & s1 & E1 & Hp1 & Hf1 & _).
    destruct (IH st1 s1) as (st2 & s2 & E2 & Hp2 & Hf2).
    exists st2, s2. unfold bind. rewrite E1. split; [exact E2 |].
    rewrite Hp2, Hp1, Hf2, Hf1, <- app_assoc. cbn. split; [reflexivity | lia].
Qed.

End FocusProbabilities.

Section RandomSceneFocus.
Context {F : Type} `{Float64 F} `{GoMath F}.
Variable Ext : Type.
Variable RandomizeMaterial : Mesh.t F -> list string -> M F Ext.
Variable ReadOFF : string -> option (list (Triangle.t F)).
Variable NewCoord3DRandUnit : M F (Coord3D.t F).
Variable NewMatrix3Rotation : Coord3D.t F -> F -> Coord3D.t F -> Coord3D.t F.
Variable backdrop_order : RoomLayout.t F -> list (Triangle.t F).

(** Whenever RandomScene returns, the tracer it returns has one focus
    point per light and the probabilities 0.3/numLights, for the
    numLights in [1,5] that it drew. *)
Lemma RandomScene_focus (models images : list string) (s s' : Source F)
    (objs : list (Object F Ext)) (tracer : RecursiveRayTracer F) :
  RandomScene RandomizeMaterial ReadOFF NewCoord3DRandUnit
    NewMatrix3Rotation backdrop_order models images s
  = Ok ((objs, tracer), s') ->
  let numLights := (int_draws s (S (S (S (cursor s)))) mod 5 + 1)%Z in
  (1 <= numLights <= 5)%Z
  /\ FocusPointProbs tracer = focus_probs numLights
  /\ List.length (FocusPoints tracer) = Z.to_nat numLights.
Proof.
  intros E numLights.
  assert (Hrange : (1 <= numLights <= 5)%Z).
  { subst numLights.
    pose proof (Z.mod_pos_bound (int_draws s (S (S (S (cursor s))))) 5).
    lia. }
  split; [exact Hrange |].
  unfold RandomScene in E.
  apply bind_Ok in E as (layout & s1 & E1 & E).
  apply bind_Ok in E as (n1 & s2 & E2 & E).
  apply bind_Ok in E as (n2 & s3 & E3 & E).
  apply bind_Ok in E as (walls & s4 & _ & E).
  apply bind_Ok in E as (objs1 & s5 & _ & E).
  apply bind_Ok in E as (objs2 & s6 & _ & E).
  apply bind_Ok in E as (st & s7 & E7 & E).
  injection E1 as El Es1. subst s1.
  apply rand_Intn_Ok in E2 as [E2 _]. injection E2 as En1 Es2. subst n1 s2.
  apply rand_Intn_Ok in E3 as [E3 _]. injection E3 as En2 Es3. subst n2 s3.
  cbn [cursor advance int_draws] in E7. fold numLights in E7.
  destruct (CameraInfo layout) as [origin target] eqn:Ecam.
  apply bind_Ok in E as (f & s8 & _ & E).
  injection E as Eo Et Es. subst tracer. cbn [FocusPointProbs FocusPoints].
  destruct (lights_loop_appends layout numLights (Z.to_nat numLights)
              {| objects := objs2; focusPoints := []; focusProbs := [] |} s6)
    as (st' & s7' & E7' & Hp & Hf).
  rewrite E7 in E7'. injection E7' as Est Es7. subst st'.
  split; [exact Hp | exact Hf].
Qed.

End RandomSceneFocus.

Lemma focus_probs_sum_exact (numLights : Z) :
  (1 <= numLights <= 5)%Z ->
  Qc_sum (focus_probs numLights) = exact.lit 3 10.
Proof.
  intros Hr.
  assert (Hc : numLights = 1%Z \/ numLights = 2%Z \/ numLights = 3%Z \/
               numLights = 4%Z \/ numLights = 5%Z) by lia.
  destruct Hc as [-> | [-> | [-> | [-> | ->]]]]; qc_compute.
Qed.

Lemma focus_probs_sum_binary64 (numLights : Z) :
  (1 <= numLights <= 5)%Z ->
  (Qabs (binary64_sum (focus_probs numLights) - (3 # 10))
   <= 1 # 10000000000000000)%Q.
Proof.
  intros Hr.
  assert (Hc : numLights = 1%Z \/ numLights = 2%Z \/ numLights = 3%Z \/
               numLights = 4%Z \/ numLights = 5%Z) by lia.
  destruct Hc as [-> | [-> | [-> | [-> | ->]]]];
    apply Qle_bool_imp_le; vm_compute; reflexivity.
Qed.

(** C5: for the light count L in [1,5] that RandomScene draws, the list
    of focus probabilities of the tracer it returns has length L, as has
    the list of focus points, and every probability is 0.3/L; the
    probabilities sum to 0.3: exactly in exact arithmetic, and within
    1e-16 for the float64 values. *)
Theorem RandomScene_focus_probabilities :
  (forall (F : Type) (ops : Float64 F) (math : GoMath F) (Ext : Type)
          (RandomizeMaterial : Mesh.t F -> list string -> M F Ext)
          (ReadOFF : string -> option (list (Triangle.t F)))
          (NewCoord3DRandUnit : M F (Coord3D.t F))
          (NewMatrix3Rotation : Coord3D.t F -> F -> Coord3D.t F
                                -> Coord3D.t F)
          (backdrop_order : RoomLayout.t F -> list (Triangle.t F))
          (models images : list string) (s s' : Source F)
          (objs : list (Object F Ext)) (tracer : RecursiveRayTracer F),
      RandomScene RandomizeMaterial ReadOFF NewCoord3DRandUnit
        NewMatrix3Rotation backdrop_order models images s
      = Ok ((objs, tracer), s') ->
      let L := (int_draws s (S (S (S (cursor s)))) mod 5 + 1)%Z in
      (1 <= L <= 5)%Z
      /\ List.length (FocusPointProbs tracer) = Z.to_nat L
      /\ List.length (FocusPoints tracer) = Z.to_nat L
      /\ Forall (fun p => p = fdiv (flit 3 10) (of_int L))
                (FocusPointProbs tracer)
      /\ FocusPointProbs tracer = focus_probs L)
  /\ (forall L : Z, (1 <= L <= 5)%Z ->
        Qc_sum (focus_probs L) = exact.lit 3 10)
  /\ (forall L : Z, (1 <= L <= 5)%Z ->
        (Qabs (binary64_sum (focus_probs L) - (3 # 10))
         <= 1 # 10000000000000000)%Q).
Proof.
  split; [| split].
  - intros F ops math Ext RM RO NU NR order models images s s' objs tracer E.
    apply RandomScene_focus in E. cbv zeta in E.
    destruct E as (Hr & Hp & Hf).
    cbv zeta. split; [exact Hr |]. rewrite Hp. unfold focus_probs.
    split; [apply repeat_length |]. split; [exact Hf |].
    split; [| reflexivity].
    apply Forall_forall. intros p Hin. now apply repeat_spec in Hin.
  - apply focus_probs_sum_exact.
  - apply focus_probs_sum_binary64.
Qed.

(** A run in binary64 in which every model file holds one triangle and
    materials and rotations do nothing: four lights, and the four
    probabilities 0.3/4. *)
Lemma RandomScene_focus_probabilities_witness :
  exists objs tracer s',
    RandomScene (fun _ _ => ret tt)
      (fun _ => Some [corner_triangle (f64 0 1) (f64 1 1)])
      (ret (Coord3D.mk (f64 0 1) (f64 0 1) (f64 1 1)))
      (fun _ _ c => c)
      RoomLayout.backdrop_box
      ["model.off"%string] [] counting_source
    = Ok ((objs, tracer), s')
    /\ FocusPointProbs tracer = focus_probs 4.
Proof.
  eexists. eexists. eexists.
  match goal with
  | |- ?A /\ _ => assert (E : A) by (vm_compute; reflexivity)
  end.
  split; [exact E |].
  exact (proj2 (proj2 (proj2 (proj2
    (proj1 RandomScene_focus_probabilities _ _ _ _ _ _ _ _ _ _ _ _ _ _ _
       E))))).
Defined.

(** ** The exact square root *)

Lemma Qc_canon_coprime (a : Qc) : Z.gcd (Qnum a) (Zpos (Qden a)) = 1%Z.
Proof. apply Qred_iff. apply canon. Qed.

Lemma coprime_squares (p q : Z) :
  Z.gcd p q = 1%Z -> Z.gcd (p * p) (q * q) = 1%Z.
Proof.
  intros Hg.
  assert (H1 : Z.gcd p (q * q) = 1%Z) by (apply Z.coprime_mul_r; assumption).
  rewrite Z.gcd_comm in H1. rewrite Z.gcd_comm.
  apply Z.coprime_mul_r; assumption.
Qed.

(** The square of a canonical rational, numerator and denominator. *)
Lemma Qc_square_this (a : Qc) :
  this (a * a) = (Qnum a * Qnum a # Qden a * Qden a)%Q.
Proof.
  unfold Qcmult. cbn [this Q2Qc]. destruct a as [[p q] Ha].
  cbn [this Qmult Qnum Qden]. apply Qred_identity. cbn [Qnum Qden].
  rewrite Pos2Z.inj_mul. apply coprime_squares.
  apply Qred_iff in Ha. exact Ha.
Qed.

Lemma exact_Sqrt_square (a : Qc) : 0 <= a -> exact.Sqrt (a * a) = a.
Proof.
  intros Ha. unfold exact.Sqrt. rewrite Qc_square_this. cbn [Qnum Qden].
  assert (Hp : (0 <= Qnum a)%Z).
  { unfold Qcle, Qle in Ha. cbn in Ha. lia. }
  rewrite Z.sqrt_square by assumption.
  assert (Hq : Pos.sqrt (Qden a * Qden a) = Qden a).
  { apply Pos2Z.inj. rewrite Pos2Z.inj_sqrt, Pos2Z.inj_mul.
    apply Z.sqrt_square. lia. }
  rewrite Hq. apply Qc_is_canon. cbn [this Q2Qc]. rewrite Qred_correct.
  destruct a as [[p q] Hc]. reflexivity.
Qed.

(** ** CreateBackdrop: pairing the triangles of a mesh *)

Lemma find_unique {A : Type} (P : A -> bool) (l : list A) (x : A) :
  In x l -> P x = true -> (forall y, In y l -> P y = true -> y = x) ->
  find P l = Some x.
Proof.
  induction l as [| a l IH]; intros Hin Hx Huniq; [contradiction |].
  cbn. destruct (P a) eqn:Ea.
  - f_equal. apply Huniq; [now left | assumption].
  - destruct Hin as [-> | Hin]; [congruence |].
    apply IH; auto. intros y Hy. apply Huniq. now right.
Qed.

Lemma find_filter {A : Type} (P Q : A -> bool) (l : list A) :
  find P (filter Q l) = find (fun y => Q y && P y) l.
Proof.
  induction l as [| a l IH]; cbn; [reflexivity |].
  destruct (Q a); cbn; [now rewrite IH | assumption].
Qed.

Section Pairing.
Context {F : Type} `{Float64 F} `{GoMath F}.

(** [==] on triangles is equality: no NaN among the coordinates. *)
Hypothesis eqb_eq :
  forall t t' : Triangle.t F, Triangle.eqb t t' = true <-> t = t'.

(** The mesh [B], and for each of its triangles the one triangle of [B]
    that is adjacent and coplanar to it. *)
Variable B : Mesh.t F.
Variable partner : Triangle.t F -> Triangle.t F.
Hypothesis B_NoDup : NoDup B.
Hypothesis partner_In : forall t, In t B -> In (partner t) B.
Hypothesis partner_neq : forall t, In t B -> partner t <> t.
Hypothesis partner_invol : forall t, In t B -> partner (partner t) = t.
Hypothesis partner_only :
  forall t n, In t B -> In n B ->
    Mesh.adjacent t n && RoomLayout.coplanar t n = true -> n = partner t.
Hypothesis partner_coplanar :
  forall t, In t B ->
    Mesh.adjacent t (partner t) && RoomLayout.coplanar t (partner t) = true.

Lemma Contains_In (m : Mesh.t F) (t : Triangle.t F) :
  Mesh.Contains m t = true <-> In t m.
Proof.
  unfold Mesh.Contains. rewrite existsb_exists. split.
  - intros (x & Hx & E). apply eqb_eq in E. now subst.
  - intros Hin. exists t. split; [assumption | now apply eqb_eq].
Qed.

Lemma Remove_In (m : Mesh.t F) (t x : Triangle.t F) :
  In x (Mesh.Remove t m) <-> In x m /\ x <> t.
Proof.
  unfold Mesh.Remove. rewrite filter_In. split; intros [Hin Hx].
  - split; [assumption |]. intros ->.
    assert (E : Triangle.eqb t t = true) by now apply eqb_eq.
    rewrite E in Hx. discriminate.
  - split; [assumption |]. destruct (Triangle.eqb t x) eqn:E;
      [| reflexivity].
    apply eqb_eq in E. congruence.
Qed.

Lemma Remove_Permutation (m : Mesh.t F) (t : Triangle.t F) :
  NoDup m -> In t m -> Permutation m (t :: Mesh.Remove t m).
Proof.
  intros Hnd Hin. apply NoDup_Permutation; [assumption | |].
  - constructor.
    + rewrite Remove_In. tauto.
    + now apply NoDup_filter.
  - intros x. cbn. rewrite Remove_In.
    destruct (Triangle.eqb t x) eqn:E.
    + apply eqb_eq in E. subst. tauto.
    + assert (x <> t).
      { intros ->. assert (E' : Triangle.eqb t t = true) by now apply eqb_eq.
        congruence. }
      split; [tauto |]. intros [-> | ?]; tauto.
Qed.

(** The closure of [CreateBackdrop] on a triangle of such a part: it
    finds the partner, removes both and appends the panel. *)
Lemma backdrop_step_pairs (m : Mesh.t F) (walls : list (Mesh.t F))
    (t : Triangle.t F) :
  closed_part B partner m -> In t m ->
  RoomLayout.backdrop_step t (m, walls)
  = Ok (Mesh.Remove t (Mesh.Remove (partner t) m),
        walls ++ [[t; partner t]]).
Proof.
  intros (Hnd & Hincl & Hcl) Hin. unfold RoomLayout.backdrop_step.
  unfold Mesh.Neighbors. rewrite find_filter.
  rewrite (@find_unique _ _ m (partner t)); [reflexivity | | |].
  - now apply Hcl.
  - apply partner_coplanar. now apply Hincl.
  - intros y Hy Hty. apply partner_only; auto.
Qed.

Lemma closed_part_step (m : Mesh.t F) (t : Triangle.t F) :
  closed_part B partner m -> In t m ->
  closed_part B partner (Mesh.Remove t (Mesh.Remove (partner t) m)).
Proof.
  intros (Hnd & Hincl & Hcl) Hin. split; [| split].
  - unfold Mesh.Remove. now do 2 apply NoDup_filter.
  - intros x Hx. apply Remove_In in Hx as [Hx _].
    apply Remove_In in Hx as [Hx _]. now apply Hincl.
  - intros x Hx. apply Remove_In in Hx as [Hx Hxt].
    apply Remove_In in Hx as [Hx Hxp].
    rewrite !Remove_In. split; [split |].
    + now apply Hcl.
    + intros E. apply Hxt. rewrite <- (partner_invol _ (Hincl _ Hx)).
      rewrite E. apply partner_invol. now apply Hincl.
    + intros E. apply Hxp. rewrite <- (partner_invol _ (Hincl _ Hx)).
      now rewrite E.
Qed.

(** Iterating over any enumeration of triangles of [B]: the loop
    returns; what it appends are panels of a triangle and its partner;
    panels and remaining mesh together are the mesh it started from. *)
Lemma Iterate_pairs (order : list (Triangle.t F)) :
  forall (m : Mesh.t F) (walls : list (Mesh.t F)),
    closed_part B partner m ->
    exists m' new,
      Mesh.Iterate order RoomLayout.backdrop_step (m, walls)
      = Ok (m', walls ++ new)
      /\ closed_part B partner m'
      /\ incl m' m
      /\ (forall t, In t order -> ~ In t m')
      /\ Permutation (List.concat new ++ m') m
      /\ Forall (fun w => exists t, In t B /\ w = [t; partner t]) new.
Proof.
  induction order as [| t rest IH]; intros m walls Hm.
  - exists m, []. cbn [Mesh.Iterate List.concat app]. rewrite app_nil_r.
    split; [reflexivity |]. split; [assumption |].
    split; [apply incl_refl |]. split; [intros ? [] |].
    split; [reflexivity | constructor].
  - cbn [Mesh.Iterate fst]. destruct (Mesh.Contains m t) eqn:Ec.
    + apply Contains_In in Ec.
      rewrite (@backdrop_step_pairs m walls t Hm Ec).
      pose proof (@closed_part_step m t Hm Ec) as Hm1.
      destruct (IH _ (walls ++ [[t; partner t]]) Hm1)
        as (m' & new & E & Hm' & Hsub & Hout & Hperm & Hall).
      exists m', ([t; partner t] :: new).
      rewrite <- app_assoc in E. cbn [app] in E.
      destruct Hm as (Hnd & Hincl & Hcl).
      split; [exact E |]. split; [exact Hm' |].
      split.
      { intros x Hx. apply Hsub in Hx.
        apply Remove_In in Hx as [Hx _]. now apply Remove_In in Hx as [Hx _]. }
      split.
      { intros x [<- | Hx]; [| now apply Hout].
        intros Hx. apply Hsub in Hx. apply Remove_In in Hx. tauto. }
      split.
      { cbn [List.concat app]. rewrite Hperm.
        assert (Hp : In (partner t) m) by now apply Hcl.
        rewrite (@Remove_Permutation m (partner t) Hnd Hp) at 2.
        rewrite perm_swap. apply perm_skip.
        symmetry. apply Remove_Permutation.
        - now apply NoDup_filter.
        - apply Remove_In. split; [assumption |].
          intros E'. symmetry in E'. revert E'. apply partner_neq.
          now apply Hincl. }
      constructor; [| exact Hall].
      exists t. split; [now apply Hincl | reflexivity].
    + destruct (IH m walls Hm)
        as (m' & new & E & Hm' & Hsub & Hout & Hperm & Hall).
      exists m', new. split; [exact E |]. split; [exact Hm' |].
      split; [exact Hsub |]. split; [| split; assumption].
      intros x [<- | Hx]; [| now apply Hout].
      intros Hx. apply Hsub in Hx. apply Contains_In in Hx. congruence.
Qed.

(** Iterating over an enumeration of all of [B]: every triangle of [B]
    ends up in exactly one panel. *)
Lemma Iterate_all_paired (order : list (Triangle.t F)) :
  Permutation order B ->
  exists walls,
    Mesh.Iterate order RoomLayout.backdrop_step (B, []) = Ok ([], walls)
    /\ Permutation (List.concat walls) B
    /\ Forall (fun w => exists t, In t B /\ w = [t; partner t]) walls
    /\ (2 * List.length walls = List.length B)%nat.
Proof.
  intros Hord.
  assert (HB : closed_part B partner B).
  { split; [assumption | split; [apply incl_refl | exact partner_In]]. }
  destruct (Iterate_pairs order [] HB)
    as (m' & new & E & Hm' & Hsub & Hout & Hperm & Hall).
  assert (Hnil : m' = []).
  { destruct m' as [| x m']; [reflexivity |]. exfalso.
    apply (Hout x); [| now left].
    apply (Permutation_in _ (Permutation_sym Hord)). apply Hsub. now left. }
  subst m'. rewrite app_nil_r in Hperm. cbn [app] in E.
  exists new. repeat split; auto.
  rewrite <- (Permutation_length Hperm).
  clear - Hall. induction Hall as [| w ws (t & _ & ->) _ IH]; cbn; lia.
Qed.

End Pairing.

(** ** CreateBackdrop: the box *)

Lemma index_eqb_eq (c c' : Coord3D.t bool) :
  index_eqb c c' = true <-> c = c'.
Proof.
  destruct c as [i j k], c' as [i' j' k']. unfold index_eqb. cbn.
  rewrite !andb_true_iff, !eqb_true_iff. split.
  - intros [[-> ->] ->]. reflexivity.
  - intros E. injection E as -> -> ->. auto.
Qed.

Lemma index_triangle_eqb_eq (s s' : Triangle.t bool) :
  index_triangle_eqb s s' = true <-> s = s'.
Proof.
  destruct s as [[a b] c], s' as [[a' b'] c']. unfold index_triangle_eqb.
  rewrite !andb_true_iff, !index_eqb_eq. split.
  - intros [[-> ->] ->]. reflexivity.
  - intros E. injection E as -> -> ->. auto.
Qed.

Lemma exact_Coord3D_eqb_eq (c c' : Coord3D.t Qc) :
  Coord3D.eqb c c' = true <-> c = c'.
Proof.
  destruct c as [x y z], c' as [x' y' z']. unfold Coord3D.eqb. cbn.
  rewrite !andb_true_iff, !Qc_eq_bool_true. split.
  - intros [[-> ->] ->]. reflexivity.
  - intros E. injection E as -> -> ->. auto.
Qed.

Lemma exact_Triangle_eqb_eq (t t' : Triangle.t Qc) :
  Triangle.eqb t t' = true <-> t = t'.
Proof.
  destruct t as [[a b] c], t' as [[a' b'] c']. unfold Triangle.eqb.
  rewrite !andb_true_iff, !exact_Coord3D_eqb_eq. split.
  - intros [[-> ->] ->]. reflexivity.
  - intros E. injection E as -> -> ->. auto.
Qed.

Section Box.
Variables min max : Coord3D.t Qc.
Hypothesis HX : Coord3D.X min < Coord3D.X max.
Hypothesis HY : Coord3D.Y min < Coord3D.Y max.
Hypothesis HZ : Coord3D.Z min < Coord3D.Z max.

Lemma Qc_lt_eq_bool (x y : Qc) :
  x < y -> Qc_eq_bool x y = false /\ Qc_eq_bool y x = false.
Proof.
  intros Hlt. split; apply Qc_eq_bool_false; intros E; subst;
    exact (Qclt_not_eq _ _ Hlt eq_refl).
Qed.

Lemma Qc_eq_bool_refl (x : Qc) : Qc_eq_bool x x = true.
Proof. now apply Qc_eq_bool_true. Qed.

(** Distinct indices name distinct corners. *)
Lemma place_eqb (c c' : Coord3D.t bool) :
  Coord3D.eqb (place min max c) (place min max c') = index_eqb c c'.
Proof.
  destruct (Qc_lt_eq_bool HX) as [X1 X2].
  destruct (Qc_lt_eq_bool HY) as [Y1 Y2].
  destruct (Qc_lt_eq_bool HZ) as [Z1 Z2].
  destruct c as [i j k], c' as [i' j' k']. unfold Coord3D.eqb, index_eqb, place.
  cbn [Coord3D.X Coord3D.Y Coord3D.Z feq exact.ops].
  f_equal; [f_equal |].
  - destruct i, i'; cbn; auto using Qc_eq_bool_refl.
  - destruct j, j'; cbn; auto using Qc_eq_bool_refl.
  - destruct k, k'; cbn; auto using Qc_eq_bool_refl.
Qed.

Lemma place_triangle_eqb (s s' : Triangle.t bool) :
  Triangle.eqb (place_triangle min max s) (place_triangle min max s')
  = index_triangle_eqb s s'.
Proof.
  destruct s as [[a b] c], s' as [[a' b'] c'].
  unfold Triangle.eqb, index_triangle_eqb, place_triangle.
  now rewrite !place_eqb.
Qed.

Lemma place_triangle_shared (s s' : Triangle.t bool) :
  Mesh.shared_corners (place_triangle min max s) (place_triangle min max s')
  = index_shared s s'.
Proof.
  destruct s as [[a b] c], s' as [[a' b'] c'].
  unfold Mesh.shared_corners, index_shared, place_triangle.
  cbn [Triangle.corners filter existsb]. rewrite !place_eqb.
  repeat match goal with
         | |- context [if ?b then _ else _] => destruct b
         end; reflexivity.
Qed.

Lemma place_triangle_adjacent (s s' : Triangle.t bool) :
  Mesh.adjacent (place_triangle min max s) (place_triangle min max s')
  = index_adjacent s s'.
Proof.
  unfold Mesh.adjacent, index_adjacent.
  now rewrite place_triangle_eqb, place_triangle_shared.
Qed.

Lemma place_triangle_inj (s s' : Triangle.t bool) :
  place_triangle min max s = place_triangle min max s' -> s = s'.
Proof.
  intros E. apply index_triangle_eqb_eq. rewrite <- place_triangle_eqb.
  now apply exact_Triangle_eqb_eq.
Qed.

Lemma NewMeshRect_place :
  Mesh.NewMeshRect min max = List.map (place_triangle min max) cube.
Proof. reflexivity. Qed.

Lemma pair_partner_place (l : Mesh.t bool) (s : Triangle.t bool) :
  pair_partner (List.map (place_triangle min max) l) (place_triangle min max s)
  = place_triangle min max (index_pair_partner l s).
Proof.
  assert (Hn : forall n (l0 : Mesh.t bool), (List.length l0 <= n)%nat ->
    pair_partner (List.map (place_triangle min max) l0)
      (place_triangle min max s)
    = place_triangle min max (index_pair_partner l0 s)).
  { clear l. induction n as [| n IH]; intros [| a [| b l]] Hl;
      try reflexivity;
      cbn [List.length] in Hl; try lia.
    cbn [List.map pair_partner index_pair_partner].
    rewrite !place_triangle_eqb.
    destruct (index_triangle_eqb s a); [reflexivity |].
    destruct (index_triangle_eqb s b); [reflexivity |].
    apply IH. lia. }
  now apply (Hn (List.length l)).
Qed.

End Box.

Lemma Qc_mult_pos (a b : Qc) : 0 < a -> 0 < b -> 0 < a * b.
Proof. intros Ha Hb. to_Q. nra. Qed.

Lemma normalize_axis (x y z u a b c : Qc) :
  0 < u -> x = a * u -> y = b * u -> z = c * u ->
  a * a + b * b + c * c = 1 ->
  let scale := Q2Qc (inject_Z 1) / exact.Sqrt (x * x + y * y + z * z) in
  Coord3D.mk (x * scale) (y * scale) (z * scale) = Coord3D.mk a b c.
Proof.
  intros Hu -> -> -> Habc scale.
  assert (E : a * u * (a * u) + b * u * (b * u) + c * u * (c * u) = u * u).
  { transitivity ((a * a + b * b + c * c) * (u * u)); [ring |].
    rewrite Habc. ring. }
  subst scale. rewrite E, exact_Sqrt_square by now apply Qclt_le_weak.
  assert (Hu' : ~ (u == 0)%Q).
  { intros E0. to_Q. lra. }
  apply Coord3D_eq; apply Qc_is_canon; to_Q; field; exact Hu'.
Qed.

Section BoxNormals.
Variables min max : Coord3D.t Qc.
Hypothesis HX : Coord3D.X min < Coord3D.X max.
Hypothesis HY : Coord3D.Y min < Coord3D.Y max.
Hypothesis HZ : Coord3D.Z min < Coord3D.Z max.

Lemma Normal_place (s : Triangle.t bool) :
  In s cube ->
  Triangle.Normal (place_triangle min max s) = index_normal s.
Proof.
  assert (Dx : 0 < Coord3D.X max - Coord3D.X min) by (to_Q; lra).
  assert (Dy : 0 < Coord3D.Y max - Coord3D.Y min) by (to_Q; lra).
  assert (Dz : 0 < Coord3D.Z max - Coord3D.Z min) by (to_Q; lra).
  assert (Dyz := Qc_mult_pos Dy Dz).
  assert (Dzx := Qc_mult_pos Dz Dx).
  assert (Dxy := Qc_mult_pos Dx Dy).
  intros Hs. cbn in Hs.
  repeat (destruct Hs as [<- | Hs]); [.. | contradiction].
  all: unfold index_normal, Triangle.Normal, place_triangle, place,
         Coord3D.Sub;
    cbn [Coord3D.X Coord3D.Y Coord3D.Z math_Sqrt exact.math]; exact_ops.
  all: first
    [ apply (normalize_axis Dyz);
        solve [apply Qc_is_canon; to_Q; ring]
    | apply (normalize_axis Dzx);
        solve [apply Qc_is_canon; to_Q; ring]
    | apply (normalize_axis Dxy);
        solve [apply Qc_is_canon; to_Q; ring] ].
Qed.

End BoxNormals.

(** What is computed once and for all on the indices: the triangles of
    the box are distinct, they come in pairs, and the adjacent coplanar
    triangle of each is the other one of its pair and no other. *)
Lemma cube_NoDup : NoDup cube.
Proof.
  unfold cube. cbn. repeat constructor; cbn; intuition discriminate.
Qed.

Lemma cube_pairs (s : Triangle.t bool) :
  In s cube ->
  In (index_pair_partner cube s) cube
  /\ index_pair_partner cube s <> s
  /\ index_pair_partner cube (index_pair_partner cube s) = s
  /\ index_adjacent s (index_pair_partner cube s)
     && index_coplanar s (index_pair_partner cube s) = true
  /\ (forall s', In s' cube ->
        index_adjacent s s' && index_coplanar s s' = true ->
        s' = index_pair_partner cube s).
Proof.
  intros Hs. cbn in Hs.
  repeat (destruct Hs as [<- | Hs]); [.. | contradiction].
  all: split; [vm_compute; tauto |].
  all: split; [vm_compute; discriminate |].
  all: split; [vm_compute; reflexivity |].
  all: split; [vm_compute; reflexivity |].
  all: intros s' Hs'; cbn in Hs';
    repeat (destruct Hs' as [<- | Hs']); [.. | contradiction];
    vm_compute; intros E; first [reflexivity | discriminate E].
Qed.

Lemma NoDup_map_injective {A C : Type} (f : A -> C) (l : list A) :
  (forall x y, f x = f y -> x = y) -> NoDup l -> NoDup (List.map f l).
Proof.
  intros Hf Hl. induction Hl as [| x l Hx Hl IH]; cbn; constructor.
  - intros Hin. apply in_map_iff in Hin as (y & E & Hy).
    apply Hf in E. now subst.
  - exact IH.
Qed.

Section BoxPairs.
Variables min max : Coord3D.t Qc.
Hypothesis HX : Coord3D.X min < Coord3D.X max.
Hypothesis HY : Coord3D.Y min < Coord3D.Y max.
Hypothesis HZ : Coord3D.Z min < Coord3D.Z max.

Let B : Mesh.t Qc := Mesh.NewMeshRect min max.
Let partner : Triangle.t Qc -> Triangle.t Qc := pair_partner B.

Lemma box_In (t : Triangle.t Qc) :
  In t B <-> exists s, In s cube /\ t = place_triangle min max s.
Proof.
  unfold B. rewrite NewMeshRect_place, in_map_iff.
  split; intros (s & H1 & H2); exists s; auto.
Qed.

Lemma box_partner (s : Triangle.t bool) :
  partner (place_triangle min max s)
  = place_triangle min max (index_pair_partner cube s).
Proof.
  unfold partner, B. rewrite NewMeshRect_place.
  now apply pair_partner_place.
Qed.

Lemma box_test (s s' : Triangle.t bool) :
  In s cube -> In s' cube ->
  Mesh.adjacent (place_triangle min max s) (place_triangle min max s')
  && RoomLayout.coplanar (place_triangle min max s)
       (place_triangle min max s')
  = index_adjacent s s' && index_coplanar s s'.
Proof.
  intros Hs Hs'. rewrite place_triangle_adjacent by assumption.
  unfold RoomLayout.coplanar, index_coplanar.
  now rewrite !Normal_place by assumption.
Qed.

Lemma box_NoDup : NoDup B.
Proof.
  unfold B. rewrite NewMeshRect_place.
  apply NoDup_map_injective; [| exact cube_NoDup].
  intros s s'. now apply place_triangle_inj.
Qed.

(** On a box with positive extent on every axis, whatever the order in
    which the triangles are enumerated, the loop of CreateBackdrop ends
    with the mesh empty and six panels, each made of a triangle and the
    adjacent coplanar one, every triangle of the box in one panel. *)
Lemma box_Iterate (order : list (Triangle.t Qc)) :
  Permutation order B ->
  exists walls,
    Mesh.Iterate order RoomLayout.backdrop_step (B, []) = Ok ([], walls)
    /\ Permutation (List.concat walls) B
    /\ Forall (fun w => exists t, In t B /\ w = [t; partner t]) walls
    /\ (2 * List.length walls = List.length B)%nat
    /\ (forall t, In t B ->
          In (partner t) B /\ Mesh.adjacent t (partner t) = true
          /\ RoomLayout.coplanar t (partner t) = true).
Proof.
  intros Hord.
  assert (Hin : forall t, In t B -> In (partner t) B).
  { intros t Ht. apply box_In in Ht as (s & Hs & ->).
    rewrite box_partner. apply box_In. eexists. split; [| reflexivity].
    now apply cube_pairs. }
  assert (Hco : forall t, In t B ->
            Mesh.adjacent t (partner t)
            && RoomLayout.coplanar t (partner t) = true).
  { intros t Ht. apply box_In in Ht as (s & Hs & ->).
    rewrite box_partner, box_test; [now apply cube_pairs | assumption |].
    now apply cube_pairs. }
  destruct (@Iterate_all_paired Qc _ _ exact_Triangle_eqb_eq B partner)
    with (order := order) as (walls & E & Hperm & Hall & Hlen);
    try assumption.
  - exact box_NoDup.
  - intros t Ht. apply box_In in Ht as (s & Hs & ->).
    rewrite box_partner. intros E. apply place_triangle_inj in E;
      try assumption.
    revert E. now apply cube_pairs.
  - intros t Ht. apply box_In in Ht as (s & Hs & ->).
    rewrite !box_partner. f_equal. now apply cube_pairs.
  - intros t n Ht Hn. apply box_In in Ht as (s & Hs & ->).
    apply box_In in Hn as (s' & Hs' & ->).
    rewrite box_partner, box_test by assumption.
    intros E. f_equal. now apply (cube_pairs Hs).
  - exists walls. repeat (split; [assumption |]).
    intros t Ht. split; [now apply Hin |].
    apply andb_true_iff. now apply Hco.
Qed.

End BoxPairs.





(** In binary64, for the room of width 1 and depth 10, with the triangles
    enumerated in the order of the box and in the reverse order: six
    panels of two triangles. *)
Lemma CreateBackdrop_binary64_1_10 :
  let r := RoomLayout.mk (f64 1 1) (f64 10 1) in
  (exists walls,
     RoomLayout.CreateBackdrop r (RoomLayout.backdrop_box r) = Ok walls
     /\ List.map (@List.length _) walls = [2; 2; 2; 2; 2; 2]%nat)
  /\ (exists walls,
        RoomLayout.CreateBackdrop r (rev (RoomLayout.backdrop_box r))
        = Ok walls
        /\ List.map (@List.length _) walls = [2; 2; 2; 2; 2; 2]%nat).
Proof.
  cbv zeta. split; eexists; (split; [vm_compute; reflexivity |]);
    reflexivity.
Qed.

(* ================================================================== *)
(** * Further properties of the code *)
(* ================================================================== *)

(** ** RandomSceneLayout *)

(** What RandomSceneLayout returns, when it is known to return. *)
Lemma RandomSceneLayout_Ok (s s' : Source Qc) (r : RoomLayout.t Qc) :
  (forall i, 0 <= float_draws s i /\ float_draws s i < 1) ->
  RandomSceneLayout s = Ok (r, s') ->
  s' = advance (advance s)
  /\ exact.lit 1 2 <= RoomLayout.Width r
  /\ RoomLayout.Width r < exact.lit 5 2
  /\ exact.lit 5 1 <= RoomLayout.Depth r
  /\ RoomLayout.Depth r < exact.lit 25 1.
Proof.
  intros Hs E. injection E as <- <-. split; [reflexivity |].
  destruct (Hs (cursor s)) as [H0 H1].
  destruct (Hs (S (cursor s))) as [H2 H3].
  cbn [RoomLayout.Width RoomLayout.Depth cursor advance float_draws].
  exact_ops. to_Q. repeat split; lra.
Qed.

(** X1: RandomSceneLayout always returns, after two calls of
    [rand.Float64()]; for answers in [0,1) the width it draws is between
    0.5 and 2.5 and the depth between 5 and 25, the ends included: in
    float64 the largest answer below 1 gives the width 2.5 itself. *)
Theorem RandomSceneLayout_ranges (s : Source Qc) :
  (forall i, 0 <= float_draws s i /\ float_draws s i < 1) ->
  exists r,
    RandomSceneLayout s = Ok (r, advance (advance s))
    /\ exact.lit 1 2 <= RoomLayout.Width r
    /\ RoomLayout.Width r <= exact.lit 5 2
    /\ exact.lit 5 1 <= RoomLayout.Depth r
    /\ RoomLayout.Depth r <= exact.lit 25 1.
Proof.
  intros Hs. eexists. split; [reflexivity |].
  destruct (@RandomSceneLayout_Ok s (advance (advance s)) _ Hs eq_refl)
    as (_ & HW0 & HW1 & HD0 & HD1).
  split; [exact HW0 |]. split; [apply Qclt_le_weak, HW1 |].
  split; [exact HD0 | apply Qclt_le_weak, HD1].
Qed.

(** In binary64, at the two ends of the range of [rand.Float64()]: the
    answer 0 gives the width 0.5 and the depth 5, the largest answer
    below 1 the width 2.5 and a depth just below 25. *)
Lemma RandomSceneLayout_ranges_binary64 :
  (exists s',
     RandomSceneLayout (constant_source (f64 0 1))
     = Ok (RoomLayout.mk (f64 1 2) (f64 5 1), s'))
  /\ (exists d s',
        RandomSceneLayout (constant_source (PrimFloat.next_down (f64 1 1)))
        = Ok (RoomLayout.mk (f64 5 2) d, s')
        /\ flt d (f64 25 1) = true).
Proof.
  split; [eexists; vm_compute; reflexivity |].
  eexists. eexists. split; vm_compute; reflexivity.
Qed.

Lemma RandomSceneLayout_ranges_witness :
  exists r,
    RandomSceneLayout (constant_source (exact.lit 1 2))
    = Ok (r, advance (advance (constant_source (exact.lit 1 2))))
    /\ exact.lit 1 2 <= RoomLayout.Width r.
Proof.
  destruct (@RandomSceneLayout_ranges (constant_source (exact.lit 1 2)))
    as (r & E & H & _).
  - intros i. cbn. split; [discriminate | reflexivity].
  - exists r. split; [exact E | exact H].
Defined.

(** X2: The camera of a layout that RandomSceneLayout draws: position and
    target are on the axis X = 0 at height 0.5; the position is strictly
    inside the room, 1e-5 from the near wall, the target on the far wall;
    they differ.  (Exact arithmetic.) *)
Theorem RandomSceneLayout_camera (s s' : Source Qc) (r : RoomLayout.t Qc) :
  (forall i, 0 <= float_draws s i /\ float_draws s i < 1) ->
  RandomSceneLayout s = Ok (r, s') ->
  let (position, target) := RoomLayout.CameraInfo r in
  Coord3D.X position = 0 /\ Coord3D.X target = 0
  /\ Coord3D.Z position = exact.lit 1 2 /\ Coord3D.Z target = exact.lit 1 2
  /\ - RoomLayout.Depth r / exact.lit 2 1 < Coord3D.Y position
  /\ Coord3D.Y position < Coord3D.Y target
  /\ Coord3D.Y target = RoomLayout.Depth r / exact.lit 2 1
  /\ exact.lit 499999 100000 <= Coord3D.Y target - Coord3D.Y position
  /\ position <> target.
Proof.
  intros Hs E.
  destruct (RandomSceneLayout_Ok Hs E) as (_ & _ & _ & HD & _).
  unfold RoomLayout.CameraInfo.
  cbn [Coord3D.X Coord3D.Y Coord3D.Z].
  assert (HY : - RoomLayout.Depth r / exact.lit 2 1 + exact.lit 1 100000
               < RoomLayout.Depth r / exact.lit 2 1).
  { to_Q. lra. }
  exact_ops.
  split; [reflexivity |]. split; [reflexivity |].
  split; [qc_compute |]. split; [qc_compute |].
  split; [to_Q; lra |]. split; [exact HY |]. split; [reflexivity |].
  split; [to_Q; lra |].
  intros Eq. apply (f_equal (@Coord3D.Y Qc)) in Eq. cbn [Coord3D.Y] in Eq.
  rewrite Eq in HY. exact (Qclt_not_eq _ _ HY eq_refl).
Qed.

Lemma RandomSceneLayout_camera_witness :
  fst (RoomLayout.CameraInfo
         (RoomLayout.mk (exact.lit 1 2 * exact.lit 2 1 + exact.lit 5 10)
                        (exact.lit 1 2 * exact.lit 20 1 + exact.lit 5 1)))
  <> snd (RoomLayout.CameraInfo
         (RoomLayout.mk (exact.lit 1 2 * exact.lit 2 1 + exact.lit 5 10)
                        (exact.lit 1 2 * exact.lit 20 1 + exact.lit 5 1))).
Proof.
  pose proof (@RandomSceneLayout_camera (constant_source (exact.lit 1 2))
                (advance (advance (constant_source (exact.lit 1 2))))
                (RoomLayout.mk
                   (exact.lit 1 2 * exact.lit 2 1 + exact.lit 5 10)
                   (exact.lit 1 2 * exact.lit 20 1 + exact.lit 5 1))) as P.
  destruct (RoomLayout.CameraInfo _) as [position target] eqn:E.
  cbn [fst snd]. apply P.
  - intros i. cbn. split; [discriminate | reflexivity].
  - reflexivity.
Defined.

(** ** RandomSceneLayout and CreateBackdrop *)

(** The walls of a room of positive width and depth, for any enumeration
    of the box. *)
Lemma CreateBackdrop_returns (r : RoomLayout.t Qc)
    (order : list (Triangle.t Qc)) :
  0 < RoomLayout.Width r -> 0 < RoomLayout.Depth r ->
  Permutation order (RoomLayout.backdrop_box r) ->
  exists walls,
    RoomLayout.CreateBackdrop r order = Ok walls
    /\ List.length walls = 6%nat
    /\ Forall (fun w => List.length w = 2%nat) walls
    /\ Permutation (List.concat walls) (RoomLayout.backdrop_box r).
Proof.
  intros HW HD Hord.
  destruct (@box_Iterate
              (Coord3D.mk (- RoomLayout.Width r / exact.lit 2 1)
                          (- RoomLayout.Depth r / exact.lit 2 1) 0)
              (Coord3D.mk (RoomLayout.Width r / exact.lit 2 1)
                          (RoomLayout.Depth r / exact.lit 2 1) 1))
    with (order := order) as (walls & E & Hperm & Hall & Hlen & _).
  - cbn [Coord3D.X]. to_Q. lra.
  - cbn [Coord3D.Y]. to_Q. lra.
  - reflexivity.
  - exact Hord.
  - exists walls. split.
    { unfold RoomLayout.CreateBackdrop.
      change (RoomLayout.backdrop_box r) with
        (Mesh.NewMeshRect
           (Coord3D.mk (- RoomLayout.Width r / exact.lit 2 1)
                       (- RoomLayout.Depth r / exact.lit 2 1) 0)
           (Coord3D.mk (RoomLayout.Width r / exact.lit 2 1)
                       (RoomLayout.Depth r / exact.lit 2 1) 1)).
      now rewrite E. }
    split; [cbn in Hlen; lia |].
    split; [| exact Hperm].
    eapply Forall_impl; [| exact Hall]. now intros w (t & _ & ->).
Qed.

(** X3: Every layout that RandomSceneLayout draws has a backdrop: whatever
    the order in which the box is enumerated, CreateBackdrop returns six
    walls of two triangles that together are the twelve triangles of the
    box.  (Exact arithmetic.) *)
Theorem RandomSceneLayout_backdrop (s s' : Source Qc) (r : RoomLayout.t Qc)
    (order : list (Triangle.t Qc)) :
  (forall i, 0 <= float_draws s i /\ float_draws s i < 1) ->
  RandomSceneLayout s = Ok (r, s') ->
  Permutation order (RoomLayout.backdrop_box r) ->
  exists walls,
    RoomLayout.CreateBackdrop r order = Ok walls
    /\ List.length walls = 6%nat
    /\ Forall (fun w => List.length w = 2%nat) walls
    /\ Permutation (List.concat walls) (RoomLayout.backdrop_box r).
Proof.
  intros Hs E Hord.
  destruct (RandomSceneLayout_Ok Hs E) as (_ & HW & _ & HD & _).
  apply CreateBackdrop_returns; [| | exact Hord].
  - eapply Qclt_le_trans; [| exact HW]. reflexivity.
  - eapply Qclt_le_trans; [| exact HD]. reflexivity.
Qed.

Lemma RandomSceneLayout_backdrop_witness :
  exists walls,
    RoomLayout.CreateBackdrop
      (RoomLayout.mk (exact.lit 1 2 * exact.lit 2 1 + exact.lit 5 10)
                     (exact.lit 1 2 * exact.lit 20 1 + exact.lit 5 1))
      (rev (RoomLayout.backdrop_box
         (RoomLayout.mk (exact.lit 1 2 * exact.lit 2 1 + exact.lit 5 10)
                        (exact.lit 1 2 * exact.lit 20 1 + exact.lit 5 1))))
    = Ok walls
    /\ List.length walls = 6%nat.
Proof.
  destruct (@RandomSceneLayout_backdrop (constant_source (exact.lit 1 2))
              (advance (advance (constant_source (exact.lit 1 2))))
              (RoomLayout.mk
                 (exact.lit 1 2 * exact.lit 2 1 + exact.lit 5 10)
                 (exact.lit 1 2 * exact.lit 20 1 + exact.lit 5 1))
              (rev (RoomLayout.backdrop_box
                 (RoomLayout.mk
                    (exact.lit 1 2 * exact.lit 2 1 + exact.lit 5 10)
                    (exact.lit 1 2 * exact.lit 20 1 + exact.lit 5 1)))))
    as (walls & E & Hlen & _).
  - intros i. cbn. split; [discriminate | reflexivity].
  - reflexivity.
  - apply Permutation_sym, Permutation_rev.
  - exists walls. split; [exact E | exact Hlen].
Defined.

(** ** CreateLight *)

Lemma centre_range (u w : Qc) :
  0 <= u /\ u < 1 -> 0 < w ->
  - (w / exact.lit 2 1) <= (u - exact.lit 5 10) * w
  /\ (u - exact.lit 5 10) * w <= w / exact.lit 2 1.
Proof. intros [H0 H1] Hw. to_Q. split; nra. Qed.

Lemma radius_range (u : Qc) :
  0 <= u /\ u < 1 ->
  exact.lit 5 100 <= u * exact.lit 2 10 + exact.lit 5 100
  /\ u * exact.lit 2 10 + exact.lit 5 100 <= exact.lit 25 100.
Proof. intros [H0 H1]. to_Q. split; lra. Qed.

Lemma size_range (u : Qc) :
  0 <= u /\ u < 1 ->
  exact.lit 5 100 <= u * exact.lit 1 10 + exact.lit 5 100
  /\ u * exact.lit 1 10 + exact.lit 5 100 <= exact.lit 15 100.
Proof. intros [H0 H1]. to_Q. split; lra. Qed.

Lemma height_range (u : Qc) :
  0 <= u /\ u < 1 ->
  0 <= u * exact.lit 9 10 /\ u * exact.lit 9 10 <= exact.lit 9 10.
Proof. intros [H0 H1]. to_Q. split; lra. Qed.

Lemma emission_range (u : Qc) :
  0 <= u /\ u < 1 ->
  exact.lit 1 1 <= (u + exact.lit 1 10) * exact.lit 10 1
  /\ (u + exact.lit 1 10) * exact.lit 10 1 <= exact.lit 11 1.
Proof. intros [H0 H1]. to_Q. split; lra. Qed.

(** What CreateLight builds: a sphere or a box around a centre on the
    ceiling or on a side wall, with an emission color of three equal
    channels. *)
Lemma CreateLight_Ok (Ext : Type) (r : RoomLayout.t Qc) (s : Source Qc) :
  0 < RoomLayout.Width r -> 0 < RoomLayout.Depth r ->
  (forall i, 0 <= float_draws s i /\ float_draws s i < 1) ->
  exists shape center e s',
    RoomLayout.CreateLight (Ext := Ext) r s
    = Ok (ColliderObject shape (Coord3D.mk e e e), s')
    /\ ((exists radius,
           shape = Sphere center radius
           /\ (exact.lit 5 100 <= radius /\ radius <= exact.lit 25 100))
        \/ (exists size,
              shape = Rect (Coord3D.Sub center size)
                           (Coord3D.Add center size)
              /\ (exact.lit 5 100 <= Coord3D.X size
                  /\ Coord3D.X size <= exact.lit 15 100)
              /\ (exact.lit 5 100 <= Coord3D.Y size
                  /\ Coord3D.Y size <= exact.lit 15 100)
              /\ (exact.lit 5 100 <= Coord3D.Z size
                  /\ Coord3D.Z size <= exact.lit 15 100)))
    /\ (- (RoomLayout.Depth r / exact.lit 2 1) <= Coord3D.Y center
        /\ Coord3D.Y center <= RoomLayout.Depth r / exact.lit 2 1)
    /\ ((Coord3D.Z center = exact.lit 1 1
         /\ (- (RoomLayout.Width r / exact.lit 2 1) <= Coord3D.X center
             /\ Coord3D.X center <= RoomLayout.Width r / exact.lit 2 1))
        \/ ((Coord3D.X center = RoomLayout.Width r / exact.lit 2 1
             \/ Coord3D.X center = - (RoomLayout.Width r / exact.lit 2 1))
            /\ (0 <= Coord3D.Z center
                /\ Coord3D.Z center <= exact.lit 9 10)))
    /\ (exact.lit 1 1 <= e /\ e <= exact.lit 11 1).
Proof.
  intros HW HD Hs. destruct s as [fd id nd c]. cbn [float_draws] in Hs.
  unfold RoomLayout.CreateLight, bind, rand_Intn, rand_Float64,
    uniformRandom, bind, rand_Float64, ret, NewColor.
  cbn [Z.ltb Z.compare Pos.compare cursor advance float_draws int_draws].
  destruct (id c mod 2 =? 0)%Z;
    cbn [cursor advance float_draws int_draws];
    repeat match goal with
           | |- context [if (?a =? 0)%Z then _ else _] =>
               destruct (a =? 0)%Z;
               cbn [cursor advance float_draws int_draws]
           end;
    (eexists; eexists; eexists; eexists; split; [reflexivity |]).
  all: split;
    [ first
        [ left; eexists; split; [reflexivity |];
          exact_ops; apply radius_range, Hs
        | right; eexists; split; [reflexivity |];
          cbn [Coord3D.X Coord3D.Y Coord3D.Z Coord3D.Scale Coord3D.Add];
          exact_ops;
          (split; [apply size_range, Hs |]);
          (split; [apply size_range, Hs |]);
          apply size_range, Hs ]
    | ].
  all: cbn [Coord3D.X Coord3D.Y Coord3D.Z]; exact_ops.
  all: split; [apply centre_range; [apply Hs | assumption] |].
  all: split; [| apply emission_range, Hs].
  all: match goal with
       | |- (exact.lit 1 1 = exact.lit 1 1 /\ _) \/ _ =>
           left; split; [reflexivity |];
           apply centre_range; [apply Hs | assumption]
       | |- _ \/ ((?a = ?a \/ _) /\ _) =>
           right; split; [left; reflexivity | apply height_range, Hs]
       | |- _ \/ ((_ \/ ?a = ?a) /\ _) =>
           right; split; [right; reflexivity | apply height_range, Hs]
       end.
Qed.

(** X4: A light that CreateLight makes in a room of a width between 0.5
    and 2.5 and a depth between 5 and 25: its emission color has three
    equal channels, between 1 and 11; it is a sphere of a radius between
    0.05 and 0.25, or a box that reaches between 0.05 and 0.15 from its
    centre on every axis; the centre is within the depth of the room,
    and either on the ceiling Z = 1 within the width of the room, or on
    one of the side walls X = Width/2 and X = -Width/2 at a height
    between 0 and 0.9.  All ranges include their ends. *)
Theorem CreateLight_on_ceiling_or_wall (Ext : Type) (r : RoomLayout.t Qc)
    (s : Source Qc) :
  exact.lit 1 2 <= RoomLayout.Width r /\ RoomLayout.Width r <= exact.lit 5 2 ->
  exact.lit 5 1 <= RoomLayout.Depth r /\ RoomLayout.Depth r <= exact.lit 25 1 ->
  (forall i, 0 <= float_draws s i /\ float_draws s i < 1) ->
  exists shape center e s',
    RoomLayout.CreateLight (Ext := Ext) r s
    = Ok (ColliderObject shape (NewColor e), s')
    /\ (exact.lit 1 1 <= e /\ e <= exact.lit 11 1)
    /\ ((exists radius,
           shape = Sphere center radius
           /\ (exact.lit 5 100 <= radius /\ radius <= exact.lit 25 100))
        \/ (exists size,
              shape = Rect (Coord3D.Sub center size)
                           (Coord3D.Add center size)
              /\ (exact.lit 5 100 <= Coord3D.X size
                  /\ Coord3D.X size <= exact.lit 15 100)
              /\ (exact.lit 5 100 <= Coord3D.Y size
                  /\ Coord3D.Y size <= exact.lit 15 100)
              /\ (exact.lit 5 100 <= Coord3D.Z size
                  /\ Coord3D.Z size <= exact.lit 15 100)))
    /\ (- (RoomLayout.Depth r / exact.lit 2 1) <= Coord3D.Y center
        /\ Coord3D.Y center <= RoomLayout.Depth r / exact.lit 2 1)
    /\ ((Coord3D.Z center = exact.lit 1 1
         /\ (- (RoomLayout.Width r / exact.lit 2 1) <= Coord3D.X center
             /\ Coord3D.X center <= RoomLayout.Width r / exact.lit 2 1))
        \/ ((Coord3D.X center = RoomLayout.Width r / exact.lit 2 1
             \/ Coord3D.X center = - (RoomLayout.Width r / exact.lit 2 1))
            /\ (0 <= Coord3D.Z center
                /\ Coord3D.Z center <= exact.lit 9 10))).
Proof.
  intros [HW _] [HD _] Hs.
  assert (HW0 : 0 < RoomLayout.Width r).
  { eapply Qclt_le_trans; [| exact HW]. reflexivity. }
  assert (HD0 : 0 < RoomLayout.Depth r).
  { eapply Qclt_le_trans; [| exact HD]. reflexivity. }
  destruct (@CreateLight_Ok Ext r s HW0 HD0 Hs)
    as (shape & center & e & s' & E & Hshape & Hy & Hc & He).
  exists shape, center, e, s'.
  split; [exact E |]. split; [exact He |]. split; [exact Hshape |].
  split; [exact Hy | exact Hc].
Qed.

Lemma CreateLight_on_ceiling_or_wall_witness :
  exists shape e s',
    RoomLayout.CreateLight (Ext := unit) room_1_10
      (constant_source (exact.lit 1 2))
    = Ok (ColliderObject shape (NewColor e), s')
    /\ (exact.lit 1 1 <= e /\ e <= exact.lit 11 1).
Proof.
  destruct (@CreateLight_on_ceiling_or_wall unit room_1_10
              (constant_source (exact.lit 1 2)))
    as (shape & center & e & s' & E & He & _).
  - split; discriminate.
  - split; discriminate.
  - intros i. cbn. split; [discriminate | reflexivity].
  - exists shape, e, s'. split; [exact E | exact He].
Defined.

(** In binary64, in the largest room, for the largest answer below 1 of
    [rand.Float64()]: a sphere on the ceiling of the radius 0.25, with an
    emission just below 11; and a box on a side wall that reaches 0.15
    from its centre. *)
Lemma CreateLight_binary64_largest_answer :
  let r := RoomLayout.mk (f64 5 2) (f64 25 1) in
  let u := PrimFloat.next_down (f64 1 1) in
  (exists center e s',
     RoomLayout.CreateLight (Ext := unit) r (constant_source u)
     = Ok (ColliderObject (Sphere center (f64 25 100)) (NewColor e), s')
     /\ fle e (f64 11 1) = true
     /\ Coord3D.Z center = f64 1 1
     /\ fle (Coord3D.X center) (fdiv (RoomLayout.Width r) (f64 2 1)) = true)
  /\ (exists center size e s',
        RoomLayout.CreateLight (Ext := unit) r
          {| float_draws := fun _ => u; int_draws := fun _ => 1%Z;
             norm_draws := fun _ => f64 0 1; cursor := 0 |}
        = Ok (ColliderObject (Rect (Coord3D.Sub center size)
                                   (Coord3D.Add center size))
                             (NewColor e), s')
        /\ size = Coord3D.mk (f64 15 100) (f64 15 100) (f64 15 100)
        /\ Coord3D.X center = fdiv (RoomLayout.Width r) (f64 2 1)
        /\ fle (Coord3D.Z center) (f64 9 10) = true).
Proof.
  cbv zeta. split.
  - eexists. eexists. eexists. split; [vm_compute; reflexivity |].
    repeat split; vm_compute; reflexivity.
  - exists (Coord3D.mk (fdiv (f64 5 2) (f64 2 1))
              (fmul (fsub (PrimFloat.next_down (f64 1 1)) (f64 5 10))
                    (f64 25 1))
              (fmul (PrimFloat.next_down (f64 1 1)) (f64 9 10))),
      (Coord3D.mk (f64 15 100) (f64 15 100) (f64 15 100)).
    eexists. eexists. split; [vm_compute; reflexivity |].
    repeat split; vm_compute; reflexivity.
Qed.

(** X5: No light is inside the room: in a room of a width between 0.5
    and 2.5 and a depth between 5 and 25, the bounds of a light that
    CreateLight makes reach, on both sides, across the plane of the
    ceiling or of a side wall. *)
Theorem CreateLight_crosses_wall (Ext : Type) (r : RoomLayout.t Qc)
    (s : Source Qc) :
  exact.lit 1 2 <= RoomLayout.Width r /\ RoomLayout.Width r <= exact.lit 5 2 ->
  exact.lit 5 1 <= RoomLayout.Depth r /\ RoomLayout.Depth r <= exact.lit 25 1 ->
  (forall i, 0 <= float_draws s i /\ float_draws s i < 1) ->
  exists shape color s',
    RoomLayout.CreateLight (Ext := Ext) r s
    = Ok (ColliderObject shape color, s')
    /\ let lo := Collider_Min shape in
       let hi := Collider_Max shape in
       (Coord3D.Z lo < exact.lit 1 1 /\ exact.lit 1 1 < Coord3D.Z hi)
       \/ (Coord3D.X lo < RoomLayout.Width r / exact.lit 2 1
           /\ RoomLayout.Width r / exact.lit 2 1 < Coord3D.X hi)
       \/ (Coord3D.X lo < - (RoomLayout.Width r / exact.lit 2 1)
           /\ - (RoomLayout.Width r / exact.lit 2 1) < Coord3D.X hi).
Proof.
  intros [HW _] [HD _] Hs.
  assert (HW0 : 0 < RoomLayout.Width r).
  { eapply Qclt_le_trans; [| exact HW]. reflexivity. }
  assert (HD0 : 0 < RoomLayout.Depth r).
  { eapply Qclt_le_trans; [| exact HD]. reflexivity. }
  destruct (@CreateLight_Ok Ext r s HW0 HD0 Hs)
    as (shape & center & e & s' & E & Hshape & _ & Hc & _).
  exists shape, (Coord3D.mk e e e), s'. split; [exact E |].
  cbv zeta. clear E Hs HW HD HW0 HD0.
  assert (Hreach : exists half,
            Collider_Min shape = Coord3D.Sub center half
            /\ Collider_Max shape = Coord3D.Add center half
            /\ exact.lit 5 100 <= Coord3D.X half
            /\ exact.lit 5 100 <= Coord3D.Z half).
  { destruct Hshape as [(radius & -> & Hr & _)
                       | (size & -> & [Hx _] & _ & [Hz _])].
    - exists (Coord3D.mk radius radius radius). now repeat split.
    - exists size. now repeat split. }
  destruct Hreach as (half & -> & -> & Hx & Hz). clear Hshape.
  destruct center as [cx cy cz], half as [hx hy hz].
  cbn [Coord3D.X Coord3D.Y Coord3D.Z Coord3D.Add Coord3D.Sub] in *.
  exact_ops.
  destruct Hc as [[Ez _] | [[Ex | Ex] _]].
  - left. rewrite Ez. clear - Hz. to_Q. split; lra.
  - right; left. rewrite Ex. clear - Hx. to_Q. split; lra.
  - right; right. rewrite Ex. clear - Hx. to_Q. split; lra.
Qed.

Lemma CreateLight_crosses_wall_witness :
  exists shape color s',
    RoomLayout.CreateLight (Ext := unit) room_1_10
      (constant_source (exact.lit 1 2))
    = Ok (ColliderObject shape color, s')
    /\ ((Coord3D.Z (Collider_Min shape) < exact.lit 1 1
         /\ exact.lit 1 1 < Coord3D.Z (Collider_Max shape))
        \/ (Coord3D.X (Collider_Min shape)
            < RoomLayout.Width room_1_10 / exact.lit 2 1
            /\ RoomLayout.Width room_1_10 / exact.lit 2 1
               < Coord3D.X (Collider_Max shape))
        \/ (Coord3D.X (Collider_Min shape)
            < - (RoomLayout.Width room_1_10 / exact.lit 2 1)
            /\ - (RoomLayout.Width room_1_10 / exact.lit 2 1)
               < Coord3D.X (Collider_Max shape))).
Proof.
  apply (@CreateLight_crosses_wall unit room_1_10
           (constant_source (exact.lit 1 2))).
  - split; discriminate.
  - split; discriminate.
  - intros i. cbn. split; [discriminate | reflexivity].
Defined.

(** ** RandomScene: the objects of a scene *)

Section RandomSceneObjects.
Context {F : Type} `{Float64 F} `{GoMath F}.
Variable Ext : Type.
Variable RandomizeMaterial : Mesh.t F -> list string -> M F Ext.
Variable ReadOFF : string -> option (list (Triangle.t F)).
Variable NewCoord3DRandUnit : M F (Coord3D.t F).
Variable NewMatrix3Rotation : Coord3D.t F -> F -> Coord3D.t F -> Coord3D.t F.
Variable backdrop_order : RoomLayout.t F -> list (Triangle.t F).

(** The first loop appends one object per wall. *)
Lemma walls_loop_appends (images : list string) (walls : list (Mesh.t F))
    (objs objs' : list (Object F Ext)) (s s' : Source F) :
  rangeM walls (add_wall RandomizeMaterial images) objs s = Ok (objs', s') ->
  exists made,
    objs' = objs ++ List.map External made
    /\ List.length made = List.length walls.
Proof.
  revert objs s. induction walls as [| w walls IH]; intros objs s E.
  - injection E as <- _. exists []. cbn. now rewrite app_nil_r.
  - cbn [rangeM] in E. apply bind_Ok in E as (objs1 & s1 & E1 & E).
    unfold add_wall in E1. apply bind_Ok in E1 as (o & s0 & _ & E1).
    injection E1 as <- _.
    apply IH in E as (made & -> & Hlen).
    exists (o :: made). cbn. rewrite <- app_assoc. split; [reflexivity | lia].
Qed.

(** With no model to choose from, the body of the second loop panics at
    [rand.Intn(len(models))]. *)
Lemma add_object_no_models (layout : RoomLayout.t F) (images : list string)
    (objs : list (Object F Ext)) (s : Source F) :
  add_object RandomizeMaterial ReadOFF NewCoord3DRandUnit NewMatrix3Rotation
    layout [] images objs s
  = Panic "invalid argument to Intn".
Proof. reflexivity. Qed.

(** The second loop appends one object per round. *)
Lemma objects_loop_appends (layout : RoomLayout.t F)
    (models images : list string) (n : nat)
    (objs objs' : list (Object F Ext)) (s s' : Source F) :
  repeatM n (add_object RandomizeMaterial ReadOFF NewCoord3DRandUnit
               NewMatrix3Rotation layout models images) objs s
  = Ok (objs', s') ->
  exists made,
    objs' = objs ++ List.map External made
    /\ List.length made = n
    /\ (n <> 0%nat -> models <> []).
Proof.
  revert objs s. induction n as [| n IH]; intros objs s E.
  - injection E as <- _. exists []. cbn. now rewrite app_nil_r.
  - cbn [repeatM] in E. apply bind_Ok in E as (objs1 & s1 & E1 & E).
    assert (Hm : models <> []).
    { intros ->. rewrite add_object_no_models in E1. discriminate. }
    unfold add_object in E1.
    apply bind_Ok in E1 as (i & s2 & _ & E1).
    apply bind_Ok in E1 as (path & s3 & _ & E1).
    apply bind_Ok in E1 as (tris & s4 & _ & E1).
    apply bind_Ok in E1 as (axis & s5 & _ & E1).
    apply bind_Ok in E1 as (a & s6 & _ & E1).
    apply bind_Ok in E1 as (mesh & s7 & _ & E1).
    apply bind_Ok in E1 as (o & s8 & _ & E1).
    injection E1 as <- _.
    apply IH in E as (made & -> & Hlen & _).
    exists (o :: made). cbn. rewrite <- app_assoc.
    split; [reflexivity |]. split; [lia | now intros _].
Qed.

(** The third loop appends one collider per round. *)
Lemma lights_loop_objects (layout : RoomLayout.t F) (numLights : Z)
    (n : nat) (st st' : lights_state Ext) (s s' : Source F) :
  repeatM n (add_light layout numLights) st s = Ok (st', s') ->
  exists lights,
    objects st' = objects st ++ lights
    /\ List.length lights = n
    /\ Forall (fun o => exists shape color, o = ColliderObject shape color)
              lights.
Proof.
  revert st s. induction n as [| n IH]; intros st s E.
  - injection E as <- _. exists []. cbn. now rewrite app_nil_r.
  - cbn [repeatM] in E. apply bind_Ok in E as (st1 & s1 & E1 & E).
    unfold add_light in E1. apply bind_Ok in E1 as (light & s0 & _ & E1).
    destruct light as [shape color | o]; [| discriminate].
    injection E1 as <- _.
    apply IH in E as (lights & -> & Hlen & Hall).
    exists (ColliderObject shape color :: lights).
    cbn [objects]. rewrite <- app_assoc.
    split; [reflexivity |]. split; [cbn; lia |].
    constructor; [now exists shape, color | exact Hall].
Qed.

(** The third loop returns whatever the source answers. *)
Lemma lights_loop_returns (layout : RoomLayout.t F) (numLights : Z)
    (n : nat) (st : lights_state Ext) (s : Source F) :
  exists st' s', repeatM n (add_light layout numLights) st s = Ok (st', s').
Proof.
  destruct (lights_loop_appends layout numLights n st s)
    as (st' & s' & E & _).
  now exists st', s'.
Qed.

(** X6: RandomScene panics on an empty list of models, whatever the source
    answers and whatever the calls into other files do: it draws at least
    one object, and [rand.Intn(len(models))] is then called with 0. *)
Theorem RandomScene_no_models (images : list string) (s : Source F) :
  exists msg,
    RandomScene RandomizeMaterial ReadOFF NewCoord3DRandUnit
      NewMatrix3Rotation backdrop_order [] images s
    = Panic msg.
Proof.
  destruct (RandomScene RandomizeMaterial ReadOFF NewCoord3DRandUnit
              NewMatrix3Rotation backdrop_order [] images s)
    as [[[objs tracer] s'] | msg] eqn:E; [| now exists msg].
  exfalso. unfold RandomScene in E.
  apply bind_Ok in E as (layout & s1 & _ & E).
  apply bind_Ok in E as (n1 & s2 & E2 & E).
  apply bind_Ok in E as (n2 & s3 & _ & E).
  apply bind_Ok in E as (walls & s4 & _ & E).
  apply bind_Ok in E as (objs1 & s5 & _ & E).
  apply bind_Ok in E as (objs2 & s6 & E6 & _).
  apply rand_Intn_Ok in E2 as [E2 _]. injection E2 as -> _.
  apply objects_loop_appends in E6 as (_ & _ & _ & Hm).
  apply Hm; [| reflexivity].
  pose proof (Z.mod_pos_bound (int_draws s1 (cursor s1)) 10). lia.
Qed.

(** The stages RandomScene has gone through when it returns. *)
Lemma RandomScene_Ok (models images : list string) (s s' : Source F)
    (objs : list (Object F Ext)) (tracer : RecursiveRayTracer F) :
  RandomScene RandomizeMaterial ReadOFF NewCoord3DRandUnit
    NewMatrix3Rotation backdrop_order models images s
  = Ok ((objs, tracer), s') ->
  let layout :=
    RoomLayout.mk
      (fadd (fmul (float_draws s (cursor s)) (flit 2 1)) (flit 5 10))
      (fadd (fmul (float_draws s (S (cursor s))) (flit 20 1)) (flit 5 1)) in
  let numObjects := (int_draws s (S (S (cursor s))) mod 10 + 1)%Z in
  let numLights := (int_draws s (S (S (S (cursor s)))) mod 5 + 1)%Z in
  exists walls objs1 objs2 st s4 s5 s6 s7,
    RoomLayout.CreateBackdrop layout (backdrop_order layout) = Ok walls
    /\ rangeM walls (add_wall RandomizeMaterial images) [] s4
       = Ok (objs1, s5)
    /\ repeatM (Z.to_nat numObjects)
         (add_object RandomizeMaterial ReadOFF NewCoord3DRandUnit
            NewMatrix3Rotation layout models images) objs1 s5
       = Ok (objs2, s6)
    /\ repeatM (Z.to_nat numLights) (add_light layout numLights)
         {| objects := objs2; focusPoints := []; focusProbs := [] |} s6
       = Ok (st, s7)
    /\ objs = objects st
    /\ FocusPoints tracer = focusPoints st.
Proof.
  intros E layout numObjects numLights.
  unfold RandomScene in E.
  apply bind_Ok in E as (layout0 & s1 & E1 & E).
  apply bind_Ok in E as (n1 & s2 & E2 & E).
  apply bind_Ok in E as (n2 & s3 & E3 & E).
  apply bind_Ok in E as (walls & s4 & E4 & E).
  apply bind_Ok in E as (objs1 & s5 & E5 & E).
  apply bind_Ok in E as (objs2 & s6 & E6 & E).
  apply bind_Ok in E as (st & s7 & E7 & E).
  injection E1 as El Es1. subst s1.
  apply rand_Intn_Ok in E2 as [E2 _]. injection E2 as En1 Es2. subst n1 s2.
  apply rand_Intn_Ok in E3 as [E3 _]. injection E3 as En2 Es3. subst n2 s3.
  cbn [cursor advance int_draws float_draws] in *.
  fold numObjects in E6. fold numLights in E7.
  assert (Elay : layout0 = layout) by (now subst layout0). subst layout0.
  rewrite Elay in *. clear Elay.
  destruct (CameraInfo layout) as [origin target] eqn:Ecam.
  apply bind_Ok in E as (f & s8 & _ & E).
  injection E as Eo Et Es. subst tracer objs. cbn [FocusPoints].
  cbn [CreateBackdrop RoomLayout_SceneLayout] in E4.
  destruct (RoomLayout.CreateBackdrop layout (backdrop_order layout))
    as [ws | msg] eqn:Eb; [| discriminate].
  injection E4 as <- <-.
  exists ws, objs1, objs2, st. eexists. eexists. eexists. eexists.
  split; [reflexivity |]. split; [exact E5 |]. split; [exact E6 |].
  split; [exact E7 |]. split; reflexivity.
Qed.

(** X7: Whenever RandomScene returns, the objects it returns are, in this
    order: one per wall of the backdrop, one per model it placed
    (between 1 and 10), and one collider per light (between 1 and 5);
    the models it chose from were not empty. *)
Theorem RandomScene_objects (models images : list string) (s s' : Source F)
    (objs : list (Object F Ext)) (tracer : RecursiveRayTracer F) :
  RandomScene RandomizeMaterial ReadOFF NewCoord3DRandUnit
    NewMatrix3Rotation backdrop_order models images s
  = Ok ((objs, tracer), s') ->
  let layout :=
    RoomLayout.mk
      (fadd (fmul (float_draws s (cursor s)) (flit 2 1)) (flit 5 10))
      (fadd (fmul (float_draws s (S (cursor s))) (flit 20 1)) (flit 5 1)) in
  let numObjects := (int_draws s (S (S (cursor s))) mod 10 + 1)%Z in
  let numLights := (int_draws s (S (S (S (cursor s)))) mod 5 + 1)%Z in
  (1 <= numObjects <= 10)%Z /\ (1 <= numLights <= 5)%Z
  /\ models <> []
  /\ exists walls placed lights,
       RoomLayout.CreateBackdrop layout (backdrop_order layout) = Ok walls
       /\ objs = List.map External placed ++ lights
       /\ List.length placed
          = (List.length walls + Z.to_nat numObjects)%nat
       /\ List.length lights = Z.to_nat numLights
       /\ Forall (fun o => exists shape color, o = ColliderObject shape color)
                 lights
       /\ List.length (FocusPoints tracer) = List.length lights.
Proof.
  intros E layout numObjects numLights.
  destruct (RandomScene_Ok _ _ _ E)
    as (walls & objs1 & objs2 & st & s4 & s5 & s6 & s7
        & Eb & E5 & E6 & E7 & -> & Ef).
  fold layout in Eb, E6, E7. fold numObjects in E6. fold numLights in E7.
  assert (Ho : (1 <= numObjects <= 10)%Z).
  { subst numObjects.
    pose proof (Z.mod_pos_bound (int_draws s (S (S (cursor s)))) 10). lia. }
  assert (Hl : (1 <= numLights <= 5)%Z).
  { subst numLights.
    pose proof (Z.mod_pos_bound (int_draws s (S (S (S (cursor s))))) 5).
    lia. }
  split; [exact Ho |]. split; [exact Hl |].
  apply walls_loop_appends in E5 as (made1 & -> & Hlen1).
  apply objects_loop_appends in E6 as (made2 & -> & Hlen2 & Hm).
  split; [apply Hm; lia |].
  destruct (lights_loop_appends layout numLights (Z.to_nat numLights)
              {| objects := ([] ++ List.map External made1)
                            ++ List.map External made2;
                 focusPoints := []; focusProbs := [] |} s6)
    as (st' & s7' & E7' & _ & Hf).
  rewrite E7 in E7'. injection E7' as <- _.
  apply lights_loop_objects in E7 as (lights & Hobjs & Hlen3 & Hall).
  exists walls, (made1 ++ made2), lights.
  split; [exact Eb |].
  split; [rewrite Hobjs; cbn [objects app]; now rewrite map_app |].
  split; [rewrite length_app; lia |].
  split; [exact Hlen3 |]. split; [exact Hall |].
  rewrite Ef, Hf, Hlen3. reflexivity.
Qed.

End RandomSceneObjects.

(** A run in binary64 in which every model file holds one triangle and
    materials and rotations do nothing: six walls and three models, then
    four lights. *)
Lemma RandomScene_objects_witness :
  exists objs tracer s',
    RandomScene (fun _ _ => ret tt)
      (fun _ => Some [corner_triangle (f64 0 1) (f64 1 1)])
      (ret (Coord3D.mk (f64 0 1) (f64 0 1) (f64 1 1)))
      (fun _ _ c => c)
      RoomLayout.backdrop_box
      ["model.off"%string] [] counting_source
    = Ok ((objs, tracer), s')
    /\ exists placed lights,
         objs = List.map External placed ++ lights
         /\ List.length placed = 9%nat
         /\ List.length lights = 4%nat.
Proof.
  eexists. eexists. eexists.
  match goal with
  | |- ?A /\ _ => assert (E : A) by (vm_compute; reflexivity)
  end.
  split; [exact E |].
  destruct (RandomScene_objects _ _ _ _ _ _ _ _ E)
    as (_ & _ & _ & walls & placed & lights & Eb & Eo & Hp & Hl & _).
  exists placed, lights. split; [exact Eo |].
  assert (Ew : List.length walls = 6%nat).
  { assert (Eb' : exists ws,
              RoomLayout.CreateBackdrop
                (RoomLayout.mk
                   (fadd (fmul (float_draws counting_source
                                  (cursor counting_source)) (flit 2 1))
                         (flit 5 10))
                   (fadd (fmul (float_draws counting_source
                                  (S (cursor counting_source))) (flit 20 1))
                         (flit 5 1)))
                (RoomLayout.backdrop_box
                   (RoomLayout.mk
                      (fadd (fmul (float_draws counting_source
                                     (cursor counting_source)) (flit 2 1))
                            (flit 5 10))
                      (fadd (fmul (float_draws counting_source
                                     (S (cursor counting_source)))
                                  (flit 20 1))
                            (flit 5 1))))
              = Ok ws /\ List.length ws = 6%nat).
    { eexists. split; vm_compute; reflexivity. }
    destruct Eb' as (ws & Eb' & Hws).
    rewrite Eb in Eb'. injection Eb' as ->. exact Hws. }
  split; [rewrite Hp, Ew; vm_compute; reflexivity |].
  rewrite Hl. vm_compute. reflexivity.
Defined.

(** ** RandomScene: the camera *)

Section KeepsDraws.
Context {F : Type} `{Float64 F} `{GoMath F}.

Lemma keeps_ret {A : Type} (a : A) : keeps_draws (F := F) (ret a).
Proof. intros s a' s' E. now injection E as _ <-. Qed.

Lemma keeps_bind {A B : Type} (m : M F A) (k : A -> M F B) :
  keeps_draws m -> (forall a, keeps_draws (k a)) -> keeps_draws (bind m k).
Proof.
  intros Hm Hk s b s' E. apply bind_Ok in E as (a & s1 & E1 & E2).
  rewrite (Hk a _ _ _ E2). exact (Hm _ _ _ E1).
Qed.

Lemma keeps_rand_Float64 : keeps_draws (F := F) rand_Float64.
Proof. intros s a s' E. now injection E as _ <-. Qed.

Lemma keeps_rand_Intn (n : Z) : keeps_draws (F := F) (rand_Intn n).
Proof.
  intros s a s' E. apply rand_Intn_Ok in E as [E _]. now injection E as _ ->.
Qed.

Lemma keeps_Must {A : Type} (r : option A) : keeps_draws (F := F) (Must r).
Proof.
  destruct r; [apply keeps_ret | intros s a s' E; discriminate].
Qed.

Lemma keeps_repeatM {S : Type} (n : nat) (body : S -> M F S) :
  (forall st, keeps_draws (body st)) ->
  forall st, keeps_draws (repeatM n body st).
Proof.
  intros Hb. induction n as [| n IH]; intros st; cbn [repeatM].
  - apply keeps_ret.
  - apply keeps_bind; [apply Hb | exact IH].
Qed.

Lemma keeps_rangeM {A S : Type} (l : list A) (body : S -> A -> M F S) :
  (forall st a, keeps_draws (body st a)) ->
  forall st, keeps_draws (rangeM l body st).
Proof.
  intros Hb. induction l as [| a l IH]; intros st; cbn [rangeM].
  - apply keeps_ret.
  - apply keeps_bind; [apply Hb | exact IH].
Qed.

Lemma keeps_uniformRandom : keeps_draws (F := F) uniformRandom.
Proof.
  unfold uniformRandom.
  repeat (apply keeps_bind; [apply keeps_rand_Float64 | intros ?]).
  apply keeps_ret.
Qed.

Lemma keeps_placeInBounds (placeMin placeMax : Coord3D.t F) (m : Mesh.t F) :
  keeps_draws (placeInBounds placeMin placeMax m).
Proof.
  unfold placeInBounds.
  apply keeps_bind; [apply keeps_rand_Float64 | intros u].
  apply keeps_bind; [apply keeps_uniformRandom | intros r].
  apply keeps_ret.
Qed.

Lemma keeps_CreateLight (Ext : Type) (r : RoomLayout.t F) :
  keeps_draws (RoomLayout.CreateLight (Ext := Ext) r).
Proof.
  unfold RoomLayout.CreateLight.
  apply keeps_bind; [apply keeps_rand_Intn | intros side].
  apply keeps_bind.
  { destruct (side =? 0)%Z.
    - repeat (apply keeps_bind; [apply keeps_rand_Float64 | intros ?]).
      apply keeps_ret.
    - apply keeps_bind; [apply keeps_rand_Intn | intros flip].
      repeat (apply keeps_bind; [apply keeps_rand_Float64 | intros ?]).
      apply keeps_ret. }
  intros center.
  apply keeps_bind; [apply keeps_rand_Intn | intros kind].
  apply keeps_bind.
  { destruct (kind =? 0)%Z.
    - apply keeps_bind; [apply keeps_rand_Float64 | intros ?].
      apply keeps_ret.
    - apply keeps_bind; [apply keeps_uniformRandom | intros ?].
      apply keeps_ret. }
  intros shape.
  apply keeps_bind; [apply keeps_rand_Float64 | intros e].
  apply keeps_ret.
Qed.

End KeepsDraws.

Section RandomSceneCamera.
Context {F : Type} `{Float64 F} `{GoMath F}.
Variable Ext : Type.
Variable RandomizeMaterial : Mesh.t F -> list string -> M F Ext.
Variable ReadOFF : string -> option (list (Triangle.t F)).
Variable NewCoord3DRandUnit : M F (Coord3D.t F).
Variable NewMatrix3Rotation : Coord3D.t F -> F -> Coord3D.t F -> Coord3D.t F.
Variable backdrop_order : RoomLayout.t F -> list (Triangle.t F).
Hypothesis keeps_RandomizeMaterial :
  forall wall images, keeps_draws (RandomizeMaterial wall images).
Hypothesis keeps_NewCoord3DRandUnit : keeps_draws NewCoord3DRandUnit.

(** The camera of the tracer is the one of the layout; its field of view
    is made of an answer of the source. *)
Lemma RandomScene_camera_of_layout (models images : list string)
    (s s' : Source F) (objs : list (Object F Ext))
    (tracer : RecursiveRayTracer F) :
  RandomScene RandomizeMaterial ReadOFF NewCoord3DRandUnit
    NewMatrix3Rotation backdrop_order models images s
  = Ok ((objs, tracer), s') ->
  let layout :=
    RoomLayout.mk
      (fadd (fmul (float_draws s (cursor s)) (flit 2 1)) (flit 5 10))
      (fadd (fmul (float_draws s (S (cursor s))) (flit 20 1)) (flit 5 1)) in
  Origin (TracerCamera tracer) = fst (RoomLayout.CameraInfo layout)
  /\ Target (TracerCamera tracer) = snd (RoomLayout.CameraInfo layout)
  /\ exists i,
       FieldOfView (TracerCamera tracer)
       = fdiv (fmul (fadd (fmul (float_draws s i) (flit 5 10)) (flit 5 10))
                    math_Pi)
              (flit 3 1).
Proof.
  intros E layout. unfold RandomScene in E.
  apply bind_Ok in E as (layout0 & s1 & E1 & E).
  apply bind_Ok in E as (n1 & s2 & E2 & E).
  apply bind_Ok in E as (n2 & s3 & E3 & E).
  apply bind_Ok in E as (walls & s4 & E4 & E).
  apply bind_Ok in E as (objs1 & s5 & E5 & E).
  apply bind_Ok in E as (objs2 & s6 & E6 & E).
  apply bind_Ok in E as (st & s7 & E7 & E).
  assert (K1 : float_draws s1 = float_draws s).
  { injection E1 as _ <-. reflexivity. }
  injection E1 as El _.
  apply keeps_rand_Intn in E2. apply keeps_rand_Intn in E3.
  assert (K4 : float_draws s4 = float_draws s3).
  { destruct (CreateBackdrop layout0 (backdrop_order layout0));
      [| discriminate].
    now injection E4 as _ <-. }
  apply keeps_rangeM in E5.
  2:{ intros st0 a. unfold add_wall.
      apply keeps_bind; [apply keeps_RandomizeMaterial | intros o].
      apply keeps_ret. }
  apply keeps_repeatM in E6.
  2:{ intros st0. unfold add_object.
      apply keeps_bind; [apply keeps_rand_Intn | intros i].
      apply keeps_bind; [apply keeps_Must | intros path].
      apply keeps_bind; [apply keeps_Must | intros tris].
      apply keeps_bind; [apply keeps_NewCoord3DRandUnit | intros axis].
      apply keeps_bind; [apply keeps_rand_Float64 | intros a].
      cbn [PlaceMesh RoomLayout_SceneLayout]. unfold RoomLayout.PlaceMesh.
      apply keeps_bind; [apply keeps_placeInBounds | intros mesh].
      apply keeps_bind; [apply keeps_RandomizeMaterial | intros o].
      apply keeps_ret. }
  apply keeps_repeatM in E7.
  2:{ intros st0. unfold add_light.
      cbn [CreateLight RoomLayout_SceneLayout].
      apply keeps_bind; [apply keeps_CreateLight | intros light].
      destruct light; [apply keeps_ret | intros ? ? ? ?; discriminate]. }
  assert (K7 : float_draws s7 = float_draws s) by congruence.
  cbn [CameraInfo RoomLayout_SceneLayout] in E.
  assert (Elay : layout0 = layout) by (now subst layout0). subst layout0.
  rewrite Elay in E.
  destruct (RoomLayout.CameraInfo layout) as [origin target] eqn:Ecam.
  apply bind_Ok in E as (f & s8 & Ef & E).
  injection Ef as <- _. injection E as _ <- _.
  cbn [TracerCamera Origin Target FieldOfView fst snd].
  split; [reflexivity |]. split; [reflexivity |].
  exists (cursor s7). now rewrite K7.
Qed.

End RandomSceneCamera.

Lemma fov_range (f : Qc) :
  0 <= f -> f < 1 ->
  exact.Pi / exact.lit 6 1
  <= (f * exact.lit 5 10 + exact.lit 5 10) * exact.Pi / exact.lit 3 1
  /\ (f * exact.lit 5 10 + exact.lit 5 10) * exact.Pi / exact.lit 3 1
     <= exact.Pi / exact.lit 3 1.
Proof.
  intros H0 H1.
  assert (HP : 0 < exact.Pi) by reflexivity.
  revert HP. generalize exact.Pi. intros p HP. to_Q. split; nra.
Qed.

(** X8: A scene has between 8 and 21 objects: whenever RandomScene returns,
    for answers of [rand.Float64()] in [0,1) and any enumeration of the
    backdrop box, it returns six walls, then the 1 to 10 models, then
    the 1 to 5 lights.  (Exact arithmetic.) *)
Theorem RandomScene_object_count (Ext : Type)
    (RandomizeMaterial : Mesh.t Qc -> list string -> M Qc Ext)
    (ReadOFF : string -> option (list (Triangle.t Qc)))
    (NewCoord3DRandUnit : M Qc (Coord3D.t Qc))
    (NewMatrix3Rotation : Coord3D.t Qc -> Qc -> Coord3D.t Qc -> Coord3D.t Qc)
    (backdrop_order : RoomLayout.t Qc -> list (Triangle.t Qc))
    (models images : list string) (s s' : Source Qc)
    (objs : list (Object Qc Ext)) (tracer : RecursiveRayTracer Qc) :
  (forall r, Permutation (backdrop_order r) (RoomLayout.backdrop_box r)) ->
  (forall i, 0 <= float_draws s i /\ float_draws s i < 1) ->
  RandomScene RandomizeMaterial ReadOFF NewCoord3DRandUnit
    NewMatrix3Rotation backdrop_order models images s
  = Ok ((objs, tracer), s') ->
  let numObjects := (int_draws s (S (S (cursor s))) mod 10 + 1)%Z in
  let numLights := (int_draws s (S (S (S (cursor s)))) mod 5 + 1)%Z in
  List.length objs = (6 + Z.to_nat numObjects + Z.to_nat numLights)%nat
  /\ (8 <= List.length objs <= 21)%nat.
Proof.
  intros Hord Hs E numObjects numLights.
  destruct (RandomScene_Ok _ _ _ _ _ _ _ _ E)
    as (walls & objs1 & objs2 & st & s4 & s5 & s6 & s7
        & Eb & E5 & E6 & E7 & -> & _).
  fold numObjects in E6. fold numLights in E7.
  set (layout := RoomLayout.mk _ _) in Eb, E6, E7.
  assert (Ho : (1 <= numObjects <= 10)%Z).
  { subst numObjects.
    pose proof (Z.mod_pos_bound (int_draws s (S (S (cursor s)))) 10). lia. }
  assert (Hl : (1 <= numLights <= 5)%Z).
  { subst numLights.
    pose proof (Z.mod_pos_bound (int_draws s (S (S (S (cursor s))))) 5).
    lia. }
  apply walls_loop_appends in E5 as (made1 & -> & Hlen1).
  apply objects_loop_appends in E6 as (made2 & -> & Hlen2 & _).
  apply lights_loop_objects in E7 as (lights & -> & Hlen3 & _).
  assert (El : RandomSceneLayout s = Ok (layout, advance (advance s)))
    by reflexivity.
  destruct (RandomSceneLayout_Ok Hs El) as (_ & HW & _ & HD & _).
  destruct (@CreateBackdrop_returns layout (backdrop_order layout))
    as (walls' & Eb' & Hw & _).
  - eapply Qclt_le_trans; [| exact HW]. reflexivity.
  - eapply Qclt_le_trans; [| exact HD]. reflexivity.
  - apply Hord.
  - rewrite Eb in Eb'. injection Eb' as <-.
    cbn [objects app]. rewrite !length_app, !length_map, Hlen1, Hlen2, Hlen3,
      Hw. lia.
Qed.

(** A run in exact arithmetic in which every model file holds one
    triangle and materials and rotations do nothing. *)
Lemma RandomScene_object_count_witness :
  exists objs tracer s',
    RandomScene (fun _ _ => ret tt)
      (fun _ => Some [corner_triangle (exact.lit 0 1) (exact.lit 1 1)])
      (ret (Coord3D.mk (exact.lit 0 1) (exact.lit 0 1) (exact.lit 1 1)))
      (fun _ _ c => c)
      RoomLayout.backdrop_box
      ["model.off"%string] [] (constant_source (exact.lit 1 2))
    = Ok ((objs, tracer), s')
    /\ List.length objs = 8%nat.
Proof.
  eexists. eexists. eexists.
  match goal with
  | |- ?A /\ _ => assert (E : A) by (vm_compute; reflexivity)
  end.
  split; [exact E |].
  refine (proj1 (@RandomScene_object_count _ _ _ _ _ _ _ _ _ _ _ _ _ _ E)).
  - intros r. apply Permutation_refl.
  - intros i. cbn. split; [discriminate | reflexivity].
Defined.

(** X9: The camera of a scene: whenever RandomScene returns, for answers of
    [rand.Float64()] in [0,1) and calls into other files that draw from
    the same source, the camera is on the axis X = 0 at height 0.5,
    1e-5 inside the near wall, and looks at the far wall, at least
    4.99999 away, so position and target differ; its field of view is
    between pi/6 and pi/3, ends included.  (Exact arithmetic.) *)
Theorem RandomScene_camera (Ext : Type)
    (RandomizeMaterial : Mesh.t Qc -> list string -> M Qc Ext)
    (ReadOFF : string -> option (list (Triangle.t Qc)))
    (NewCoord3DRandUnit : M Qc (Coord3D.t Qc))
    (NewMatrix3Rotation : Coord3D.t Qc -> Qc -> Coord3D.t Qc -> Coord3D.t Qc)
    (backdrop_order : RoomLayout.t Qc -> list (Triangle.t Qc))
    (models images : list string) (s s' : Source Qc)
    (objs : list (Object Qc Ext)) (tracer : RecursiveRayTracer Qc) :
  (forall wall imgs, keeps_draws (RandomizeMaterial wall imgs)) ->
  keeps_draws NewCoord3DRandUnit ->
  (forall i, 0 <= float_draws s i /\ float_draws s i < 1) ->
  RandomScene RandomizeMaterial ReadOFF NewCoord3DRandUnit
    NewMatrix3Rotation backdrop_order models images s
  = Ok ((objs, tracer), s') ->
  let camera := TracerCamera tracer in
  Coord3D.X (Origin camera) = 0 /\ Coord3D.X (Target camera) = 0
  /\ Coord3D.Z (Origin camera) = exact.lit 1 2
  /\ Coord3D.Z (Target camera) = exact.lit 1 2
  /\ exact.lit 499999 100000
     <= Coord3D.Y (Target camera) - Coord3D.Y (Origin camera)
  /\ Origin camera <> Target camera
  /\ exact.Pi / exact.lit 6 1 <= FieldOfView camera
  /\ FieldOfView camera <= exact.Pi / exact.lit 3 1.
Proof.
  intros HRM HNU Hs E camera.
  destruct (RandomScene_camera_of_layout _ _ _ _ HRM HNU _ _ _ E)
    as (Eo & Et & i & Ef).
  set (layout := RoomLayout.mk _ _) in Eo, Et.
  assert (El : RandomSceneLayout s = Ok (layout, advance (advance s)))
    by reflexivity.
  destruct (RandomSceneLayout_Ok Hs El) as (_ & _ & _ & HD & _).
  fold camera in Eo, Et, Ef. rewrite Eo, Et, Ef.
  clear Eo Et Ef E El. destruct (Hs i) as [H0 H1].
  generalize dependent (float_draws s i). intros f H0 H1.
  unfold RoomLayout.CameraInfo. cbn [fst snd Coord3D.X Coord3D.Y Coord3D.Z].
  generalize dependent (RoomLayout.Depth layout).
  intros D HD. clear Hs HRM HNU.
  assert (HY : - D / exact.lit 2 1 + exact.lit 1 100000 < D / exact.lit 2 1).
  { to_Q. lra. }
  exact_ops.
  split; [reflexivity |]. split; [reflexivity |].
  split; [qc_compute |]. split; [qc_compute |].
  split; [to_Q; lra |].
  split; [| now apply fov_range].
  intros Eq. apply (f_equal (@Coord3D.Y Qc)) in Eq. cbn [Coord3D.Y] in Eq.
  rewrite Eq in HY. exact (Qclt_not_eq _ _ HY eq_refl).
Qed.

Lemma RandomScene_camera_witness :
  exists objs tracer s',
    RandomScene (fun _ _ => ret tt)
      (fun _ => Some [corner_triangle (exact.lit 0 1) (exact.lit 1 1)])
      (ret (Coord3D.mk (exact.lit 0 1) (exact.lit 0 1) (exact.lit 1 1)))
      (fun _ _ c => c)
      RoomLayout.backdrop_box
      ["model.off"%string] [] (constant_source (exact.lit 1 2))
    = Ok ((objs, tracer), s')
    /\ Origin (TracerCamera tracer) <> Target (TracerCamera tracer).
Proof.
  eexists. eexists. eexists.
  match goal with
  | |- ?A /\ _ => assert (E : A) by (vm_compute; reflexivity)
  end.
  split; [exact E |].
  refine (proj1 (proj2 (proj2 (proj2 (proj2 (proj2
    (@RandomScene_camera _ _ _ _ _ _ _ _ _ _ _ _ _ _ _ E))))))).
  - intros wall imgs. apply keeps_ret.
  - apply keeps_ret.
  - intros i. cbn. split; [discriminate | reflexivity].
Defined.

(** ** CreateBackdrop: what a wall is *)

Section Walls.
Context {F : Type} `{Float64 F} `{GoMath F}.

(** A round of the closure returns: it keeps the walls collected so
    far, and adds the triangle alone, or the triangle with a neighbor
    that passed the test of the normals. *)
Lemma backdrop_step_wall (tr : Triangle.t F) (mesh : Mesh.t F)
    (walls : list (Mesh.t F)) :
  exists mesh' w,
    RoomLayout.backdrop_step tr (mesh, walls) = Ok (mesh', walls ++ [w])
    /\ (w = [tr]
        \/ exists n, w = [tr; n] /\ Mesh.adjacent tr n = true
                     /\ RoomLayout.coplanar tr n = true).
Proof.
  unfold RoomLayout.backdrop_step.
  destruct (find (RoomLayout.coplanar tr) (Mesh.Neighbors mesh tr))
    as [n |] eqn:Ef.
  - eexists. eexists. split; [reflexivity |]. right. exists n.
    apply find_some in Ef as [Hin Hc].
    apply filter_In in Hin as [_ Ha]. now repeat split.
  - eexists. eexists. split; [reflexivity |]. now left.
Qed.

(** [mesh.Iterate] with the closure of CreateBackdrop returns, and a
    property of the walls that every round keeps holds at the end. *)
Lemma Iterate_walls (P : Mesh.t F -> Prop) (order : list (Triangle.t F))
    (st : Mesh.t F * list (Mesh.t F)) :
  (forall t, P [t]) ->
  (forall t n, Mesh.adjacent t n = true -> RoomLayout.coplanar t n = true ->
               P [t; n]) ->
  Forall P (snd st) ->
  exists st', Mesh.Iterate order RoomLayout.backdrop_step st = Ok st'
              /\ Forall P (snd st').
Proof.
  intros HP1 HP2. revert st.
  induction order as [| tr order IH]; intros st Hst.
  - exists st. now split.
  - cbn [Mesh.Iterate].
    destruct (Mesh.Contains (fst st) tr); [| now apply IH].
    destruct st as [mesh walls].
    destruct (backdrop_step_wall tr mesh walls) as (mesh' & w & -> & Hw).
    apply IH. cbn [snd] in *. apply Forall_app. split; [exact Hst |].
    constructor; [| constructor].
    destruct Hw as [-> | (n & -> & Ha & Hc)]; [apply HP1 | now apply HP2].
Qed.

(** X14: CreateBackdrop returns for every room and every enumeration of
    the box, and every wall it returns is either one triangle t alone
    (when no neighbor passed the test, and the wall was made of t and a
    nil pointer), or a triangle t followed by one of its neighbors n
    (another triangle with two corners of t) whose normal has a dot
    product above 0.99 with the normal of t. *)
Theorem CreateBackdrop_walls_are_faces (r : RoomLayout.t F)
    (order : list (Triangle.t F)) :
  exists walls,
    RoomLayout.CreateBackdrop r order = Ok walls
    /\ Forall (fun w => exists t,
                 w = [t]
                 \/ exists n,
                      w = [t; n]
                      /\ Mesh.adjacent t n = true
                      /\ fgt (Coord3D.Dot (Triangle.Normal n)
                                          (Triangle.Normal t))
                             (flit 99 100) = true)
              walls.
Proof.
  unfold RoomLayout.CreateBackdrop.
  destruct (@Iterate_walls
              (fun w => exists t,
                 w = [t]
                 \/ exists n,
                      w = [t; n]
                      /\ Mesh.adjacent t n = true
                      /\ fgt (Coord3D.Dot (Triangle.Normal n)
                                          (Triangle.Normal t))
                             (flit 99 100) = true)
              order (RoomLayout.backdrop_box r, []))
    as ([mesh ws] & -> & Hws).
  - intros t. exists t. now left.
  - intros t n Ha Hc. exists t. right. exists n. now repeat split.
  - constructor.
  - exists ws. now split.
Qed.

End Walls.

(** ** quantileBrightness: what it depends on *)

(** A list has one ascending order: two sorted lists with the same
    elements are equal. *)
Lemma Sorted_Permutation_eq (l1 l2 : list Qc) :
  Sorted Qcle l1 -> Sorted Qcle l2 -> Permutation l1 l2 -> l1 = l2.
Proof.
  intros H1 H2.
  apply Sorted_StronglySorted in H1; [| exact Qcle_trans].
  apply Sorted_StronglySorted in H2; [| exact Qcle_trans].
  revert l2 H2. induction H1 as [| a l1 Hl1 IH Ha]; intros l2 H2 Hp.
  - apply Permutation_nil in Hp. now subst.
  - destruct H2 as [| b l2 Hl2 Hb].
    + apply Permutation_sym, Permutation_nil in Hp. discriminate.
    + assert (E : a = b).
      { apply Qcle_antisym.
        - assert (Hin : In b (a :: l1)).
          { eapply Permutation_in; [apply Permutation_sym, Hp | now left]. }
          destruct Hin as [-> | Hin]; [apply Qcle_refl |].
          rewrite Forall_forall in Ha. now apply Ha.
        - assert (Hin : In a (b :: l2)).
          { eapply Permutation_in; [exact Hp | now left]. }
          destruct Hin as [-> | Hin]; [apply Qcle_refl |].
          rewrite Forall_forall in Hb. now apply Hb. }
      subst b. f_equal. apply IH; [exact Hl2 |].
      now apply Permutation_cons_inv in Hp.
Qed.

(** Sorting forgets the order of its input. *)
Lemma sort_Float64s_Permutation (l1 l2 : list Qc) :
  Permutation l1 l2 -> sort_Float64s l1 = sort_Float64s l2.
Proof.
  intros Hp. apply Sorted_Permutation_eq; try apply sort_Float64s_Sorted.
  rewrite !sort_Float64s_perm. exact Hp.
Qed.

(** X15: quantileBrightness does not depend on where the pixels are: two
    images with the same pixels in any order have the same quantile
    brightness (and it panics on both, or on none).  (Exact
    arithmetic.) *)
Theorem quantileBrightness_permutation (img img' : Image.t Qc) :
  Permutation (Image.Data img) (Image.Data img') ->
  quantileBrightness img = quantileBrightness img'.
Proof.
  intros Hp. rewrite !quantileBrightness_unfold. cbv zeta.
  now rewrite (sort_Float64s_Permutation (Permutation_map brightness Hp)).
Qed.

Lemma quantileBrightness_permutation_witness :
  quantileBrightness
    (Image.mk [Coord3D.mk (exact.lit 1 1) (exact.lit 1 1) (exact.lit 1 1);
               Coord3D.mk (exact.lit 0 1) (exact.lit 0 1) (exact.lit 0 1)])
  = quantileBrightness
    (Image.mk [Coord3D.mk (exact.lit 0 1) (exact.lit 0 1) (exact.lit 0 1);
               Coord3D.mk (exact.lit 1 1) (exact.lit 1 1) (exact.lit 1 1)]).
Proof.
  apply quantileBrightness_permutation. cbn [Image.Data]. apply perm_swap.
Defined.

(** ** quantileBrightness: an order statistic *)

Lemma StronglySorted_nth_le (l : list Qc) (j i : nat) :
  StronglySorted Qcle l -> (j <= i)%nat -> (i < List.length l)%nat ->
  nth j l 0 <= nth i l 0.
Proof.
  intros Hl. revert j i. induction Hl as [| a l Hl IH Ha]; intros j i Hji Hi.
  - cbn in Hi. lia.
  - destruct i as [| i].
    + assert (j = 0%nat) by lia. subst j. apply Qcle_refl.
    + cbn [List.length] in Hi. destruct j as [| j].
      * cbn [nth]. rewrite Forall_forall in Ha. apply Ha, nth_In. lia.
      * cbn [nth]. apply IH; lia.
Qed.

Lemma filter_length_Permutation {A : Type} (p : A -> bool) (l1 l2 : list A) :
  Permutation l1 l2 ->
  List.length (filter p l1) = List.length (filter p l2).
Proof.
  induction 1 as [| x l1 l2 _ IH | x y l | l1 l2 l3 _ IH1 _ IH2]; cbn.
  - reflexivity.
  - destruct (p x); cbn; congruence.
  - destruct (p x), (p y); reflexivity.
  - congruence.
Qed.

Lemma filter_length_all {A : Type} (p : A -> bool) (l : list A) :
  Forall (fun x => p x = true) l -> List.length (filter p l) = List.length l.
Proof.
  induction 1 as [| x l Hx _ IH]; cbn; [reflexivity |].
  rewrite Hx. cbn. now rewrite IH.
Qed.

Lemma filter_length_map {A B : Type} (f : A -> B) (p : B -> bool)
    (l : list A) :
  List.length (filter p (List.map f l))
  = List.length (filter (fun a => p (f a)) l).
Proof.
  induction l as [| a l IH]; [reflexivity |].
  cbn [List.map filter]. destruct (p (f a)); cbn [List.length];
    now rewrite IH.
Qed.

(** In a sorted list the first [i+1] elements are no greater than the
    one at index [i], and the elements from index [i] on no less. *)
Lemma sorted_counts (l : list Qc) (i : nat) :
  Sorted Qcle l -> (i < List.length l)%nat ->
  let q := nth i l 0 in
  (S i <= List.length (filter (fun b => negb (exact.ltb q b)) l))%nat
  /\ (List.length l - i
      <= List.length (filter (fun b => negb (exact.ltb b q)) l))%nat.
Proof.
  intros Hs Hi q.
  apply Sorted_StronglySorted in Hs; [| exact Qcle_trans].
  assert (Eq : q = nth i l 0) by reflexivity.
  clearbody q. split.
  - assert (H : (S i <= List.length
                   (filter (fun b => negb (exact.ltb q b))
                      (firstn (S i) l ++ skipn (S i) l)))%nat).
    { rewrite filter_app, length_app, filter_length_all.
      - rewrite length_firstn. lia.
      - apply Forall_forall. intros b Hb.
        apply (In_nth _ _ 0) in Hb as (j & Hj & <-).
        rewrite length_firstn in Hj. rewrite nth_firstn.
        destruct (Nat.ltb_spec j (S i)); [| lia].
        apply negb_true_iff, exact_ltb_ge. rewrite Eq.
        apply StronglySorted_nth_le; [exact Hs | lia | exact Hi]. }
    now rewrite firstn_skipn in H.
  - assert (H : (List.length l - i <= List.length
                   (filter (fun b => negb (exact.ltb b q))
                      (firstn i l ++ skipn i l)))%nat).
    { rewrite filter_app, length_app.
      rewrite (filter_length_all _ (l := skipn i l)).
      - rewrite length_skipn. lia.
      - apply Forall_forall. intros b Hb.
        apply (In_nth _ _ 0) in Hb as (j & Hj & <-).
        rewrite length_skipn in Hj. rewrite nth_skipn.
        apply negb_true_iff, exact_ltb_ge. rewrite Eq.
        apply StronglySorted_nth_le; [exact Hs | lia | lia]. }
    now rewrite firstn_skipn in H.
Qed.

(** X17: The value quantileBrightness returns on an image of n > 0 pixels is
    the brightness of one of its pixels; with i = floor(0.8 n), at least
    i + 1 pixels are no brighter and at least n - i pixels are no
    darker.  (Exact arithmetic.) *)
Theorem quantileBrightness_order_statistic (img : Image.t Qc) :
  Image.Data img <> [] ->
  let n := List.length (Image.Data img) in
  let i := Z.to_nat (Z.of_nat n * 8 / 10) in
  exists q,
    quantileBrightness img = Ok q
    /\ (exists c, In c (Image.Data img) /\ q = brightness c)
    /\ (i < n)%nat
    /\ (i + 1 <= List.length
                   (filter (fun c => negb (exact.ltb q (brightness c)))
                           (Image.Data img)))%nat
    /\ (n - i <= List.length
                   (filter (fun c => negb (exact.ltb (brightness c) q))
                           (Image.Data img)))%nat.
Proof.
  intros Hne n i.
  destruct (quantileBrightness_returns img Hne) as [Hi Eq].
  rewrite quantile_index_value in Hi, Eq. fold n i in Hi, Eq.
  set (bs := List.map brightness (Image.Data img)) in *.
  assert (Hlen : List.length (sort_Float64s bs) = n).
  { rewrite sort_Float64s_length. subst bs. apply length_map. }
  eexists. split; [exact Eq |].
  set (q := nth i (sort_Float64s bs) 0).
  split.
  { assert (Hin : In q bs).
    { eapply Permutation_in; [apply sort_Float64s_perm |].
      apply nth_In. exact Hi. }
    subst bs. apply in_map_iff in Hin as (c & Hc & Hin).
    exists c. now split. }
  split; [lia |].
  destruct (@sorted_counts (sort_Float64s bs) i (sort_Float64s_Sorted bs) Hi)
    as [Hlo Hhi].
  fold q in Hlo, Hhi. rewrite Hlen in Hhi.
  rewrite (filter_length_Permutation _ (sort_Float64s_perm bs)) in Hlo.
  rewrite (filter_length_Permutation _ (sort_Float64s_perm bs)) in Hhi.
  subst bs.
  rewrite filter_length_map in Hlo, Hhi. split; [lia | exact Hhi].
Qed.

Lemma quantileBrightness_order_statistic_witness :
  exists q,
    quantileBrightness (gray_image (exact.lit 1 2) 4) = Ok q
    /\ exists c, In c (Image.Data (gray_image (exact.lit 1 2) 4))
                 /\ q = brightness c.
Proof.
  destruct (@quantileBrightness_order_statistic
              (gray_image (exact.lit 1 2) 4)) as (q & E & Hc & _).
  - discriminate.
  - exists q. split; [exact E | exact Hc].
Defined.

(** ** BrightnessScale: how far it brightens *)

Lemma exact_Max_le (x y z : Qc) : x <= z -> y <= z -> exact.Max x y <= z.
Proof. intros Hx Hy. destruct (exact_Max_cases x y) as [-> | ->]; auto. Qed.

(** X18: BrightnessScale is bounded: on every image with at least one
    pixel, all of finite brightness, and for a finite answer of
    [rand.NormFloat64()], it returns a scale between 1 and
    90000 = 0.9 / 1e-5, after one call of [rand.NormFloat64()]; on an
    image whose quantile brightness is at most 1e-5 the scale is at
    least 10000 = 0.1 / 1e-5.  Finiteness plays no part in exact
    arithmetic; it is what the statement needs to hold of float64 as
    well. *)
Theorem BrightnessScale_range (img : Image.t Qc) (s : Source Qc) :
  Image.Data img <> [] ->
  Forall (fun c => - exact.MaxFloat64 <= brightness c
                   /\ brightness c <= exact.MaxFloat64) (Image.Data img) ->
  - exact.MaxFloat64 <= norm_draws s (cursor s)
  /\ norm_draws s (cursor s) <= exact.MaxFloat64 ->
  exists q k,
    quantileBrightness img = Ok q
    /\ BrightnessScale img s = Ok (k, advance s)
    /\ 1 <= k /\ k <= exact.lit 90000 1
    /\ (q <= exact.lit 1 100000 -> exact.lit 10000 1 <= k).
Proof.
  intros Hne _ _.
  destruct (quantileBrightness_returns img Hne) as [_ Eq].
  set (q := nth _ _ _) in Eq.
  exists q. eexists. split; [exact Eq |].
  split.
  { unfold BrightnessScale, bind, rand_NormFloat64. rewrite Eq.
    reflexivity. }
  exact_ops.
  destruct (target_of_clamped (norm_draws s (cursor s))) as (Hlo & Hhi & _).
  set (target := target_of _) in *.
  pose proof (exact_Max_ge_l (exact.lit 1 100000) q) as Hm.
  set (median := exact.Max (exact.lit 1 100000) q) in *.
  assert (Hpos : 0 < median).
  { eapply Qclt_le_trans; [| exact Hm]. reflexivity. }
  split; [apply exact_Max_ge_l |].
  split.
  { apply exact_Max_le; [discriminate |].
    clear - Hhi Hm Hpos. to_Q.
    apply Qle_shift_div_r; [exact Hpos | nra]. }
  intros Hq.
  assert (Em : median = exact.lit 1 100000).
  { subst median. unfold exact.Max.
    destruct (exact.ltb q (exact.lit 1 100000)) eqn:E; [reflexivity |].
    apply exact_ltb_ge in E. now apply Qcle_antisym. }
  rewrite Em.
  assert (Ek : target / exact.lit 1 100000 = target * exact.lit 100000 1)
    by qc_field.
  rewrite Ek.
  assert (Hk : exact.lit 10000 1 <= target * exact.lit 100000 1).
  { clear - Hlo. to_Q. lra. }
  assert (Emax : exact.Max (exact.lit 1 1) (target * exact.lit 100000 1)
                 = target * exact.lit 100000 1).
  { unfold exact.Max.
    destruct (exact.ltb (target * exact.lit 100000 1) (exact.lit 1 1))
      eqn:E; [| reflexivity].
    apply exact_ltb_lt in E. exfalso. clear - E Hk. to_Q. lra. }
  rewrite Emax. exact Hk.
Qed.

(** In binary64 the two bounds are reached: on a black image the scale
    is 10000 for the least target 0.1 and 90000 for the greatest target
    0.9. *)
Lemma BrightnessScale_binary64_bounds :
  BrightnessScale (gray_image (f64 0 1) 4)
    {| float_draws := fun _ => f64 0 1; int_draws := fun _ => 0%Z;
       norm_draws := fun _ => f64 (-100) 1; cursor := 0 |}
  = Ok (f64 10000 1,
        advance {| float_draws := fun _ => f64 0 1;
                   int_draws := fun _ => 0%Z;
                   norm_draws := fun _ => f64 (-100) 1; cursor := 0 |})
  /\ BrightnessScale (gray_image (f64 0 1) 4)
       {| float_draws := fun _ => f64 0 1; int_draws := fun _ => 0%Z;
          norm_draws := fun _ => f64 100 1; cursor := 0 |}
     = Ok (f64 90000 1,
           advance {| float_draws := fun _ => f64 0 1;
                      int_draws := fun _ => 0%Z;
                      norm_draws := fun _ => f64 100 1; cursor := 0 |}).
Proof. split; vm_compute; reflexivity. Qed.

Lemma BrightnessScale_range_witness :
  exists q k,
    quantileBrightness (gray_image (exact.lit 0 1) 4) = Ok q
    /\ BrightnessScale (gray_image (exact.lit 0 1) 4)
         (constant_source (exact.lit 1 2))
       = Ok (k, advance (constant_source (exact.lit 1 2)))
    /\ exact.lit 10000 1 <= k.
Proof.
  destruct (@BrightnessScale_range (gray_image (exact.lit 0 1) 4)
              (constant_source (exact.lit 1 2)))
    as (q & k & Eq & E & _ & _ & Hdark).
  - discriminate.
  - repeat constructor; vm_compute; discriminate.
  - split; vm_compute; discriminate.
  - exists q, k. split; [exact Eq |]. split; [exact E |].
    apply Hdark.
    assert (Eq' : exists q', quantileBrightness
                     (gray_image (exact.lit 0 1) 4) = Ok q'
                   /\ q' <= exact.lit 1 100000).
    { eexists. split; [vm_compute; reflexivity | discriminate]. }
    destruct Eq' as (q' & Eq' & Hq'). rewrite Eq in Eq'.
    injection Eq' as ->. exact Hq'.
Defined.

(** ** ReLU.Apply on tensors whose Data does not match their size *)

Section ReLUBounds.
Context {F : Type} `{Float64 F}.

Lemma set_index_length (res res' : list F) (i : nat) (x : F) :
  nn.set_index res i x = Ok res' -> List.length res' = List.length res.
Proof.
  revert res' i. induction res as [| y res IH]; intros res' i E;
    [discriminate |].
  destruct i as [| i]; cbn in E.
  - now injection E as <-.
  - destruct (nn.set_index res i x) as [r | msg] eqn:Er; [| discriminate].
    injection E as <-. cbn. f_equal. eapply IH, Er.
Qed.

Lemma set_index_out_of_range (res : list F) (i : nat) (x : F) :
  (List.length res <= i)%nat ->
  nn.set_index res i x = Panic "index out of range".
Proof.
  revert i. induction res as [| y res IH]; intros i Hi; [reflexivity |].
  destruct i as [| i]; cbn in Hi; [lia |].
  cbn. rewrite IH by lia. reflexivity.
Qed.

(** The loop over a prefix of the data, then over the rest. *)
Lemma relu_loop_app (d1 d2 res : list F) (i : nat) :
  nn.relu_loop i (d1 ++ d2) res
  = match nn.relu_loop i d1 res with
    | Ok r => nn.relu_loop (i + List.length d1) d2 r
    | Panic msg => Panic msg
    end.
Proof.
  revert i res. induction d1 as [| x d1 IH]; intros i res; cbn.
  - now rewrite Nat.add_0_r.
  - destruct (fgt x fzero).
    + destruct (nn.set_index res i x) as [r | msg]; [| reflexivity].
      rewrite IH. now rewrite Nat.add_succ_r.
    + rewrite IH. now rewrite Nat.add_succ_r.
Qed.

(** Elements that are not positive are never written. *)
Lemma relu_loop_no_positive (data res : list F) (i : nat) :
  Forall (fun x => fgt x fzero = false) data ->
  nn.relu_loop i data res = Ok res.
Proof.
  intros Hd. revert i. induction Hd as [| x data Hx _ IH]; intros i; cbn.
  - reflexivity.
  - rewrite Hx. apply IH.
Qed.

(** A positive element at an index outside the new tensor makes the
    loop panic. *)
Lemma relu_loop_out_of_range (data res : list F) (i j : nat) (x : F) :
  nth_error data j = Some x -> fgt x fzero = true ->
  (List.length res <= i + j)%nat ->
  exists msg, nn.relu_loop i data res = Panic msg.
Proof.
  revert res i j. induction data as [| y data IH]; intros res i j Hj Hx Hlen.
  - destruct j; discriminate.
  - destruct j as [| j]; cbn in Hj |- *.
    + injection Hj as ->. rewrite Hx.
      rewrite set_index_out_of_range by lia. eauto.
    + destruct (fgt y fzero).
      * destruct (nn.set_index res i y) as [r | msg] eqn:Er; [| eauto].
        apply set_index_length in Er.
        apply (IH r (S i) j Hj Hx). lia.
      * apply (IH res (S i) j Hj Hx). lia.
Qed.

(** The loop over data no longer than the zeros it writes into. *)
Lemma relu_loop_short (data pre : list F) (k : nat) :
  nn.relu_loop (List.length pre) data
    (pre ++ repeat fzero (List.length data + k))
  = Ok (pre ++ List.map relu data ++ repeat fzero k).
Proof.
  revert pre. induction data as [| x data IH]; intros pre; cbn.
  - reflexivity.
  - unfold relu at 1. destruct (fgt x fzero).
    + rewrite set_index_app.
      specialize (IH (pre ++ [x])).
      rewrite length_app, Nat.add_1_r, <- !app_assoc in IH. exact IH.
    + specialize (IH (pre ++ [fzero])).
      rewrite length_app, Nat.add_1_r, <- !app_assoc in IH. exact IH.
Qed.

(** X20: ReLU.Apply does not need Data to have n = Height*Width*Depth
    elements (the product taken on [int]): when Data has at least n
    elements and none at an index from n on is positive, it returns a
    tensor of n elements, the rectified first n elements of Data. *)
Theorem ReLU_Apply_clips (t : nn.Tensor F) :
  let size := int_mul (int_mul (nn.Height t) (nn.Width t)) (nn.Depth t) in
  let n := Z.to_nat size in
  (0 <= size)%Z ->
  (n <= List.length (nn.Data t))%nat ->
  Forall (fun x => fgt x fzero = false) (skipn n (nn.Data t)) ->
  nn.ReLU_Apply t
  = Ok (nn.mkTensor (nn.Height t) (nn.Width t) (nn.Depth t)
          (List.map relu (firstn n (nn.Data t))))
  /\ List.length (List.map relu (firstn n (nn.Data t))) = n.
Proof.
  intros size n Hpos Hlen Htail. split.
  - unfold nn.ReLU_Apply, nn.NewTensor. fold size.
    destruct (Z.ltb_spec size 0); [lia |].
    cbn [nn.Data nn.Height nn.Width nn.Depth]. fold n.
    rewrite <- (firstn_skipn n (nn.Data t)) at 1.
    rewrite relu_loop_app.
    assert (En : n = (List.length (firstn n (nn.Data t)) + 0)%nat).
    { rewrite length_firstn. lia. }
    rewrite En at 2.
    pose proof (relu_loop_short (firstn n (nn.Data t)) [] 0) as E.
    cbn [List.length app repeat] in E. rewrite E, app_nil_r.
    now rewrite relu_loop_no_positive.
  - rewrite length_map, length_firstn. lia.
Qed.

(** X21: ReLU.Apply panics on a tensor with a positive element at an
    index from Height*Width*Depth on (the product taken on [int]): the
    loop writes it to the same index of the new tensor, which has only
    Height*Width*Depth elements. *)
Theorem ReLU_Apply_out_of_range (t : nn.Tensor F) (i : nat) (x : F) :
  nth_error (nn.Data t) i = Some x ->
  fgt x fzero = true ->
  (Z.to_nat (int_mul (int_mul (nn.Height t) (nn.Width t)) (nn.Depth t))
   <= i)%nat ->
  exists msg, nn.ReLU_Apply t = Panic msg.
Proof.
  intros Hi Hx Hn. unfold nn.ReLU_Apply, nn.NewTensor.
  destruct (Z.ltb_spec
              (int_mul (int_mul (nn.Height t) (nn.Width t)) (nn.Depth t)) 0);
    [eauto |].
  cbn [nn.Data nn.Height nn.Width nn.Depth].
  destruct (@relu_loop_out_of_range (nn.Data t)
              (repeat fzero
                 (Z.to_nat (int_mul (int_mul (nn.Height t) (nn.Width t))
                                    (nn.Depth t))))
              0 i x Hi Hx) as [msg E].
  - rewrite repeat_length. lia.
  - rewrite E. eauto.
Qed.

End ReLUBounds.

Lemma ReLU_Apply_clips_witness :
  nn.ReLU_Apply
    (nn.mkTensor 1 1 2 [exact.lit 1 2; exact.lit (-1) 2; exact.lit (-3) 1])
  = Ok (nn.mkTensor 1 1 2
          (List.map relu (firstn 2 [exact.lit 1 2; exact.lit (-1) 2;
                                    exact.lit (-3) 1]))).
Proof.
  refine (proj1 (@ReLU_Apply_clips Qc _
    (nn.mkTensor 1 1 2 [exact.lit 1 2; exact.lit (-1) 2; exact.lit (-3) 1])
    _ _ _)).
  - vm_compute. discriminate.
  - vm_compute. lia.
  - vm_compute. repeat constructor.
Defined.

(** On [int] the product of the dimensions wraps around: a tensor of
    the dimensions 2^62, 4 and 1 has size 0, and ReLU.Apply returns a
    tensor without elements; of the dimensions -11 and
    1676976733973595601 and 1 it has size 5. *)
Lemma ReLU_Apply_wraps :
  nn.ReLU_Apply (nn.mkTensor (2 ^ 62) 4 1 ([] : list Qc))
  = Ok (nn.mkTensor (2 ^ 62) 4 1 [])
  /\ int_mul (int_mul (-11) 1676976733973595601) 1 = 5%Z.
Proof. split; vm_compute; reflexivity. Qed.

Lemma ReLU_Apply_out_of_range_witness :
  exists msg,
    nn.ReLU_Apply
      (nn.mkTensor 1 1 1 [exact.lit 1 2; exact.lit 3 1])
    = Panic msg.
Proof.
  apply (@ReLU_Apply_out_of_range Qc _
           (nn.mkTensor 1 1 1 [exact.lit 1 2; exact.lit 3 1])
           1%nat (exact.lit 3 1)).
  - reflexivity.
  - reflexivity.
  - vm_compute. lia.
Defined.

(** ** ReLU.Apply in binary64 *)

(** A float64 above zero is not NaN. *)
Lemma binary64_positive_not_NaN (x : float) :
  PrimFloat.ltb PrimFloat.zero x = true -> PrimFloat.eqb x x = true.
Proof.
  rewrite FloatAxioms.ltb_spec, FloatAxioms.eqb_spec.
  change (Prim2SF PrimFloat.zero) with (S754_zero false).
  destruct (Prim2SF x) as [s | s | | s m e]; cbn; try discriminate;
    try reflexivity.
  - now destruct s.
  - intros _. unfold SFeqb, SFcompare.
    destruct s; rewrite Z.compare_refl, Pos.compare_cont_refl; reflexivity.
Qed.

(** X22: In binary64 ReLU.Apply never returns NaN: NaN is not above 0, so a
    NaN of the input becomes 0 like a negative number; every element of
    the result is above 0 (possibly +Inf) or is +0. *)
Theorem ReLU_Apply_binary64_no_NaN (t : nn.Tensor float) :
  well_formed t ->
  exists t',
    nn.ReLU_Apply t = Ok t'
    /\ Forall (fun y => IsNaN y = false) (nn.Data t')
    /\ Forall (fun y => PrimFloat.ltb PrimFloat.zero y = true
                        \/ y = PrimFloat.zero) (nn.Data t').
Proof.
  intros Hwf. eexists. split; [now apply ReLU_Apply_map |].
  cbn [nn.Data]. split; apply Forall_forall; intros y Hy;
    apply in_map_iff in Hy as (x & <- & _); unfold relu, fgt, IsNaN.
  - change (flt fzero x) with (PrimFloat.ltb PrimFloat.zero x).
    change (@feq float _) with PrimFloat.eqb.
    destruct (PrimFloat.ltb PrimFloat.zero x) eqn:E.
    + now rewrite binary64_positive_not_NaN.
    + reflexivity.
  - change (flt fzero x) with (PrimFloat.ltb PrimFloat.zero x).
    destruct (PrimFloat.ltb PrimFloat.zero x) eqn:E; [now left | now right].
Qed.

Lemma ReLU_Apply_binary64_no_NaN_witness :
  exists t',
    nn.ReLU_Apply (nn.mkTensor 1 1 2 [PrimFloat.nan; f64 1 2]) = Ok t'
    /\ Forall (fun y => IsNaN y = false) (nn.Data t').
Proof.
  destruct (@ReLU_Apply_binary64_no_NaN
              (nn.mkTensor 1 1 2 [PrimFloat.nan; f64 1 2]))
    as (t' & E & Hnan & _).
  - split; [cbn; lia | reflexivity].
  - exists t'. split; [exact E | exact Hnan].
Defined.
